(** * Web Data Extractor: pattern recognizer, page-level de-duplication
      and contact store

    A shallow embedding of the TypeScript sources

    - [src/classes/PatternMatcher.ts]  (phones and e-mails),
    - [DOMScanner.matchContactData] and [DOMScanner.removeDuplicateContacts],
    - [DataManager] (the contact store and its session snapshot),

    together with the properties of the specification that concern them.

    JavaScript strings are sequences of UTF-16 code units; a code unit is a
    number [N].  Regular expressions are embedded as a small syntax with the
    backtracking (leftmost, greedy) semantics of ECMAScript. *)

From Stdlib Require Import ZArith NArith List Bool Lia String Ascii.
From stdpp Require Import base decidable option list gmap.

Local Open Scope N_scope.

(** ** JavaScript strings *)

Abbreviation jsstring := (list N).

(** A string literal of the sources, for literals made of ASCII characters. *)
Definition js (s : string) : jsstring :=
  List.map N_of_ascii (list_ascii_of_string s).
Arguments js _%_string.

(** Truthiness of a string value: only the empty string is falsy. *)
Definition truthy (s : jsstring) : bool :=
  match s with [] => false | _ :: _ => true end.

Definition inRange (lo hi c : N) : bool := (lo <=? c) && (c <=? hi).

(** [\d], i.e. [[0-9]] *)
Definition isDigit (c : N) : bool := inRange 48 57 c.
Definition isUpper (c : N) : bool := inRange 65 90 c.
Definition isLower (c : N) : bool := inRange 97 122 c.
Definition isAlpha (c : N) : bool := isUpper c || isLower c.

(** [\w], i.e. [[A-Za-z0-9_]] *)
Definition isWord (c : N) : bool := isAlpha c || isDigit c || (c =? 95).

(** [\s], and the characters removed by [String.prototype.trim]:
    WhiteSpace and LineTerminator of ECMAScript. *)
Definition isSpace (c : N) : bool :=
  inRange 9 13 c || (c =? 32) || (c =? 160) || (c =? 5760) ||
  inRange 8192 8202 c || (c =? 8232) || (c =? 8233) || (c =? 8239) ||
  (c =? 8287) || (c =? 12288) || (c =? 65279).

Definition isChar (k c : N) : bool := c =? k.

(** Code units with a name in the sources. *)
Definition cLParen : N := 40.
Definition cRParen : N := 41.
Definition cPlus : N := 43.
Definition cHyphen : N := 45.
Definition cDot : N := 46.
Definition cAt : N := 64.
Definition cSpace : N := 32.
Definition cBar : N := 124.

(** [toLowerCase], code unit by code unit, for Basic Latin and the
    Latin-1 Supplement (the letters that the patterns of the sources
    name): on a string of code units below 256 this is the method of the
    code.  Other code units are left as they are, where the code folds the
    letters of further alphabets as well.  Every string that reaches
    [toLowerCase] after a pattern of [PatternMatcher] has matched consists
    of Basic Latin characters. *)
Definition lowerUnit (c : N) : N :=
  if isUpper c then c + 32
  else if inRange 192 222 c && negb (c =? 215) then c + 32
  else c.

Definition toLowerCase (s : jsstring) : jsstring := List.map lowerUnit s.

(** [toUpperCase], code unit by code unit, for Basic Latin and Latin-1:
    the sharp s gives two code units, and the upper-case forms of [255]
    and [181] are outside Latin-1.  On a string of code units below 256
    this is the method of the code.  Other code units are left as they
    are, where the code maps the letters of further alphabets as well. *)
Definition upperUnit (c : N) : jsstring :=
  if isLower c then [c - 32]
  else if inRange 224 254 c && negb (c =? 247) then [c - 32]
  else if c =? 223 then [83; 83]
  else if c =? 255 then [376]
  else if c =? 181 then [924]
  else [c].

Definition toUpperCase (s : jsstring) : jsstring := flat_map upperUnit s.

Fixpoint trimStart (s : jsstring) : jsstring :=
  match s with
  | c :: s' => if isSpace c then trimStart s' else s
  | [] => []
  end.

Definition trimEnd (s : jsstring) : jsstring := rev (trimStart (rev s)).

Definition trim (s : jsstring) : jsstring := trimEnd (trimStart s).

(** [s.substring(a, b)] for [a <= b], and [s.substring(a)]. *)
Definition substring (a b : nat) (s : jsstring) : jsstring := take (b - a) (drop a s).
Definition substringFrom (a : nat) (s : jsstring) : jsstring := drop a s.

(** [s.charAt(i)]: the empty string when [i] is out of range. *)
Definition charAt (i : nat) (s : jsstring) : jsstring :=
  match s !! i with Some c => [c] | None => [] end.

Fixpoint startsWith (p s : jsstring) : bool :=
  match p, s with
  | [], _ => true
  | a :: p', b :: s' => (a =? b) && startsWith p' s'
  | _ :: _, [] => false
  end.

Definition endsWith (p s : jsstring) : bool := startsWith (rev p) (rev s).

(** [s.includes(p)] *)
Fixpoint includes (p s : jsstring) : bool :=
  startsWith p s || match s with [] => false | _ :: s' => includes p s' end.

(** [s.split(sep)] for a separator of one code unit: the pieces between the
    occurrences of [sep]; never the empty list. *)
Fixpoint split (sep : N) (s : jsstring) : list jsstring :=
  match s with
  | [] => [[]]
  | c :: s' =>
      if c =? sep then [] :: split sep s'
      else match split sep s' with
           | w :: ws => (c :: w) :: ws
           | [] => [[c]]
           end
  end.

(** [parts.join(sep)] for a separator of one code unit. *)
Fixpoint join (sep : N) (parts : list jsstring) : jsstring :=
  match parts with
  | [] => []
  | w :: ws =>
      match ws with
      | [] => w
      | _ :: _ => w ++ sep :: join sep ws
      end
  end.

(** [arr.includes(x)] on an array of strings. *)
Definition arrIncludes (x : jsstring) (arr : list jsstring) : bool :=
  existsb (fun y => bool_decide (y = x)) arr.

(** The value of a string of decimal digits. *)
Definition digitsValue (ds : jsstring) : Z :=
  fold_left (fun acc c => (10 * acc + Z.of_N (c - 48))%Z) ds 0%Z.

Fixpoint takeDigits (s : jsstring) : jsstring :=
  match s with
  | c :: s' => if isDigit c then c :: takeDigits s' else []
  | [] => []
  end.

(** [parseInt(s)] without radix; [None] is [NaN].  The sources call it on
    pieces of a string from which [replace(/\D/g, '')] has removed all but
    the decimal digits, so that white space, a sign or a [0x] prefix never
    occur in its argument; the leading digits are read in base ten. *)
Definition parseInt (s : jsstring) : option Z :=
  match takeDigits s with
  | [] => None
  | ds => Some (digitsValue ds)
  end.

(** ** Regular expressions with the backtracking semantics of ECMAScript *)

Module Regex.

(** The constructs that the patterns of the sources use.  A quantifier
    is applied to a character class ([Rep]) or, as [?], to a group that
    cannot match the empty string ([Opt]); all quantifiers are greedy. *)
Inductive regex : Type :=
| Eps
| Chr (p : N -> bool)                       (* one character of a class *)
| Rep (p : N -> bool) (lo : nat) (hi : option nat)   (* p{lo,hi}, p*, p+, p? *)
| Opt (r : regex)                           (* (?:r)? *)
| Seq (r1 r2 : regex)
| Alt (r1 r2 : regex)
| WordB                                     (* \b *)
| Bos                                       (* ^ without the m flag *)
| Eos.                                      (* $ without the m flag *)

Definition cat (rs : list regex) : regex := fold_right Seq Eps rs.

Definition star p := Rep p 0 None.
Definition plus p := Rep p 1 None.
Definition opt p := Rep p 0 (Some 1%nat).
Definition times n p := Rep p n (Some n).
Definition atLeast n p := Rep p n None.
Definition between lo hi p := Rep p lo (Some hi).

Definition canTake (hi : option nat) : bool :=
  match hi with None => true | Some h => negb (Nat.eqb h 0) end.

Definition decr (hi : option nat) : option nat :=
  match hi with None => None | Some h => Some (Nat.pred h) end.

Definition isWordAt (s : jsstring) : bool :=
  match s with c :: _ => isWord c | [] => false end.

Section Matcher.
Context {A : Type}.

(** A position in the input is the pair of the characters before it, in
    reverse order, and the characters after it.  The continuation [k]
    is the rest of the pattern; [None] makes the matcher backtrack. *)
Definition cont := jsstring -> jsstring -> option A.

Fixpoint rep (p : N -> bool) (lo : nat) (hi : option nat)
         (l r : jsstring) (k : cont) : option A :=
  match r with
  | c :: r' =>
      if p c && canTake hi then
        match rep p (Nat.pred lo) (decr hi) (c :: l) r' k with
        | Some x => Some x
        | None => if Nat.eqb lo 0 then k l r else None
        end
      else if Nat.eqb lo 0 then k l r else None
  | [] => if Nat.eqb lo 0 then k l r else None
  end.

Fixpoint m (re : regex) (l r : jsstring) (k : cont) : option A :=
  match re with
  | Eps => k l r
  | Chr p =>
      match r with
      | c :: r' => if p c then k (c :: l) r' else None
      | [] => None
      end
  | Rep p lo hi => rep p lo hi l r k
  | Opt re' =>
      match m re' l r k with
      | Some x => Some x
      | None => k l r
      end
  | Seq r1 r2 => m r1 l r (fun l' r' => m r2 l' r' k)
  | Alt r1 r2 =>
      match m r1 l r k with
      | Some x => Some x
      | None => m r2 l r k
      end
  | WordB => if xorb (isWordAt l) (isWordAt r) then k l r else None
  | Bos => match l with [] => k l r | _ :: _ => None end
  | Eos => match r with [] => k l r | _ :: _ => None end
  end.
End Matcher.

(** The match of [re] that starts at the position [(l, r)], given by the
    number of characters that are left after it. *)
Definition matchAt (re : regex) (l r : jsstring) : option nat :=
  m re l r (fun _ r' => Some (length r')).

(** [re.test(s)] for a pattern without the [g] flag: is there a match at
    some position of [s]? *)
Fixpoint testFrom (re : regex) (l r : jsstring) : bool :=
  match matchAt re l r with
  | Some _ => true
  | None =>
      match r with
      | c :: r' => testFrom re (c :: l) r'
      | [] => false
      end
  end.

Definition test (re : regex) (s : jsstring) : bool := testFrom re [] s.

(** [s.matchAll(re)] for a pattern with the [g] flag: the matched
    substrings [match[0]], from left to right.  [skip] counts the
    characters of the previous match that are still to be passed over;
    after an empty match the search resumes one character further. *)
Fixpoint matchAllFrom (re : regex) (skip : nat) (l r : jsstring) : list jsstring :=
  match skip with
  | S n =>
      match r with
      | c :: r' => matchAllFrom re n (c :: l) r'
      | [] => []
      end
  | O =>
      match matchAt re l r with
      | Some rest =>
          let n := (length r - rest)%nat in
          take n r ::
            match r with
            | c :: r' => matchAllFrom re (Nat.pred n) (c :: l) r'
            | [] => []
            end
      | None =>
          match r with
          | c :: r' => matchAllFrom re 0 (c :: l) r'
          | [] => []
          end
      end
  end.

Definition matchAll (re : regex) (s : jsstring) : list jsstring :=
  matchAllFrom re 0 [] s.

End Regex.

(** [text.replace(/\s+/g, ' ')]: every maximal run of white space becomes
    one space.  [inRun] tells that the previous character was white space. *)
Fixpoint collapseSpacesFrom (inRun : bool) (s : jsstring) : jsstring :=
  match s with
  | [] => []
  | c :: s' =>
      if isSpace c
      then (if inRun then collapseSpacesFrom true s'
            else cSpace :: collapseSpacesFrom true s')
      else c :: collapseSpacesFrom false s'
  end.

Definition collapseSpaces (s : jsstring) : jsstring := collapseSpacesFrom false s.

(** [text.split(/\s+/)]: the pieces between the maximal runs of white
    space; a run at the start or at the end gives an empty piece there.
    [inRun] tells that the previous character was white space. *)
Fixpoint splitSpacesFrom (inRun : bool) (s : jsstring) : list jsstring :=
  match s with
  | [] => [[]]
  | c :: s' =>
      if isSpace c
      then (if inRun then splitSpacesFrom true s' else [] :: splitSpacesFrom true s')
      else match splitSpacesFrom false s' with
           | w :: ws => (c :: w) :: ws
           | [] => [[c]]
           end
  end.

Definition splitSpaces (s : jsstring) : list jsstring := splitSpacesFrom false s.

(** ** PatternMatcher *)

Module PatternMatcher.
Import Regex.

Definition d19 (c : N) : bool := inRange 49 57 c.              (* [1-9] *)

(** [PHONE_PATTERNS], in the order of [Object.values].  In the comments
    a blank is written between a star and a closing parenthesis of the
    source pattern. *)

(* \(([1-9]{2})\)\s*([9]?[0-9]{4})-?([0-9]{4}) *)
Definition withParentheses : regex :=
  cat [Chr (isChar cLParen); times 2 d19; Chr (isChar cRParen); star isSpace;
       opt (isChar 57); times 4 isDigit; opt (isChar cHyphen); times 4 isDigit].

(* ([1-9]{2})\s+([9]?[0-9]{4})-?([0-9]{4}) *)
Definition withSpace : regex :=
  cat [times 2 d19; plus isSpace;
       opt (isChar 57); times 4 isDigit; opt (isChar cHyphen); times 4 isDigit].

(* \+55\s*([1-9]{2})\s*([9]?[0-9]{4})-?([0-9]{4}) *)
Definition international : regex :=
  cat [Chr (isChar cPlus); Chr (isChar 53); Chr (isChar 53); star isSpace;
       times 2 d19; star isSpace;
       opt (isChar 57); times 4 isDigit; opt (isChar cHyphen); times 4 isDigit].

(* (?:\+55\s* )?(?:\(?([1-9]{2})\)?\s* )?([9]?[0-9]{4})-?([0-9]{4}) *)
Definition general : regex :=
  cat [Opt (cat [Chr (isChar cPlus); Chr (isChar 53); Chr (isChar 53); star isSpace]);
       Opt (cat [opt (isChar cLParen); times 2 d19; opt (isChar cRParen); star isSpace]);
       opt (isChar 57); times 4 isDigit; opt (isChar cHyphen); times 4 isDigit].

Definition PHONE_PATTERNS : list regex :=
  [withParentheses; withSpace; international; general].

(** [phone.replace(/\D/g, '')] *)
Definition digitsOf (s : jsstring) : jsstring := List.filter isDigit s.

Definition validatePhone (phone : jsstring) : bool :=
  let digits := digitsOf phone in
  if (length digits <? 10)%nat || (11 <? length digits)%nat then false
  else
    let areaCode := parseInt (substring 0 2 digits) in
    if match areaCode with
       | Some a => (a <? 11)%Z || (99 <? a)%Z
       | None => false
       end
    then false
    else if (length digits =? 11)%nat then
      let firstDigit := charAt 2 digits in
      bool_decide (firstDigit = [57])
    else if (length digits =? 10)%nat then
      let firstDigit := charAt 2 digits in
      negb (bool_decide (firstDigit = [57])) &&
      negb (bool_decide (firstDigit = [48])) &&
      negb (bool_decide (firstDigit = [49]))
    else false.

Definition formatPhone (phone : jsstring) : option jsstring :=
  let digits := digitsOf phone in
  let digits :=
    if (length digits =? 13)%nat && startsWith [53; 53] digits
    then substringFrom 2 digits
    else if (length digits =? 12)%nat && startsWith [53; 53] digits
    then substringFrom 2 digits
    else digits in
  if (length digits <? 10)%nat || (11 <? length digits)%nat then None
  else
    let areaCode := parseInt (substring 0 2 digits) in
    if match areaCode with
       | Some a => (a <? 11)%Z || (99 <? a)%Z
       | None => false
       end
    then None
    else if (length digits =? 11)%nat then
      let firstDigit := charAt 2 digits in
      if negb (bool_decide (firstDigit = [57])) then None
      else Some ([cLParen] ++ substring 0 2 digits ++ [cRParen; cSpace] ++
                 substring 2 7 digits ++ [cHyphen] ++ substringFrom 7 digits)
    else if (length digits =? 10)%nat then
      let firstDigit := charAt 2 digits in
      if bool_decide (firstDigit = [57]) || bool_decide (firstDigit = [48]) ||
         bool_decide (firstDigit = [49])
      then None
      else Some ([cLParen] ++ substring 0 2 digits ++ [cRParen; cSpace] ++
                 substring 2 6 digits ++ [cHyphen] ++ substringFrom 6 digits)
    else None.

(** The body of the loop over the matches of one pattern. *)
Definition pushPhone (phones : list jsstring) (matched : jsstring) : list jsstring :=
  match formatPhone matched with
  | Some phone =>
      if validatePhone phone && negb (arrIncludes phone phones)
      then phones ++ [phone]
      else phones
  | None => phones
  end.

Definition cleanText (text : jsstring) : jsstring := trim (collapseSpaces text).

Definition extractPhones (text : jsstring) : list jsstring :=
  if negb (truthy text) then []
  else
    fold_left
      (fun phones pattern => fold_left pushPhone (matchAll pattern (cleanText text)) phones)
      PHONE_PATTERNS [].

(** [[A-Za-z0-9._%+-]] *)
Definition localClass (c : N) : bool :=
  isAlpha c || isDigit c || (c =? cDot) || (c =? 95) || (c =? 37) ||
  (c =? cPlus) || (c =? cHyphen).

(** [[A-Za-z0-9.-]] *)
Definition domainClass (c : N) : bool :=
  isAlpha c || isDigit c || (c =? cDot) || (c =? cHyphen).

(** The part that [EMAIL_PATTERN] and the pattern of [validateEmail]
    share: [[A-Za-z0-9._%+-]+@[A-Za-z0-9.-]+\.[A-Za-z]{2,}] *)
Definition emailCore : regex :=
  cat [plus localClass; Chr (isChar cAt); plus domainClass;
       Chr (isChar cDot); atLeast 2 isAlpha].

(* /\b[A-Za-z0-9._%+-]+@[A-Za-z0-9.-]+\.[A-Za-z]{2,}\b/g *)
Definition EMAIL_PATTERN : regex := Seq WordB (Seq emailCore WordB).

(* /^[A-Za-z0-9._%+-]+@[A-Za-z0-9.-]+\.[A-Za-z]{2,}$/ *)
Definition emailRegex : regex := Seq Bos (Seq emailCore Eos).

Definition validateEmail (email : jsstring) : bool :=
  if negb (test emailRegex email) then false
  else
    match split cAt email with
    | [localPart; domain] =>
        if (length localPart =? 0)%nat || (64 <? length localPart)%nat then false
        else if startsWith [cDot] localPart || endsWith [cDot] localPart then false
        else if includes [cDot; cDot] localPart then false
        else if (length domain =? 0)%nat || (253 <? length domain)%nat then false
        else if startsWith [cDot] domain || endsWith [cDot] domain ||
                startsWith [cHyphen] domain || endsWith [cHyphen] domain then false
        else if negb (includes [cDot] domain) then false
        else
          let domainParts := split cDot domain in
          if existsb
               (fun part =>
                  (length part =? 0)%nat || (63 <? length part)%nat ||
                  startsWith [cHyphen] part || endsWith [cHyphen] part)
               domainParts
          then false
          else
            let tld := List.last domainParts [] in
            if (length tld <? 2)%nat then false
            else true
    | _ => false
    end.

Definition pushEmail (emails : list jsstring) (matched : jsstring) : list jsstring :=
  let email := toLowerCase matched in
  if validateEmail email && negb (arrIncludes email emails)
  then emails ++ [email]
  else emails.

Definition extractEmails (text : jsstring) : list jsstring :=
  if negb (truthy text) then []
  else fold_left pushEmail (matchAll EMAIL_PATTERN text) [].

(** *** Names *)

Definition NAME_PARTICLES : list jsstring :=
  [js "da"; js "das"; js "de"; js "do"; js "dos"; js "del"; js "della"; js "van"; js "von";
   js "le"; js "la"; js "el"].

(** [NAME_PARTICLES.has(lowerWord)] *)
Definition isParticle (lowerWord : jsstring) : bool := arrIncludes lowerWord NAME_PARTICLES.

(** The accented letters that the patterns of the names list:
    [áàâãéêíóôõúç] and [ÁÀÂÃÉÊÍÓÔÕÚÇ]. *)
Definition lowerAccent (c : N) : bool :=
  existsb (N.eqb c) [225; 224; 226; 227; 233; 234; 237; 243; 244; 245; 250; 231].
Definition upperAccent (c : N) : bool :=
  existsb (N.eqb c) [193; 192; 194; 195; 201; 202; 205; 211; 212; 213; 218; 199].

(** [[A-ZÁÀÂÃÉÊÍÓÔÕÚÇ]] and [[a-záàâãéêíóôõúç]] *)
Definition upperClass (c : N) : bool := isUpper c || upperAccent c.
Definition lowerClass (c : N) : bool := isLower c || lowerAccent c.

(** [word.replace(/[^\w\sáàâãéêíóôõúçÁÀÂÃÉÊÍÓÔÕÚÇ]/g, '')] *)
Definition nameChar (c : N) : bool := isWord c || isSpace c || lowerAccent c || upperAccent c.
Definition cleanWord (word : jsstring) : jsstring := List.filter nameChar word.

(* /^[A-ZÁÀÂÃÉÊÍÓÔÕÚÇ]/ *)
Definition startsUpper : regex := cat [Bos; Chr upperClass].

(* /^[A-ZÁÀÂÃÉÊÍÓÔÕÚÇ][a-záàâãéêíóôõúç]+$/ *)
Definition capitalized : regex := cat [Bos; Chr upperClass; plus lowerClass; Eos].

Definition nonNameWords : list jsstring :=
  [js "contato"; js "contatos"; js "email"; js "telefone"; js "phone";
   (js "endere" ++ [231] ++ js "o"); js "address"; js "rua"; js "street"; js "cidade";
   js "city"; js "gerente"; js "diretor"; (js "respons" ++ [225] ++ js "vel");
   js "manager"; js "director"; js "contact"; js "info"; js "information"; js "empresa";
   js "company"].

Definition isNameWord (word : jsstring) : bool :=
  if negb (truthy word) || (length word <? 2)%nat then false
  else
    let lowerWord := toLowerCase word in
    if isParticle lowerWord then true
    else if negb (test startsUpper word) then false
    else if arrIncludes lowerWord nonNameWords then false
    else test capitalized word && (2 <=? length word)%nat.

(** A word of a pattern, and the alternatives [(w1|w2|...)] between two
    word boundaries. *)
Definition literal (w : jsstring) : regex := cat (List.map (fun c => Chr (isChar c)) w).

Fixpoint anyOf (ws : list jsstring) : regex :=
  match ws with
  | [] => Eps
  | w :: ws' =>
      match ws' with
      | [] => literal w
      | _ :: _ => Alt (literal w) (anyOf ws')
      end
  end.

Definition wholeWord (ws : list jsstring) : regex := Seq WordB (Seq (anyOf ws) WordB).

Definition invalidPatterns : list regex :=
  [wholeWord
     [js "email"; js "telefone"; js "phone"; js "contact"; js "contato";
      (js "endere" ++ [231] ++ js "o"); js "address"; js "rua"; js "street"; js "cidade";
      js "city"];
   wholeWord
     [js "segunda"; (js "ter" ++ [231] ++ js "a"); js "quarta"; js "quinta"; js "sexta";
      (js "s" ++ [225] ++ js "bado"); js "domingo"];
   wholeWord
     [js "janeiro"; js "fevereiro"; (js "mar" ++ [231] ++ js "o"); js "abril"; js "maio";
      js "junho"; js "julho"; js "agosto"; js "setembro"; js "outubro"; js "novembro";
      js "dezembro"];
   wholeWord
     [js "monday"; js "tuesday"; js "wednesday"; js "thursday"; js "friday"; js "saturday";
      js "sunday"];
   wholeWord
     [js "january"; js "february"; js "march"; js "april"; js "may"; js "june"; js "july";
      js "august"; js "september"; js "october"; js "november"; js "december"]].

(** The body of the loop of [validateName] over the words: [true] when
    the loop returns [false] at [word]. *)
Definition rejectsWord (word : jsstring) : bool :=
  if isParticle (toLowerCase word) then false
  else if (length word <? 2)%nat then true
  else if negb (isParticle (toLowerCase word)) && (length word <? 3)%nat then true
  else if negb (test startsUpper word) then true
  else if negb (test capitalized word) then true
  else false.

Definition validateName (name : jsstring) : bool :=
  let trimmedName := trim name in
  if (length trimmedName <? 2)%nat then false
  else
    let words := splitSpaces trimmedName in
    if (length words <? 2)%nat then false
    else if existsb rejectsWord words then false
    else
      let lowerName := toLowerCase trimmedName in
      if existsb (fun pattern => test pattern lowerName) invalidPatterns then false
      else true.

(** The callback of [words.map] in [formatName]. *)
Definition formatWord (index : nat) (word : jsstring) : jsstring :=
  let lowerWord := toLowerCase word in
  if (0 <? index)%nat && isParticle lowerWord then lowerWord
  else toUpperCase (charAt 0 word) ++ toLowerCase (substringFrom 1 word).

(** [None] is [null]. *)
Definition formatName (name : jsstring) : option jsstring :=
  let trimmedName := collapseSpaces (trim name) in
  if negb (truthy trimmedName) then None
  else
    let words := split cSpace trimmedName in
    Some (join cSpace (imap formatWord words)).

(** The end of a run of name words in [extractNames]: a run of two or
    more words is joined, formatted and validated. *)
Definition pushName (currentName names : list jsstring) : list jsstring :=
  if (2 <=? length currentName)%nat then
    let nameCandidate := join cSpace currentName in
    match formatName nameCandidate with
    | Some formattedName =>
        if truthy formattedName && validateName formattedName &&
           negb (arrIncludes formattedName names)
        then names ++ [formattedName]
        else names
    | None => names
    end
  else names.

(** The loop of [extractNames] over the words.  The source takes, from a
    name word on, the name words that follow it ([i] skips ahead to the
    last of them) and then empties [currentName]; here [currentName]
    grows word by word and the run ends at the first word that is not a
    name word, or at the end. *)
Fixpoint scanWords (words : list jsstring) (currentName names : list jsstring)
  : list jsstring :=
  match words with
  | [] => pushName currentName names
  | w :: rest =>
      let word := cleanWord w in
      if isNameWord word then scanWords rest (currentName ++ [word]) names
      else scanWords rest [] (pushName currentName names)
  end.

(** The words that reach [toLowerCase] and [toUpperCase] here hold only
    characters that [cleanWord] keeps, all of them in Latin-1. *)
Definition extractNames (text : jsstring) : list jsstring :=
  if negb (truthy text) then []
  else scanWords (splitSpaces text) [] [].

End PatternMatcher.

(** ** Contact records *)

(** A value of the [timestamp] field: the field may be missing, and a
    [Date] object is either invalid or an instant in milliseconds. *)
Inductive JsDate : Type :=
| NoDate
| InvalidDate
| DateAt (ms : Z).

Record ContactData : Type := mkContact {
  name : jsstring;
  phone : jsstring;
  email : jsstring;
  source : jsstring;
  timestamp : JsDate
}.

(** ** DOMScanner: field association and page-level de-duplication *)

Module DOMScanner.

(** [arr[i] || ''] *)
Definition itemOrEmpty (arr : list jsstring) (i : nat) : jsstring :=
  match arr !! i with Some x => x | None => [] end.

(** [source] is [window.location.href] and [now] the instant of the call. *)
Definition matchContactData (names phones emails : list jsstring)
           (source : jsstring) (now : Z) : list ContactData :=
  let mk i := mkContact (itemOrEmpty names i) (itemOrEmpty phones i)
                        (itemOrEmpty emails i) source (DateAt now) in
  (* Strategy 1 *)
  if (length names =? length phones)%nat && (length phones =? length emails)%nat &&
     (0 <? length names)%nat
  then List.map mk (seq 0 (length names))
  else
    (* Strategy 2 *)
    let maxLength := Nat.max (Nat.max (length names) (length phones)) (length emails) in
    let contacts :=
      List.filter (fun c => truthy (name c) && (truthy (phone c) || truthy (email c)))
                  (List.map mk (seq 0 maxLength)) in
    (* Strategy 3 *)
    if (length contacts =? 0)%nat
    then List.map (fun e => mkContact [] [] e source (DateAt now)) emails ++
         List.map (fun p => mkContact [] p [] source (DateAt now)) phones
    else contacts.

Definition dedupKey (contact : ContactData) : jsstring :=
  toLowerCase (email contact) ++ [cBar] ++ phone contact.

(** The test of the inner loop: same e-mail or same phone. *)
Definition partialMatch (contact existingContact : ContactData) : bool :=
  (truthy (email contact) &&
   bool_decide (toLowerCase (email contact) = toLowerCase (email existingContact))) ||
  (truthy (phone contact) && bool_decide (phone contact = phone existingContact)).

(** The three assignments that fill the missing fields of
    [existingContact]. *)
Definition mergeInto (existingContact contact : ContactData) : ContactData :=
  mkContact
    (if negb (truthy (name existingContact)) && truthy (name contact)
     then name contact else name existingContact)
    (if negb (truthy (phone existingContact)) && truthy (phone contact)
     then phone contact else phone existingContact)
    (if negb (truthy (email existingContact)) && truthy (email contact)
     then email contact else email existingContact)
    (source existingContact) (timestamp existingContact).

(** The inner loop: the first element of [unique] that matches is
    updated in place; [None] when [isDuplicate] stays false. *)
Fixpoint mergeFirst (contact : ContactData) (unique : list ContactData)
  : option (list ContactData) :=
  match unique with
  | [] => None
  | existingContact :: rest =>
      if partialMatch contact existingContact
      then Some (mergeInto existingContact contact :: rest)
      else match mergeFirst contact rest with
           | Some rest' => Some (existingContact :: rest')
           | None => None
           end
  end.

(** One turn of the outer loop on the pair of [seen] and [unique].  The
    records of [unique] are the objects of the input array themselves;
    the loop changes only objects that it has already visited, so that
    for an input of distinct objects the values below are what the loop
    reads. *)
Definition dedupStep (st : gset jsstring * list ContactData) (contact : ContactData)
  : gset jsstring * list ContactData :=
  let key := dedupKey contact in
  if bool_decide (key ∈ st.1) then st
  else match mergeFirst contact st.2 with
       | Some unique' => (st.1, unique')
       | None => ({[ key ]} ∪ st.1, st.2 ++ [contact])
       end.

Definition removeDuplicateContacts (contacts : list ContactData) : list ContactData :=
  (fold_left dedupStep contacts (∅, [])).2.

End DOMScanner.

(** ** DataManager: the contact store *)

Module DataManager.
Import Regex.

(** A contact as [JSON.stringify] writes it: a missing [timestamp] is left
    out, an invalid [Date] becomes [null], a valid one its ISO string. *)
Inductive JsonTime : Type :=
| JAbsent
| JNull
| JIso (ms : Z).

Record StoredContact : Type := mkStored {
  sName : jsstring;
  sPhone : jsstring;
  sEmail : jsstring;
  sSource : jsstring;
  sTimestamp : JsonTime
}.

Definition toStored (c : ContactData) : StoredContact :=
  mkStored (name c) (phone c) (email c) (source c)
           match timestamp c with
           | NoDate => JAbsent
           | InvalidDate => JNull
           | DateAt t => JIso t
           end.

(** [{...contact, timestamp: new Date(contact.timestamp)}]:
    [new Date(undefined)] is an invalid date and [new Date(null)] is the
    epoch. *)
Definition revive (c : StoredContact) : ContactData :=
  mkContact (sName c) (sPhone c) (sEmail c) (sSource c)
            match sTimestamp c with
            | JAbsent => InvalidDate
            | JNull => DateAt 0
            | JIso t => DateAt t
            end.

(** The item of the session key.  [sessionTime] is [None] when the
    [timestamp] of the snapshot is missing or is not a date. *)
Record Session : Type := mkSession {
  sessionContacts : list StoredContact;
  sessionTime : option Z;
  sessionUrl : jsstring
}.

(** The state: the array [this.contacts], the two items of
    [localStorage] that the class owns ([None] for a key without a
    value), and the outcomes of the coming calls of
    [localStorage.setItem] by [saveToStorage] and [saveSession], in their
    order: [true] for a call that throws (the storage is full or may not
    be written); the calls after the end of the list succeed.  [getItem]
    and [removeItem] return, as the interface of the storage has it. *)
Record State : Type := mkState {
  contacts : list ContactData;
  storageItem : option (list StoredContact);
  sessionItem : option Session;
  setItemThrows : list bool
}.

Inductive MergeStrategy : Type := Replace | Merge.

(** Does the next call of [localStorage.setItem] by this class throw? *)
Definition setItemFails (dm : State) : bool :=
  match setItemThrows dm with
  | true :: _ => true
  | _ => false
  end.

(** [saveToStorage] catches the exception of [setItem] and warns on the
    console: the item is then the one of before, and the caller goes
    on. *)
Definition saveToStorage (dm : State) : State :=
  mkState (contacts dm)
          (if setItemFails dm then storageItem dm
           else Some (List.map toStored (contacts dm)))
          (sessionItem dm)
          (tail (setItemThrows dm)).

(** [/[\s\-\(\)\+]/] *)
Definition separator (c : N) : bool :=
  isSpace c || (c =? cHyphen) || (c =? cLParen) || (c =? cRParen) || (c =? cPlus).

Definition normalizePhone (phone : jsstring) : jsstring :=
  List.filter (fun c => negb (separator c)) phone.

(** [[A-Z|a-z]] *)
Definition tldClass (c : N) : bool := isAlpha c || (c =? cBar).

(* /^[A-Za-z0-9._%+-]+@[A-Za-z0-9.-]+\.[A-Z|a-z]{2,}$/ *)
Definition emailRegex : regex :=
  cat [Bos; plus PatternMatcher.localClass; Chr (isChar cAt);
       plus PatternMatcher.domainClass; Chr (isChar cDot); atLeast 2 tldClass; Eos].

Definition isValidEmail (email : jsstring) : bool := test emailRegex (trim email).

(* /^\(\d{2}\)\s?\d{4,5}-?\d{4}$/ *)
Definition phonePattern1 : regex :=
  cat [Bos; Chr (isChar cLParen); times 2 isDigit; Chr (isChar cRParen); opt isSpace;
       between 4 5 isDigit; opt (isChar cHyphen); times 4 isDigit; Eos].

(* /^\d{2}\s\d{4,5}-?\d{4}$/ *)
Definition phonePattern2 : regex :=
  cat [Bos; times 2 isDigit; Chr isSpace;
       between 4 5 isDigit; opt (isChar cHyphen); times 4 isDigit; Eos].

(* /^\+55\s\d{2}\s\d{4,5}-?\d{4}$/ *)
Definition phonePattern3 : regex :=
  cat [Bos; Chr (isChar cPlus); Chr (isChar 53); Chr (isChar 53); Chr isSpace;
       times 2 isDigit; Chr isSpace;
       between 4 5 isDigit; opt (isChar cHyphen); times 4 isDigit; Eos].

(* /^\d{10,11}$/ *)
Definition phonePattern4 : regex := cat [Bos; between 10 11 isDigit; Eos].

Definition phonePatterns : list regex :=
  [phonePattern1; phonePattern2; phonePattern3; phonePattern4].

Definition isValidPhone (phone : jsstring) : bool :=
  let cleanPhone := trim phone in
  if negb (truthy cleanPhone) then false
  else existsb (fun pattern => test pattern cleanPhone) phonePatterns.

Definition hasPhone (contact : ContactData) : bool :=
  truthy (phone contact) && truthy (trim (phone contact)).

Definition hasEmail (contact : ContactData) : bool :=
  truthy (email contact) && truthy (trim (email contact)).

Definition validateContact (contact : ContactData) : bool :=
  if negb (truthy (name contact)) || negb (truthy (trim (name contact))) then false
  else if negb (hasPhone contact) && negb (hasEmail contact) then false
  else if hasEmail contact && negb (isValidEmail (email contact)) then false
  else if hasPhone contact && negb (isValidPhone (phone contact)) then false
  else true.

(** The body of the callback of [some] in [isDuplicateInArray]. *)
Definition duplicates (contact existing : ContactData) : bool :=
  let nameMatch :=
    bool_decide (trim (toLowerCase (name existing)) = trim (toLowerCase (name contact))) in
  let phoneMatch :=
    truthy (phone existing) && truthy (phone contact) &&
    truthy (trim (phone existing)) && truthy (trim (phone contact)) &&
    bool_decide (normalizePhone (phone existing) = normalizePhone (phone contact)) in
  let emailMatch :=
    truthy (email existing) && truthy (email contact) &&
    truthy (trim (email existing)) && truthy (trim (email contact)) &&
    bool_decide (trim (toLowerCase (email existing)) = trim (toLowerCase (email contact))) in
  nameMatch && (phoneMatch || emailMatch).

Definition isDuplicateInArray (contact : ContactData) (contactArray : list ContactData) : bool :=
  existsb (duplicates contact) contactArray.

Definition isDuplicate (contact : ContactData) (dm : State) : bool :=
  isDuplicateInArray contact (contacts dm).

(** [now] is the instant that [new Date()] gives. *)
Definition addContact (now : Z) (contact : ContactData) (dm : State) : bool * State :=
  if negb (validateContact contact) then (false, dm)
  else if isDuplicate contact dm then (false, dm)
  else
    let contact :=
      match timestamp contact with
      | NoDate => mkContact (name contact) (phone contact) (email contact)
                            (source contact) (DateAt now)
      | _ => contact
      end in
    (true, saveToStorage (mkState (contacts dm ++ [contact]) (storageItem dm) (sessionItem dm)
                                  (setItemThrows dm))).

Definition removeContact (index : Z) (dm : State) : bool * State :=
  if (index <? 0)%Z || (Z.of_nat (length (contacts dm)) <=? index)%Z then (false, dm)
  else (true, saveToStorage (mkState (delete (Z.to_nat index) (contacts dm))
                                     (storageItem dm) (sessionItem dm) (setItemThrows dm))).

Definition updateContact (index : Z) (contact : ContactData) (dm : State) : bool * State :=
  if (index <? 0)%Z || (Z.of_nat (length (contacts dm)) <=? index)%Z then (false, dm)
  else if negb (validateContact contact) then (false, dm)
  else
    let tempContacts := delete (Z.to_nat index) (contacts dm) in
    if isDuplicateInArray contact tempContacts then (false, dm)
    else (true, saveToStorage (mkState (<[Z.to_nat index := contact]> (contacts dm))
                                       (storageItem dm) (sessionItem dm) (setItemThrows dm))).

Definition getContactCount (dm : State) : nat := length (contacts dm).

Definition clearAll (dm : State) : State :=
  saveToStorage (mkState [] (storageItem dm) (sessionItem dm) (setItemThrows dm)).

(** [url] is [window.location.href].  The exception of [setItem] is
    caught here too: the snapshot is then the one of before, if there was
    one. *)
Definition saveSession (now : Z) (url : jsstring) (dm : State) : State :=
  mkState (contacts dm) (storageItem dm)
          (if setItemFails dm then sessionItem dm
           else Some (mkSession (List.map toStored (contacts dm)) (Some now) url))
          (tail (setItemThrows dm)).

Definition loadSession (dm : State) : option (list ContactData * option Z) :=
  match sessionItem dm with
  | Some session => Some (List.map revive (sessionContacts session), sessionTime session)
  | None => None
  end.

(** The loop of the merge strategy; [isDuplicate] reads the array that
    the loop extends. *)
Definition mergeContacts (incoming : list ContactData) (current : list ContactData)
  : list ContactData :=
  fold_left (fun acc contact =>
               if negb (isDuplicateInArray contact acc) then acc ++ [contact] else acc)
            incoming current.

Definition restoreSession (mergeStrategy : MergeStrategy) (dm : State) : bool * State :=
  match loadSession dm with
  | None => (false, dm)
  | Some (sessionContacts, _) =>
      let contacts' :=
        match mergeStrategy with
        | Replace => sessionContacts
        | Merge => mergeContacts sessionContacts (contacts dm)
        end in
      (true, saveToStorage (mkState contacts' (storageItem dm) (sessionItem dm) (setItemThrows dm)))
  end.

Definition clearSession (dm : State) : State :=
  mkState (contacts dm) (storageItem dm) None (setItemThrows dm).

(** [None] is [null]. *)
Definition getSessionAge (now : Z) (dm : State) : option Z :=
  match loadSession dm with
  | Some (_, Some sessionTime) => Some ((now - sessionTime) / (1000 * 60))%Z
  | _ => None
  end.

Definition msPerDay : Z := 86400000.

(** The time zone of the browser, in milliseconds: [utcOffset t] is the
    offset of the local time at the instant [t], and [localOffset t] the
    offset that belongs to the local time [t] ([LocalTZA(t, true)] and
    [LocalTZA(t, false)] of ECMAScript).  With daylight saving time the
    two change over the year. *)
Record TimeZone : Type := mkZone {
  utcOffset : Z -> Z;
  localOffset : Z -> Z
}.

(** [TimeClip]: a time value beyond 8.64e15 milliseconds makes an invalid
    date. *)
Definition maxTime : Z := 8640000000000000.

Definition timeClip (t : Z) : JsDate :=
  if (Z.abs t <=? maxTime)%Z then DateAt t else InvalidDate.

(** [cutoffDate.setDate(cutoffDate.getDate() - maxAgeDays)] on
    [new Date()], for a whole number of days: the local calendar date
    goes back by [maxAgeDays] days and the local time of day stays
    ([MakeDate(MakeDay(year, month, date - maxAgeDays), TimeWithinDay)]);
    the result goes back to universal time with the offset of that local
    time, and through [TimeClip]. *)
Definition cutoffDate (zone : TimeZone) (now maxAgeDays : Z) : JsDate :=
  let localNow := (now + utcOffset zone now)%Z in
  let newDate := (localNow - maxAgeDays * msPerDay)%Z in
  timeClip (newDate - localOffset zone newDate).

(** [contact.timestamp && contact.timestamp > cutoffDate]: a comparison
    with an invalid date is false. *)
Definition newerThan (cutoff : JsDate) (contact : ContactData) : bool :=
  match timestamp contact, cutoff with
  | DateAt t, DateAt limit => (limit <? t)%Z
  | _, _ => false
  end.

Definition cleanupOldContacts (zone : TimeZone) (now maxAgeDays : Z) (dm : State) : State :=
  let kept := List.filter (newerThan (cutoffDate zone now maxAgeDays)) (contacts dm) in
  let dm' := mkState kept (storageItem dm) (sessionItem dm) (setItemThrows dm) in
  if negb (length kept =? length (contacts dm))%nat then saveToStorage dm' else dm'.

(** [now1] and [now2] are the instants of the two calls of [new Date()],
    one in [getSessionAge] and one in [cleanupOldContacts]. *)
Definition cleanupOldSessions (zone : TimeZone) (maxAgeHours : Z) (now1 now2 : Z)
           (dm : State) : State :=
  let dm1 :=
    match getSessionAge now1 dm with
    | Some sessionAge => if (maxAgeHours * 60 <? sessionAge)%Z then clearSession dm else dm
    | None => dm
    end in
  cleanupOldContacts zone now2 (maxAgeHours * 24) dm1.

(** The parsed argument of [importSessionData]: [None] when the text is
    not JSON or has no array [contacts]. *)
Definition importSessionData (importData : option (list StoredContact))
           (mergeStrategy : MergeStrategy) (dm : State) : bool * State :=
  match importData with
  | None => (false, dm)
  | Some stored =>
      let importedContacts := List.map revive stored in
      let contacts' :=
        match mergeStrategy with
        | Replace => importedContacts
        | Merge => mergeContacts importedContacts (contacts dm)
        end in
      (true, saveToStorage (mkState contacts' (storageItem dm) (sessionItem dm) (setItemThrows dm)))
  end.

Definition emptyStore : State := mkState [] None None [].

(** [loadFromStorage], and the constructor, which starts from an empty
    array and calls it. *)
Definition loadFromStorage (dm : State) : State :=
  match storageItem dm with
  | Some stored =>
      mkState (List.map revive stored) (storageItem dm) (sessionItem dm) (setItemThrows dm)
  | None => dm
  end.

Definition construct (storageItem : option (list StoredContact))
           (sessionItem : option Session) (setItemThrows : list bool) : State :=
  loadFromStorage (mkState [] storageItem sessionItem setItemThrows).

(** The values that [getAllContacts] and [getContact] return; [None] is
    [null]. *)
Definition getAllContacts (dm : State) : list ContactData := contacts dm.

Definition getContact (index : Z) (dm : State) : option ContactData :=
  if (index <? 0)%Z || (Z.of_nat (length (contacts dm)) <=? index)%Z then None
  else contacts dm !! Z.to_nat index.

Definition hasSession (dm : State) : bool :=
  match sessionItem dm with Some _ => true | None => false end.

(** The object that [exportSessionData] serializes; [importSessionData]
    reads its field [contacts]. *)
Record ExportData : Type := mkExport {
  exportContacts : list StoredContact;
  exportTimestamp : Z;
  version : jsstring
}.

Definition exportSessionData (now : Z) (dm : State) : ExportData :=
  mkExport (List.map toStored (contacts dm)) now (js "1.0").

End DataManager.

(** ** CSVExporter *)

Module CSVExporter.

Definition cQuote : N := 34.
Definition cComma : N := 44.
Definition cLF : N := 10.
Definition cCR : N := 13.

(** The replacement of every double quote of [stringField] by two. *)
Definition doubleQuotes (s : jsstring) : jsstring :=
  flat_map (fun c => if c =? cQuote then [cQuote; cQuote] else [c]) s.

Definition escapeCSVField (field : jsstring) : jsstring :=
  if negb (truthy field) then [cQuote; cQuote]
  else
    let needsQuoting :=
      includes [cComma] field || includes [cQuote] field ||
      includes [cLF] field || includes [cCR] field in
    if needsQuoting then [cQuote] ++ doubleQuotes field ++ [cQuote]
    else field.

Definition UTF8_BOM : jsstring := [65279].

(* ['Nome', 'Telefone', 'Email', 'Fonte', 'Data de Extração'] *)
Definition CSV_HEADERS : list jsstring :=
  [js "Nome"; js "Telefone"; js "Email"; js "Fonte";
   js "Data de Extra" ++ [231; 227] ++ js "o"].

Section Rows.

(** The text [DD/MM/YYYY HH:MM:SS] that the getters of [Date] give for an
    instant, in the time zone of the browser. *)
Variable localTime : Z -> jsstring.

(** Every getter of an invalid [Date] gives [NaN], which [padStart]
    leaves as it is. *)
Definition formatTimestamp (timestamp : JsDate) : jsstring :=
  match timestamp with
  | NoDate => []
  | InvalidDate => js "NaN/NaN/NaN NaN:NaN:NaN"
  | DateAt ms => localTime ms
  end.

Definition row (contact : ContactData) : list jsstring :=
  [escapeCSVField (name contact);
   escapeCSVField (phone contact);
   escapeCSVField (email contact);
   escapeCSVField (source contact);
   escapeCSVField (formatTimestamp (timestamp contact))].

(** [None] is the exception that is thrown for an empty array. *)
Definition generateCSV (contacts : list ContactData) : option jsstring :=
  if (length contacts =? 0)%nat then None
  else
    Some (fold_left (fun csvContent contact => csvContent ++ join cComma (row contact) ++ [cLF])
                    contacts
                    (UTF8_BOM ++ join cComma CSV_HEADERS ++ [cLF])).

End Rows.

End CSVExporter.

(** ** WebDataExtractor: from the scanned page to the store *)

Module WebDataExtractor.
Import DataManager.

(** [this.config.maxContacts || 100] for a configuration that holds an
    integer or nothing ([None]): zero is falsy. *)
Definition contactLimit (maxContacts : option Z) : Z :=
  match maxContacts with
  | Some 0%Z => 100
  | Some n => n
  | None => 100
  end.

(** [array.slice(0, end)] for an integer [end]: a negative [end] counts
    from the end of the array. *)
Definition sliceTo {A : Type} (finish : Z) (l : list A) : list A :=
  if (finish <? 0)%Z then take (Z.to_nat (Z.of_nat (length l) + finish)) l
  else take (Z.to_nat finish) l.

(** The loop of [startExtraction] over the filtered contacts: the state of
    the store and the array [addedContacts].  [clock i] is the instant of
    [new Date()] in the call of [addContact] for the contact at place [i]
    of the scan. *)
Fixpoint addScanned (clock : nat -> Z) (i : nat) (scanned : list ContactData)
         (st : State * list ContactData) : State * list ContactData :=
  match scanned with
  | [] => st
  | contact :: rest =>
      let r := addContact (clock i) contact st.1 in
      addScanned clock (S i) rest
        (if r.1 then (r.2, st.2 ++ [List.last (contacts r.2) contact]) else st)
  end.

(** [startExtraction], from the result [scanned] of [scanPage] on: the
    store is cleared, the contacts of [slice(0, maxContacts || 100)] are
    offered to [addContact], and the session is saved.  The result is the store and
    the array [addedContacts], whose elements are the objects that
    [addContact] has stored.  The elements to highlight and the
    confidence, which is also handed to [saveSession] as [sessionData],
    are left out: no method of the store reads [sessionData]. *)
Definition startExtraction (maxContacts : option Z) (clock : nat -> Z)
           (saveTime : Z) (url : jsstring)
           (scanned : list ContactData) (dm : State) : State * list ContactData :=
  let filteredContacts := sliceTo (contactLimit maxContacts) scanned in
  let r := addScanned clock 0 filteredContacts (clearAll dm, []) in
  (saveSession saveTime url r.1, r.2).

End WebDataExtractor.

(** ** Objects and references: what the accessors of the store hand out *)

Module Objects.

Abbreviation loc := positive.

(** The objects that matter here: contact records and arrays of
    references to them.  A [Date] counts as a value of its field. *)
Inductive object : Type :=
| ORecord (c : ContactData)
| OArray (elems : list loc).

Abbreviation heap := (gmap loc object).

Definition alloc (o : object) (h : heap) : loc * heap :=
  let l := fresh (dom h) in (l, <[l := o]> h).

Definition readArray (h : heap) (a : loc) : option (list loc) :=
  match h !! a with Some (OArray elems) => Some elems | _ => None end.

Definition readRecord (h : heap) (o : loc) : option ContactData :=
  match h !! o with Some (ORecord c) => Some c | _ => None end.

(** The records that the store holds, read through [this.contacts]. *)
Definition storeContents (h : heap) (contactsRef : loc) : option (list ContactData) :=
  elems ← readArray h contactsRef; mapM (readRecord h) elems.

(** [return [...this.contacts]]: a new array with the same elements. *)
Definition getAllContacts (contactsRef : loc) (h : heap) : option (loc * heap) :=
  elems ← readArray h contactsRef; Some (alloc (OArray elems) h).

(** [return { ...this.contacts[index] }]: a new record with the same
    fields; [Some (None, h)] is the result [null]. *)
Definition getContact (contactsRef : loc) (index : Z) (h : heap)
  : option (option loc * heap) :=
  elems ← readArray h contactsRef;
  if (index <? 0)%Z || (Z.of_nat (length elems) <=? index)%Z then Some (None, h)
  else
    r ← elems !! Z.to_nat index;
    c ← readRecord h r;
    let (o, h') := alloc (ORecord c) h in Some (Some o, h').

(** What a caller can do to an object it holds: any change of the
    elements of an array (assignment, [push], [splice], ...) and any
    change of the fields of a record. *)
Definition mutateArray (a : loc) (f : list loc -> list loc) (h : heap) : heap :=
  match h !! a with
  | Some (OArray elems) => <[a := OArray (f elems)]> h
  | _ => h
  end.

Definition mutateRecord (o : loc) (g : ContactData -> ContactData) (h : heap) : heap :=
  match h !! o with
  | Some (ORecord c) => <[o := ORecord (g c)]> h
  | _ => h
  end.

End Objects.

(** ** Auxiliary definitions for the statements and proofs *)

(** The first occurrence of every element, in order. *)
Fixpoint firstOccurrences (l : list jsstring) : list jsstring :=
  match l with
  | [] => []
  | x :: l' => x :: List.filter (fun y => negb (bool_decide (y = x))) (firstOccurrences l')
  end.

Module PhoneStages.
Import Regex PatternMatcher.

(** All matches of the phone patterns in [text], pattern after pattern. *)
Definition phoneMatches (text : jsstring) : list jsstring :=
  flat_map (fun pattern => matchAll pattern (cleanText text)) PHONE_PATTERNS.

(** The matches that [formatPhone] accepts and [validatePhone] passes,
    formatted, in the order of the matches. *)
Definition validFormatted (matches : list jsstring) : list jsstring :=
  List.filter validatePhone (omap formatPhone matches).

(** The two stages of [formatPhone] after the digits have been taken. *)
Definition withoutCountryCode (digits : jsstring) : jsstring :=
  if (length digits =? 13)%nat && startsWith [53; 53] digits
  then substringFrom 2 digits
  else if (length digits =? 12)%nat && startsWith [53; 53] digits
  then substringFrom 2 digits
  else digits.

Definition canonicalOf (digits : jsstring) : option jsstring :=
  if (length digits <? 10)%nat || (11 <? length digits)%nat then None
  else
    let areaCode := parseInt (substring 0 2 digits) in
    if match areaCode with
       | Some a => (a <? 11)%Z || (99 <? a)%Z
       | None => false
       end
    then None
    else if (length digits =? 11)%nat then
      let firstDigit := charAt 2 digits in
      if negb (bool_decide (firstDigit = [57])) then None
      else Some ([cLParen] ++ substring 0 2 digits ++ [cRParen; cSpace] ++
                 substring 2 7 digits ++ [cHyphen] ++ substringFrom 7 digits)
    else if (length digits =? 10)%nat then
      let firstDigit := charAt 2 digits in
      if bool_decide (firstDigit = [57]) || bool_decide (firstDigit = [48]) ||
         bool_decide (firstDigit = [49])
      then None
      else Some ([cLParen] ++ substring 0 2 digits ++ [cRParen; cSpace] ++
                 substring 2 6 digits ++ [cHyphen] ++ substringFrom 6 digits)
    else None.
End PhoneStages.

Module EmailStages.
Import PatternMatcher.

(** The rules of [validateEmail] that follow the test of the pattern. *)
Definition emailRules (email : jsstring) : bool :=
  match split cAt email with
  | [localPart; domain] =>
      if (length localPart =? 0)%nat || (64 <? length localPart)%nat then false
      else if startsWith [cDot] localPart || endsWith [cDot] localPart then false
      else if includes [cDot; cDot] localPart then false
      else if (length domain =? 0)%nat || (253 <? length domain)%nat then false
      else if startsWith [cDot] domain || endsWith [cDot] domain ||
              startsWith [cHyphen] domain || endsWith [cHyphen] domain then false
      else if negb (includes [cDot] domain) then false
      else
        let domainParts := split cDot domain in
        if existsb
             (fun part =>
                (length part =? 0)%nat || (63 <? length part)%nat ||
                startsWith [cHyphen] part || endsWith [cHyphen] part)
             domainParts
        then false
        else
          let tld := List.last domainParts [] in
          if (length tld <? 2)%nat then false
          else true
  | _ => false
  end.

(** The strings of the shape [local@domain.tld] that the e-mail patterns
    describe; [tldClass] is the class of the last part. *)
Definition emailShape (tldClass : N -> bool) (e loc dom tld : jsstring) : Prop :=
  e = loc ++ cAt :: dom ++ cDot :: tld /\
  Forall (fun c => localClass c = true) loc /\ (1 <= length loc)%nat /\
  Forall (fun c => domainClass c = true) dom /\ (1 <= length dom)%nat /\
  Forall (fun c => tldClass c = true) tld /\ (2 <= length tld)%nat.
End EmailStages.

Module Examples.

Definition joaoEmail : jsstring := js "joao@email.com".
Definition joaoPhone : jsstring := js "(11) 99999-9999".
(** ["João Silva"]; the code unit of [ã] is 227. *)
Definition joaoName : jsstring := js "Jo" ++ [227] ++ js "o Silva".
Definition page : jsstring := js "https://example.com/".

(** The candidates of the blocks ["joao@email.com"],
    ["João Silva - joao@email.com"] and
    ["João Silva - joao@email.com - (11) 99999-9999"]. *)
Definition orphanRecord : ContactData := mkContact [] [] joaoEmail page (DateAt 0).
Definition namedRecord : ContactData := mkContact joaoName [] joaoEmail page (DateAt 0).
Definition fullRecord : ContactData := mkContact joaoName joaoPhone joaoEmail page (DateAt 0).

(** A record without a name, and one with a phone that the store takes
    and [validatePhone] does not. *)
Definition orphanPhone : ContactData := mkContact [] joaoPhone [] page (DateAt 0).
Definition mariaRecord : ContactData :=
  mkContact (js "Maria Santos") (js "(21) 88888-8888") [] page (DateAt 0).
Definition junkStored : DataManager.StoredContact :=
  DataManager.mkStored (js "Maria Santos") (js "123") [] page (DataManager.JIso 0).

(** A state whose session snapshot holds [mariaRecord], and one whose
    snapshot holds a record with the phone ["123"]. *)
Definition sessionState : DataManager.State :=
  DataManager.mkState [] None
    (Some (DataManager.mkSession [DataManager.toStored mariaRecord] (Some 0%Z) page)) [].
Definition junkSessionState : DataManager.State :=
  DataManager.mkState [] None (Some (DataManager.mkSession [junkStored] (Some 0%Z) page)) [].


(** Thirty days after the epoch, and a store with one record whose
    [timestamp] is the epoch and with a snapshot taken at the epoch. *)
Definition thirtyDays : Z := (30 * DataManager.msPerDay)%Z.
Definition oldRecord : ContactData :=
  mkContact (js "Ana Lima") joaoPhone [] page (DateAt 0).
Definition oldState : DataManager.State :=
  DataManager.mkState [oldRecord] None
    (Some (DataManager.mkSession [DataManager.toStored oldRecord] (Some 0%Z) page)) [].

Definition blankName (c : ContactData) : ContactData :=
  mkContact [] (phone c) (email c) (source c) (timestamp c).

(** A heap with the array of the store at [1] and its one record at
    [2]. *)
Definition smallHeap : gmap positive Objects.object :=
  <[1%positive := Objects.OArray [2%positive]]>
    (<[2%positive := Objects.ORecord fullRecord]> ∅).

End Examples.

Module DedupStages.
Import DOMScanner.

(** The state of the loop of [removeDuplicateContacts] after the records
    [contacts]. *)
Definition dedupState (contacts : list ContactData) : gset jsstring * list ContactData :=
  fold_left dedupStep contacts (∅, []).

(** [u] has the e-mail and the phone of [c], where [c] has them. *)
Definition carries (u c : ContactData) : Prop :=
  (truthy (email c) = true -> email u = email c) /\
  (truthy (phone c) = true -> phone u = phone c).

End DedupStages.

Module StoreInvariants.
Import DataManager.

(** The invariant of the specification: the rules of the pattern
    recognizer for a phone and an e-mail that are present. *)
Definition recognizerRule (c : ContactData) : Prop :=
  (truthy (phone c) = true -> PatternMatcher.validatePhone (phone c) = true) /\
  (truthy (email c) = true -> PatternMatcher.validateEmail (email c) = true).

Definition specInvariant (dm : State) : Prop := Forall recognizerRule (contacts dm).

(** The invariant of the store: its own patterns for a phone and an
    e-mail that are present. *)
Definition storeRule (c : ContactData) : Prop :=
  (hasPhone c = true -> isValidPhone (phone c) = true) /\
  (hasEmail c = true -> isValidEmail (email c) = true).

Definition storeInvariant (dm : State) : Prop := Forall storeRule (contacts dm).

End StoreInvariants.

Module PhoneChecks.
Import PatternMatcher.

(** The checks of [validatePhone] on the digits of its argument. *)
Definition validDigits (digits : jsstring) : bool :=
  if (length digits <? 10)%nat || (11 <? length digits)%nat then false
  else
    let areaCode := parseInt (substring 0 2 digits) in
    if match areaCode with
       | Some a => (a <? 11)%Z || (99 <? a)%Z
       | None => false
       end
    then false
    else if (length digits =? 11)%nat then
      let firstDigit := charAt 2 digits in
      bool_decide (firstDigit = [57])
    else if (length digits =? 10)%nat then
      let firstDigit := charAt 2 digits in
      negb (bool_decide (firstDigit = [57])) &&
      negb (bool_decide (firstDigit = [48])) &&
      negb (bool_decide (firstDigit = [49]))
    else false.

(** The canonical texts: [(AA) NNNNN-NNNN] with a first [9], and
    [(AA) NNNN-NNNN] with a first digit from [2] to [8]; the area code is
    between 11 and 99. *)
Definition canonicalPhone (p : jsstring) : Prop :=
  exists a b c,
    p = [cLParen] ++ a ++ [cRParen; cSpace] ++ b ++ [cHyphen] ++ c /\
    Forall (fun d => isDigit d = true) (a ++ b ++ c) /\
    length a = 2%nat /\ length c = 4%nat /\
    (11 <= digitsValue a <= 99)%Z /\
    ((length b = 5%nat /\ b !! 0%nat = Some 57) \/
     (length b = 4%nat /\ exists d, b !! 0%nat = Some d /\ 50 <= d <= 56)).

End PhoneChecks.

Module EmailChecks.
Import PatternMatcher.

(** [[A-Za-z0-9-]] *)
Definition labelClass (c : N) : bool := isAlpha c || isDigit c || (c =? cHyphen).

(** A part of a domain between two dots. *)
Definition validLabel (part : jsstring) : Prop :=
  Forall (fun c => labelClass c = true) part /\
  (1 <= length part <= 63)%nat /\
  startsWith [cHyphen] part = false /\ endsWith [cHyphen] part = false.

Definition validLocal (localPart : jsstring) : Prop :=
  Forall (fun c => localClass c = true) localPart /\
  (1 <= length localPart <= 64)%nat /\
  startsWith [cDot] localPart = false /\ endsWith [cDot] localPart = false /\
  includes [cDot; cDot] localPart = false.

(** [local@label.label...tld] *)
Definition validAddress (e : jsstring) : Prop :=
  exists localPart labels tld,
    e = localPart ++ cAt :: join cDot (labels ++ [tld]) /\
    validLocal localPart /\
    labels <> [] /\ Forall validLabel labels /\
    Forall (fun c => isAlpha c = true) tld /\ (2 <= length tld <= 63)%nat /\
    (length (join cDot (labels ++ [tld])) <= 253)%nat.

(** Substrings. *)
Definition substringOf (sub s : jsstring) : Prop :=
  exists pre post, s = pre ++ sub ++ post.

End EmailChecks.

Module ScanChecks.
Import DOMScanner.

(** The record [c] is made of the page address, the instant of the call
    and, in each field, nothing or an element of the array of that
    field. *)
Definition fromLists (names phones emails : list jsstring) (href : jsstring) (now : Z)
           (c : ContactData) : Prop :=
  source c = href /\ timestamp c = DateAt now /\
  (name c = [] \/ name c ∈ names) /\
  (phone c = [] \/ phone c ∈ phones) /\
  (email c = [] \/ email c ∈ emails).

(** [u] is [c] with some of its empty fields filled. *)
Definition completes (u c : ContactData) : Prop :=
  (truthy (name c) = true -> name u = name c) /\
  (truthy (phone c) = true -> phone u = phone c) /\
  (truthy (email c) = true -> email u = email c) /\
  source u = source c /\ timestamp u = timestamp c.

(** Every field of [u] is empty or is that field of a record of [l]. *)
Definition drawnFrom (l : list ContactData) (u : ContactData) : Prop :=
  (name u = [] \/ exists c, c ∈ l /\ name c = name u) /\
  (phone u = [] \/ exists c, c ∈ l /\ phone c = phone u) /\
  (email u = [] \/ exists c, c ∈ l /\ email c = email u).

(** No record has the e-mail or the phone of a record before it. *)
Fixpoint unmatched (l : list ContactData) : Prop :=
  match l with
  | [] => True
  | a :: l' => Forall (fun b => partialMatch b a = false) l' /\ unmatched l'
  end.

End ScanChecks.

(** A reader of comma-separated values in the sense of RFC 4180: fields
    are separated by commas and records end with a line feed; a field
    that starts with a double quote runs to the next double quote that is
    not doubled, and a doubled double quote in it stands for one. *)
Module CSVReader.
Import CSVExporter.

Inductive mode : Type := FieldStart | Unquoted | Quoted | QuoteSeen.

(** [field] holds the characters of the current field in reverse order,
    [record] the fields of the current record in reverse order, and
    [records] the records read so far in reverse order. *)
Fixpoint read (md : mode) (field : jsstring) (record : list jsstring)
         (records : list (list jsstring)) (s : jsstring) : option (list (list jsstring)) :=
  match s with
  | [] =>
      match md with
      | FieldStart =>
          match record with
          | [] => Some (rev records)
          | _ :: _ => Some (rev (rev ([] :: record) :: records))
          end
      | Unquoted | QuoteSeen => Some (rev (rev (rev field :: record) :: records))
      | Quoted => None
      end
  | c :: s' =>
      match md with
      | FieldStart =>
          if c =? cQuote then read Quoted [] record records s'
          else if c =? cComma then read FieldStart [] ([] :: record) records s'
          else if c =? cLF then read FieldStart [] [] (rev ([] :: record) :: records) s'
          else read Unquoted [c] record records s'
      | Unquoted =>
          if c =? cComma then read FieldStart [] (rev field :: record) records s'
          else if c =? cLF then read FieldStart [] [] (rev (rev field :: record) :: records) s'
          else if c =? cQuote then None
          else read Unquoted (c :: field) record records s'
      | Quoted =>
          if c =? cQuote then read QuoteSeen field record records s'
          else read Quoted (c :: field) record records s'
      | QuoteSeen =>
          if c =? cQuote then read Quoted (cQuote :: field) record records s'
          else if c =? cComma then read FieldStart [] (rev field :: record) records s'
          else if c =? cLF then read FieldStart [] [] (rev (rev field :: record) :: records) s'
          else None
      end
  end.

Definition readCSV (s : jsstring) : option (list (list jsstring)) := read FieldStart [] [] [] s.

(** The fields of a contact, as they are before [escapeCSVField]. *)
Definition fieldsOf (localTime : Z -> jsstring) (contact : ContactData) : list jsstring :=
  [name contact; phone contact; email contact; source contact;
   formatTimestamp localTime (timestamp contact)].

End CSVReader.

Module NameChecks.
Import PatternMatcher.

(** A capital letter followed by two or more small letters, with the
    accents that the patterns list. *)
Definition properWord (w : jsstring) : Prop :=
  exists u ls, w = u :: ls /\ upperClass u = true /\
               Forall (fun c => lowerClass c = true) ls /\ (2 <= length ls)%nat.

(** [isNameWord] accepts the word once it is cleaned. *)
Definition nameWord (x : jsstring) : Prop := isNameWord (cleanWord x) = true.

(** [run] is a run of name words of [words]: consecutive words, each a
    name word, with no name word next to the run on either side. *)
Definition runOf (words run : list jsstring) : Prop :=
  exists before after,
    words = before ++ run ++ after /\
    Forall nameWord run /\
    (forall x, last before = Some x -> isNameWord (cleanWord x) = false) /\
    (forall x, head after = Some x -> isNameWord (cleanWord x) = false).

(** [n] is the formatted text of a run of two or more name words of the
    text: the cleaned words of the run, joined by single spaces. *)
Definition fromWords (text n : jsstring) : Prop :=
  exists run, runOf (splitSpaces text) run /\ (2 <= length run)%nat /\
              formatName (join cSpace (List.map cleanWord run)) = Some n.

End NameChecks.

Module CleanupStages.
Import DataManager.

(** The offsets of the zone are at most one day; those of the zones in
    use lie between twelve hours behind and fourteen hours ahead of
    universal time. *)
Definition boundedZone (zone : TimeZone) : Prop :=
  forall t, (Z.abs (utcOffset zone t) <= msPerDay)%Z /\
            (Z.abs (localOffset zone t) <= msPerDay)%Z.

(** The zone of Brasilia: three hours behind universal time all year. *)
Definition brasilia : TimeZone := mkZone (fun _ => -10800000)%Z (fun _ => -10800000)%Z.

(** Ten million hours. *)
Definition tenMillionHours : Z := 10000000.

End CleanupStages.

Module StoreStages.
Import DataManager.

(** The record that [addContact] stores for [c]: [c] with the instant of
    the call where it has no [timestamp]. *)
Definition stamped (now : Z) (c : ContactData) : ContactData :=
  match timestamp c with
  | NoDate => mkContact (name c) (phone c) (email c) (source c) (DateAt now)
  | _ => c
  end.

Definition validDate (c : ContactData) : Prop := exists t, timestamp c = DateAt t.

(** The two records agree in all but their [timestamp]. *)
Definition sameFields (a b : ContactData) : Prop :=
  name a = name b /\ phone a = phone b /\ email a = email b /\ source a = source b.

(** No record duplicates a record after it. *)
Fixpoint duplicateFree (l : list ContactData) : Prop :=
  match l with
  | [] => True
  | a :: l' => Forall (fun b => duplicates a b = false) l' /\ duplicateFree l'
  end.

(** The operations that change the array of contacts one record at a
    time, and sequences of them. *)
Inductive storeOp : Type :=
| OpAdd (now : Z) (c : ContactData)
| OpRemove (index : Z)
| OpUpdate (index : Z) (c : ContactData)
| OpClear.

Definition applyOp (dm : State) (op : storeOp) : State :=
  match op with
  | OpAdd now c => (addContact now c dm).2
  | OpRemove index => (removeContact index dm).2
  | OpUpdate index c => (updateContact index c dm).2
  | OpClear => clearAll dm
  end.

Definition applyOps (ops : list storeOp) (dm : State) : State := fold_left applyOp ops dm.

(** The item of the contacts in [localStorage] is the image of the
    array. *)
Definition inSync (dm : State) : Prop :=
  storageItem dm = Some (List.map toStored (contacts dm)).

(** The strings on which [toLowerCase] is the method of the code: all
    code units are below 256.  The comparison of two records folds the
    case of their names and e-mails. *)
Definition latin1 (s : jsstring) : Prop := Forall (fun c => c < 256) s.

Definition latin1Record (c : ContactData) : Prop := latin1 (name c) /\ latin1 (email c).

(** No coming call of [localStorage.setItem] by the store throws. *)
Definition neverThrows (dm : State) : Prop :=
  Forall (fun throws => throws = false) (setItemThrows dm).

End StoreStages.

(** The input [r] after a run of [p] does not start with a [p]. *)
Definition stops (p : N -> bool) (r : jsstring) : Prop :=
  match r with [] => True | c :: _ => p c = false end.

(** * Properties *)

(** ** Lists and strings *)

Lemma filter_id_Forall {A} (p : A -> bool) (l : list A) :
  Forall (fun x => p x = true) l -> List.filter p l = l.
Proof.
  induction 1 as [|x l Hx _ IH]; simpl; [reflexivity|].
  rewrite Hx, IH. reflexivity.
Qed.

Lemma filter_Forall {A} (p : A -> bool) (l : list A) :
  Forall (fun x => p x = true) (List.filter p l).
Proof.
  induction l as [|x l IH]; simpl; [constructor|].
  destruct (p x) eqn:E; [constructor; assumption | assumption].
Qed.

Lemma filter_filter_andb {A} (f g : A -> bool) (l : list A) :
  List.filter f (List.filter g l) = List.filter (fun x => g x && f x) l.
Proof.
  induction l as [|x l IH]; simpl; [reflexivity|].
  destruct (g x); simpl; [destruct (f x)|]; rewrite IH; reflexivity.
Qed.

Lemma Forall_List_filter {A} (P : A -> Prop) (f : A -> bool) (l : list A) :
  Forall P l -> Forall P (List.filter f l).
Proof.
  induction 1 as [|x l Hx _ IH]; simpl; [constructor|].
  destruct (f x); [constructor|]; assumption.
Qed.

Lemma firstOccurrences_Forall (P : jsstring -> Prop) l :
  Forall P l -> Forall P (firstOccurrences l).
Proof.
  induction 1 as [|x l Hx _ IH]; simpl; constructor; [assumption|].
  apply Forall_List_filter. assumption.
Qed.

Lemma firstOccurrences_NoDup l : NoDup (firstOccurrences l).
Proof.
  induction l as [|x l IH]; simpl; constructor.
  - intros Hin. apply list_elem_of_In, filter_In in Hin. destruct Hin as [_ H].
    rewrite bool_decide_eq_true_2 in H by reflexivity. discriminate.
  - apply NoDup_ListNoDup, List.NoDup_filter, NoDup_ListNoDup. assumption.
Qed.

Lemma arrIncludes_true x arr : arrIncludes x arr = true <-> x ∈ arr.
Proof.
  unfold arrIncludes. rewrite existsb_exists. split.
  - intros (y & Hy & E). apply bool_decide_eq_true in E. subst y.
    apply list_elem_of_In. assumption.
  - intros H. exists x. split; [apply list_elem_of_In; assumption|].
    apply bool_decide_eq_true. reflexivity.
Qed.

Lemma arrIncludes_false x arr : arrIncludes x arr = false <-> x ∉ arr.
Proof.
  rewrite <- arrIncludes_true. destruct (arrIncludes x arr); split; congruence.
Qed.

(** ** PatternMatcher: phones *)

Module PhoneFacts.
Import Regex PatternMatcher PhoneStages.

Lemma formatPhone_stages phone :
  formatPhone phone = canonicalOf (withoutCountryCode (digitsOf phone)).
Proof. reflexivity. Qed.

Lemma digitsOf_digits s : Forall (fun c => isDigit c = true) (digitsOf s).
Proof. apply filter_Forall. Qed.

Lemma withoutCountryCode_digits ds :
  Forall (fun c => isDigit c = true) ds ->
  Forall (fun c => isDigit c = true) (withoutCountryCode ds).
Proof.
  intros H. unfold withoutCountryCode, substringFrom.
  repeat case_match; auto using Forall_drop.
Qed.

Lemma withoutCountryCode_short ds :
  (length ds <= 11)%nat -> withoutCountryCode ds = ds.
Proof.
  intros H. unfold withoutCountryCode.
  destruct (Nat.eqb_spec (length ds) 13); [lia|].
  destruct (Nat.eqb_spec (length ds) 12); [lia|].
  reflexivity.
Qed.

(** The canonical text has the digits it was made of, and no others. *)
Lemma canonicalOf_digits ds p :
  Forall (fun c => isDigit c = true) ds ->
  canonicalOf ds = Some p ->
  digitsOf p = ds /\ (10 <= length ds <= 11)%nat.
Proof.
  intros Hds. unfold canonicalOf.
  destruct ((length ds <? 10)%nat || (11 <? length ds)%nat) eqn:Hlen; [discriminate|].
  apply orb_false_elim in Hlen as [H10 H11].
  apply Nat.ltb_ge in H10. apply Nat.ltb_ge in H11.
  assert (Hparts : forall k, (2 <= k)%nat ->
             digitsOf ([cLParen] ++ substring 0 2 ds ++ [cRParen; cSpace] ++
                       substring 2 k ds ++ [cHyphen] ++ substringFrom k ds) = ds).
  { intros k Hk. unfold digitsOf, substring, substringFrom.
    rewrite !List.filter_app. simpl.
    rewrite !filter_id_Forall by auto using Forall_take, Forall_drop.
    rewrite drop_0.
    rewrite <- (take_drop 2 ds) at 4.
    f_equal.
    rewrite <- (take_drop (k - 2) (drop 2 ds)) at 2.
    f_equal. rewrite drop_drop. f_equal. lia. }
  intros H.
  destruct (match parseInt (substring 0 2 ds) with
            | Some a => (a <? 11)%Z || (99 <? a)%Z
            | None => false
            end); [discriminate|].
  destruct (length ds =? 11)%nat.
  - destruct (negb (bool_decide (charAt 2 ds = [57]))); [discriminate|].
    injection H as <-. split; [apply Hparts; lia | lia].
  - destruct (length ds =? 10)%nat; [|discriminate].
    destruct (bool_decide (charAt 2 ds = [57]) || bool_decide (charAt 2 ds = [48]) ||
              bool_decide (charAt 2 ds = [49])); [discriminate|].
    injection H as <-. split; [apply Hparts; lia | lia].
Qed.

(** C8. For every string [d] for which [formatPhone d] is a string [p]
    (not [null]), [formatPhone p] is [p] again: [formatPhone] is
    idempotent on its own canonical output. *)
Theorem formatPhone_idempotent (d p : jsstring) :
  formatPhone d = Some p -> formatPhone p = Some p.
Proof.
  rewrite !formatPhone_stages. intros H.
  pose proof (withoutCountryCode_digits _ (digitsOf_digits d)) as Hds.
  destruct (canonicalOf_digits _ _ Hds H) as [E Hlen].
  rewrite E. rewrite withoutCountryCode_short by lia. exact H.
Qed.

Lemma formatPhone_idempotent_witness :
  formatPhone (js "+55 (11) 98765-4321") = Some (js "(11) 98765-4321") /\
  formatPhone (js "(11) 98765-4321") = Some (js "(11) 98765-4321").
Proof.
  split; [vm_compute; reflexivity|].
  apply (formatPhone_idempotent (js "+55 (11) 98765-4321")).
  vm_compute. reflexivity.
Defined.

(** Two canonical phones with the same digits are the same string: on
    the output of [formatPhone], the comparison of the digits alone is the
    comparison of the strings. *)
Lemma formatPhone_digits_eq a b p q :
  formatPhone a = Some p -> formatPhone b = Some q ->
  digitsOf p = digitsOf q -> p = q.
Proof.
  rewrite !formatPhone_stages. intros Hp Hq E.
  destruct (canonicalOf_digits _ _ (withoutCountryCode_digits _ (digitsOf_digits a)) Hp)
    as [Ep _].
  destruct (canonicalOf_digits _ _ (withoutCountryCode_digits _ (digitsOf_digits b)) Hq)
    as [Eq _].
  rewrite <- Ep, E in Hp. rewrite <- Eq in Hq. congruence.
Qed.

Lemma extractPhones_flat text :
  truthy text = true ->
  extractPhones text = fold_left pushPhone (phoneMatches text) [].
Proof.
  intros Ht. unfold extractPhones, phoneMatches. rewrite Ht. simpl negb. cbv iota.
  generalize (@nil jsstring) as acc.
  induction PHONE_PATTERNS as [|pat pats IH]; intros acc; simpl; [reflexivity|].
  rewrite fold_left_app. apply IH.
Qed.

Lemma arrIncludes_snoc x p acc :
  arrIncludes x (acc ++ [p]) = arrIncludes x acc || bool_decide (x = p).
Proof.
  unfold arrIncludes. rewrite existsb_app. simpl. rewrite orb_false_r.
  f_equal. apply bool_decide_ext. split; congruence.
Qed.

(** The loop of [extractPhones] keeps the first occurrence of every
    accepted phone that is not yet in the array. *)
Lemma pushPhone_fold matches acc :
  fold_left pushPhone matches acc =
  acc ++ List.filter (fun x => negb (arrIncludes x acc))
                     (firstOccurrences (validFormatted matches)).
Proof.
  revert acc. induction matches as [|mt matches IH]; intros acc.
  - simpl. rewrite app_nil_r. reflexivity.
  - simpl fold_left. unfold pushPhone at 2, validFormatted. simpl omap.
    destruct (formatPhone mt) as [p|] eqn:Ef; [|apply IH].
    simpl List.filter.
    destruct (validatePhone p) eqn:Ev; [|apply IH].
    simpl firstOccurrences. simpl List.filter.
    destruct (arrIncludes p acc) eqn:Ei; simpl.
    + rewrite IH. f_equal. unfold validFormatted.
      rewrite filter_filter_andb. apply filter_ext. intros x.
      destruct (bool_decide_reflect (x = p)) as [->|]; [|reflexivity].
      rewrite Ei. reflexivity.
    + rewrite IH, <- app_assoc. simpl. do 2 f_equal. unfold validFormatted.
      rewrite filter_filter_andb. apply filter_ext. intros x.
      rewrite arrIncludes_snoc, negb_orb. apply andb_comm.
Qed.

Lemma extractPhones_firstOccurrences (s : jsstring) :
  extractPhones s = firstOccurrences (validFormatted (phoneMatches s)).
Proof.
  destruct s as [|c s]; [vm_compute; reflexivity|].
  rewrite extractPhones_flat by reflexivity.
  rewrite pushPhone_fold. simpl app.
  apply filter_id_Forall, Forall_forall. reflexivity.
Qed.

(** C7. For all strings [s], every element of [extractPhones s]
    satisfies [validatePhone], and [extractPhones s] has no duplicate:
    each canonical phone appears once, at the place of its first
    successful match. *)
Theorem extractPhones_valid_nodup (s : jsstring) :
  Forall (fun p => validatePhone p = true) (extractPhones s) /\
  NoDup (extractPhones s) /\
  extractPhones s = firstOccurrences (validFormatted (phoneMatches s)).
Proof.
  rewrite extractPhones_firstOccurrences. repeat split.
  - apply firstOccurrences_Forall. apply filter_Forall.
  - apply firstOccurrences_NoDup.
Qed.

End PhoneFacts.

(** The cases of the test suite of the repository (the groups
    [extractPhones], [validatePhone] and [formatPhone]). *)
Module PhoneTests.
Import PatternMatcher.

Example extractPhones_none :
  extractPhones (js "Invalid: 123456789 or (00) 99999-9999") = [].
Proof. vm_compute. reflexivity. Qed.

Example extractPhones_without_dash :
  extractPhones (js "Tel: (11) 999999999") = [js "(11) 99999-9999"].
Proof. vm_compute. reflexivity. Qed.

Example extractPhones_once :
  extractPhones (js "(11) 99999-9999 and 11 99999-9999") = [js "(11) 99999-9999"].
Proof. vm_compute. reflexivity. Qed.

Example extractPhones_two :
  extractPhones (js "Celular: (11) 99999-9999 Fixo: (11) 3333-4444") =
  [js "(11) 99999-9999"; js "(11) 3333-4444"].
Proof. vm_compute. reflexivity. Qed.

Example validatePhone_cases :
  List.map validatePhone
    [js "11999999999"; js "1133334444"; js "0999999999"; js "1099999999";
     js "11899999999"; js "1199999999"; js "119999999"; js "119999999999";
     js "1103334444"; js "1113334444"] =
  [true; true; false; false; false; false; false; false; false; false].
Proof. vm_compute. reflexivity. Qed.

Example formatPhone_cases :
  List.map formatPhone
    [js "11999999999"; js "5511999999999"; js "1133334444"; js "(11)99999-9999";
     js "123456789"; js "00999999999"] =
  [Some (js "(11) 99999-9999"); Some (js "(11) 99999-9999"); Some (js "(11) 3333-4444");
   Some (js "(11) 99999-9999"); None; None].
Proof. vm_compute. reflexivity. Qed.

End PhoneTests.

(** ** The matcher *)

Module RegexFacts.
Import Regex.

Section Rep.
Context {A : Type}.
Implicit Types (k : @cont A) (l r xs ys : jsstring).

(** What a successful quantifier has consumed. *)
Lemma rep_sound p lo hi l r k x :
  rep p lo hi l r k = Some x ->
  exists xs r', r = xs ++ r' /\ Forall (fun c => p c = true) xs /\
                (lo <= length xs)%nat /\ k (rev xs ++ l) r' = Some x.
Proof.
  revert lo hi l. induction r as [|c r IH]; intros lo hi l; simpl.
  - destruct (Nat.eqb_spec lo 0) as [->|]; [|discriminate].
    intros Hk. exists [], []. repeat split; [constructor | lia | exact Hk].
  - assert (Hstop : (if Nat.eqb lo 0 then k l (c :: r) else None) = Some x ->
                    exists xs r', c :: r = xs ++ r' /\ Forall (fun c => p c = true) xs /\
                                  (lo <= length xs)%nat /\ k (rev xs ++ l) r' = Some x).
    { destruct (Nat.eqb_spec lo 0) as [->|]; [|discriminate].
      intros Hk. exists [], (c :: r). repeat split; [constructor | lia | exact Hk]. }
    destruct (p c) eqn:Hp; simpl; [|exact Hstop].
    destruct (canTake hi); [|exact Hstop].
    destruct (rep p (Nat.pred lo) (decr hi) (c :: l) r k) as [y|] eqn:Hrec; [|exact Hstop].
    intros [= ->]. apply IH in Hrec as (xs & r' & -> & Hxs & Hlo & Hk).
    exists (c :: xs), r'. repeat split.
    + constructor; assumption.
    + simpl. lia.
    + simpl. rewrite <- app_assoc. exact Hk.
Qed.

(** When no shorter run lets the rest of the pattern match, the
    quantifier gives up all of [ys]. *)
Lemma rep_give_up p lo l ys r k :
  Forall (fun c => p c = true) ys -> stops p r ->
  (forall ys1 ys2, ys = ys1 ++ ys2 -> ys1 <> [] -> k (rev ys1 ++ l) (ys2 ++ r) = None) ->
  rep p lo None l (ys ++ r) k = if Nat.eqb lo 0 then k l (ys ++ r) else None.
Proof.
  intros Hys Hr. revert lo l.
  induction Hys as [|c ys Hc _ IH]; intros lo l Hk.
  - simpl. destruct r as [|c r]; [reflexivity|].
    simpl in Hr |- *. rewrite Hr. reflexivity.
  - simpl. rewrite Hc. simpl.
    rewrite IH.
    + pose proof (Hk [c] ys eq_refl ltac:(discriminate)) as H1.
      simpl in H1. rewrite H1.
      destruct (Nat.eqb (Nat.pred lo) 0); reflexivity.
    + intros ys1 ys2 -> Hne.
      specialize (Hk (c :: ys1) ys2 eq_refl). simpl in Hk.
      rewrite <- app_assoc in Hk. apply Hk. discriminate.
Qed.

(** The greedy choice: the longest run of [p], when the rest of the
    pattern matches after it, and otherwise the longest of the shorter
    runs after which it does. *)
Lemma rep_backtrack p lo l xs ys r k x :
  Forall (fun c => p c = true) xs -> Forall (fun c => p c = true) ys -> stops p r ->
  (lo <= length xs)%nat ->
  k (rev xs ++ l) (ys ++ r) = Some x ->
  (forall ys1 ys2, ys = ys1 ++ ys2 -> ys1 <> [] ->
                   k (rev ys1 ++ rev xs ++ l) (ys2 ++ r) = None) ->
  rep p lo None l (xs ++ ys ++ r) k = Some x.
Proof.
  intros Hxs Hys Hr. revert lo l.
  induction Hxs as [|c xs Hc _ IH]; intros lo l Hlo Hk Hnone.
  - simpl in *. rewrite rep_give_up by assumption.
    replace lo with 0%nat by lia. exact Hk.
  - simpl. rewrite Hc. simpl.
    rewrite (IH (Nat.pred lo) (c :: l)); [reflexivity | simpl in Hlo; lia | |].
    + simpl in Hk. rewrite <- app_assoc in Hk. exact Hk.
    + intros ys1 ys2 E Hne. specialize (Hnone ys1 ys2 E Hne).
      simpl in Hnone. rewrite <- app_assoc in Hnone. exact Hnone.
Qed.

Lemma rep_longest p lo l xs r k x :
  Forall (fun c => p c = true) xs -> stops p r -> (lo <= length xs)%nat ->
  k (rev xs ++ l) r = Some x ->
  rep p lo None l (xs ++ r) k = Some x.
Proof.
  intros Hxs Hr Hlo Hk.
  apply (rep_backtrack p lo l xs [] r k x); try assumption; [constructor|].
  intros [|? ?] ys2 E Hne; [congruence | discriminate].
Qed.
End Rep.

(** A pattern that starts with [^] matches at the start or nowhere. *)
Lemma testFrom_Bos_later re l r :
  l <> [] -> testFrom (Seq Bos re) l r = false.
Proof.
  revert l. induction r as [|c r IH]; intros l Hl; simpl.
  - unfold matchAt. simpl. destruct l; [congruence | reflexivity].
  - unfold matchAt. simpl. destruct l as [|a l]; [congruence|].
    apply IH. discriminate.
Qed.

Lemma test_Bos re s :
  test (Seq Bos re) s =
  match m re [] s (fun _ r' => Some (length r')) with Some _ => true | None => false end.
Proof.
  unfold test. destruct s as [|c s]; simpl; unfold matchAt; simpl.
  - destruct (m re [] []); reflexivity.
  - destruct (m re [] (c :: s)); [reflexivity|].
    apply testFrom_Bos_later. discriminate.
Qed.

Lemma matchAllFrom_miss re l c r :
  matchAt re l (c :: r) = None ->
  matchAllFrom re 0 l (c :: r) = matchAllFrom re 0 (c :: l) r.
Proof. intros H. simpl. rewrite H. reflexivity. Qed.

Lemma matchAllFrom_skip re l r :
  matchAt re (rev r ++ l) [] = None ->
  matchAllFrom re (length r) l r = [].
Proof.
  revert l. induction r as [|c r IH]; intros l H; simpl in *.
  - rewrite H. reflexivity.
  - apply IH. rewrite <- app_assoc in H. exact H.
Qed.

(** A match that reaches the end of the input is the last one. *)
Lemma matchAllFrom_whole re l r :
  r <> [] ->
  matchAt re l r = Some 0%nat ->
  matchAt re (rev r ++ l) [] = None ->
  matchAllFrom re 0 l r = [r].
Proof.
  intros Hr Hm Hend. destruct r as [|c r]; [congruence|].
  simpl matchAllFrom. rewrite Hm.
  rewrite Nat.sub_0_r. simpl Nat.pred.
  change (S (length r)) with (length (c :: r)). rewrite firstn_all. f_equal.
  apply matchAllFrom_skip. simpl in Hend. rewrite <- app_assoc in Hend. exact Hend.
Qed.

End RegexFacts.

(** ** PatternMatcher: e-mails *)

Module EmailFacts.
Import Regex RegexFacts PatternMatcher EmailStages.

Lemma validateEmail_stages e :
  validateEmail e = test emailRegex e && emailRules e.
Proof. unfold validateEmail. destruct (test emailRegex e); reflexivity. Qed.

(** *** From a match to the shape, and back *)

Lemma core_sound {A} tldClass l e (k : @cont A) x :
  m (cat [plus localClass; Chr (isChar cAt); plus domainClass;
          Chr (isChar cDot); atLeast 2 tldClass]) l e k = Some x ->
  exists loc dom tld r,
    emailShape tldClass (loc ++ cAt :: dom ++ cDot :: tld) loc dom tld /\
    e = (loc ++ cAt :: dom ++ cDot :: tld) ++ r /\
    k (rev tld ++ cDot :: rev dom ++ cAt :: rev loc ++ l) r = Some x.
Proof.
  cbn [m cat fold_right plus atLeast]. intros H.
  apply rep_sound in H as (loc & r1 & -> & Hloc & Hl1 & H).
  destruct r1 as [|c1 r1]; [discriminate|].
  destruct (isChar cAt c1) eqn:E1; [|discriminate].
  apply N.eqb_eq in E1. subst c1.
  apply rep_sound in H as (dom & r2 & -> & Hdom & Hl2 & H).
  destruct r2 as [|c2 r2]; [discriminate|].
  destruct (isChar cDot c2) eqn:E2; [|discriminate].
  apply N.eqb_eq in E2. subst c2.
  apply rep_sound in H as (tld & r3 & -> & Htld & Hl3 & H).
  exists loc, dom, tld, r3. split; [|split].
  - repeat split; assumption.
  - rewrite <- !app_assoc. simpl. rewrite <- !app_assoc. reflexivity.
  - exact H.
Qed.

(** On a string of the shape, read to its end, the greedy matcher takes
    the whole string: the local part up to the [@], then the domain up to
    the dot before the last part. *)
Lemma core_complete {A} tldClass l loc dom tld (k : @cont A) x :
  emailShape tldClass (loc ++ cAt :: dom ++ cDot :: tld) loc dom tld ->
  Forall (fun c => domainClass c = true) tld ->
  Forall (fun c => isChar cDot c = false) tld ->
  k (rev tld ++ cDot :: rev dom ++ cAt :: rev loc ++ l) [] = Some x ->
  m (cat [plus localClass; Chr (isChar cAt); plus domainClass;
          Chr (isChar cDot); atLeast 2 tldClass]) l
    (loc ++ cAt :: dom ++ cDot :: tld) k = Some x.
Proof.
  intros (_ & Hloc & Hl1 & Hdom & Hl2 & Htld & Hl3) Htld_dom Hnodot Hk.
  cbn [m cat fold_right plus atLeast].
  apply rep_longest; [assumption | reflexivity | assumption |].
  change (isChar cAt cAt) with true. cbv iota.
  replace (dom ++ cDot :: tld) with (dom ++ (cDot :: tld) ++ []) by (rewrite app_nil_r; reflexivity).
  apply rep_backtrack; [assumption | | exact I | assumption | |].
  - constructor; [reflexivity | assumption].
  - rewrite app_nil_r. change (isChar cDot cDot) with true. cbv iota.
    rewrite <- (app_nil_r tld) at 1.
    apply rep_longest; [assumption | exact I | assumption |].
    exact Hk.
  - intros ys1 ys2 E Hne. rewrite app_nil_r.
    destruct ys1 as [|y ys1]; [congruence|]. injection E as Ey E. subst y.
    destruct ys2 as [|c ys2]; [reflexivity|].
    assert (Hc : isChar cDot c = false).
    { rewrite Forall_forall in Hnodot. apply Hnodot.
      rewrite E. apply list_elem_of_In, in_or_app. right. left. reflexivity. }
    rewrite Hc. reflexivity.
Qed.

(** The cases of the test suite of the repository (the groups
    [extractEmails] and [validateEmail]). *)
Example extractEmails_formats :
  extractEmails
    (js "Emails: user.name@domain.com, test+tag@example.co.uk, user_123@test-domain.net") =
  [js "user.name@domain.com"; js "test+tag@example.co.uk"; js "user_123@test-domain.net"].
Proof. vm_compute. reflexivity. Qed.

Example extractEmails_invalid :
  extractEmails (js "Invalid: @domain.com, user@, user@domain, user.domain.com") = [].
Proof. vm_compute. reflexivity. Qed.

Example extractEmails_lower_once :
  extractEmails (js "Email: USER@DOMAIN.COM and user@domain.com") = [js "user@domain.com"].
Proof. vm_compute. reflexivity. Qed.

Example validateEmail_cases :
  List.map validateEmail
    [js "user+tag@domain.co.uk"; js "user_123@test-domain.net"; js "userdomain.com";
     js "user@"; js "@domain.com"; js "user@domain"; js ".user@domain.com";
     js "user.@domain.com"; js "us..er@domain.com"; js "user@.domain.com";
     js "user@domain.com."; js "user@-domain.com"; js "user@domain.com-";
     js "user@domain.c"; js "user@@domain.com"; js "user@domain@com"] =
  [true; true; false; false; false; false; false; false; false; false; false; false;
   false; false; false; false].
Proof. vm_compute. reflexivity. Qed.

(** *** Lower case *)

Ltac ncases :=
  repeat match goal with
         | |- context [N.leb ?a ?b] => destruct (N.leb_spec a b); simpl
         end;
  repeat match goal with
         | |- context [N.eqb ?a ?b] => destruct (N.eqb_spec a b); simpl
         | H : context [N.eqb ?a ?b] |- _ => destruct (N.eqb_spec a b); simpl in H
         end;
  try reflexivity; try lia; try (exfalso; lia).

Lemma lowerUnit_spec c :
  (65 <= c <= 90 /\ lowerUnit c = c + 32) \/
  (192 <= c <= 222 /\ c <> 215 /\ lowerUnit c = c + 32) \/
  ((c < 65 \/ 90 < c < 192 \/ 222 < c \/ c = 215) /\ lowerUnit c = c).
Proof. unfold lowerUnit, isUpper, inRange. ncases. Qed.

Ltac lower_cases c :=
  destruct (lowerUnit_spec c) as [(? & ->)|[(? & ? & ->)|(? & ->)]].

Lemma eqb_lowerUnit a c :
  a < 65 \/ (90 < a /\ a < 97) -> (lowerUnit c =? a) = (c =? a).
Proof. intros H. lower_cases c; ncases. Qed.

Lemma isAlpha_lowerUnit c : isAlpha (lowerUnit c) = isAlpha c.
Proof. unfold isAlpha, isUpper, isLower, inRange. lower_cases c; ncases. Qed.

Lemma isDigit_lowerUnit c : isDigit (lowerUnit c) = isDigit c.
Proof. unfold isDigit, inRange. lower_cases c; ncases. Qed.

Lemma localClass_lowerUnit c : localClass (lowerUnit c) = localClass c.
Proof.
  unfold localClass, cDot, cPlus, cHyphen.
  rewrite isAlpha_lowerUnit, isDigit_lowerUnit, !eqb_lowerUnit by lia. reflexivity.
Qed.

Lemma domainClass_lowerUnit c : domainClass (lowerUnit c) = domainClass c.
Proof.
  unfold domainClass, cDot, cHyphen.
  rewrite isAlpha_lowerUnit, isDigit_lowerUnit, !eqb_lowerUnit by lia. reflexivity.
Qed.

Lemma Forall_toLowerCase (p : N -> bool) s :
  (forall c, p (lowerUnit c) = p c) ->
  Forall (fun c => p c = true) s -> Forall (fun c => p c = true) (toLowerCase s).
Proof.
  intros Hp H. unfold toLowerCase. apply Forall_map.
  eapply Forall_impl; [exact H|]. intros c Hc. simpl. rewrite Hp. exact Hc.
Qed.

Lemma emailShape_lower e loc dom tld :
  emailShape isAlpha e loc dom tld ->
  emailShape isAlpha (toLowerCase e) (toLowerCase loc) (toLowerCase dom) (toLowerCase tld).
Proof.
  intros (-> & Hloc & Hl1 & Hdom & Hl2 & Htld & Hl3).
  unfold toLowerCase. repeat split; try (rewrite length_map; assumption).
  - rewrite map_app. simpl. rewrite map_app. reflexivity.
  - apply Forall_toLowerCase; [apply localClass_lowerUnit | assumption].
  - apply Forall_toLowerCase; [apply domainClass_lowerUnit | assumption].
  - apply Forall_toLowerCase; [apply isAlpha_lowerUnit | assumption].
Qed.

Lemma startsWith_lower p s :
  Forall (fun a => a < 65) p ->
  startsWith p (toLowerCase s) = startsWith p s.
Proof.
  intros Hp. revert s. induction Hp as [|a p Ha _ IH]; intros s; [reflexivity|].
  destruct s as [|b s]; [reflexivity|]. simpl.
  rewrite IH. f_equal. rewrite (N.eqb_sym a), eqb_lowerUnit by lia. apply N.eqb_sym.
Qed.

Lemma endsWith_lower p s :
  Forall (fun a => a < 65) p ->
  endsWith p (toLowerCase s) = endsWith p s.
Proof.
  intros Hp. unfold endsWith, toLowerCase. rewrite <- map_rev.
  apply startsWith_lower. apply Forall_rev. assumption.
Qed.

Lemma includes_lower p s :
  Forall (fun a => a < 65) p ->
  includes p (toLowerCase s) = includes p s.
Proof.
  intros Hp. induction s as [|c s IH].
  - reflexivity.
  - change (toLowerCase (c :: s)) with (lowerUnit c :: toLowerCase s).
    cbn [includes]. rewrite IH. f_equal.
    apply (startsWith_lower p (c :: s)). assumption.
Qed.

Lemma split_lower sep s :
  sep < 65 ->
  split sep (toLowerCase s) = List.map toLowerCase (split sep s).
Proof.
  intros Hsep. induction s as [|c s IH]; [reflexivity|].
  change (toLowerCase (c :: s)) with (lowerUnit c :: toLowerCase s).
  cbn [split]. rewrite IH, eqb_lowerUnit by lia.
  destruct (c =? sep); [reflexivity|].
  destruct (split sep s); reflexivity.
Qed.

Lemma last_map_lower (parts : list jsstring) :
  List.last (List.map toLowerCase parts) [] = toLowerCase (List.last parts []).
Proof.
  induction parts as [|x parts IH]; [reflexivity|].
  destruct parts as [|y parts]; [reflexivity|]. exact IH.
Qed.

Lemma existsb_map_ext {A B} (f : B -> bool) (g : A -> bool) (h : A -> B) l :
  (forall x, f (h x) = g x) -> existsb f (List.map h l) = existsb g l.
Proof.
  intros H. induction l as [|x l IH]; simpl; [reflexivity|].
  rewrite H, IH. reflexivity.
Qed.

Lemma length_toLowerCase s : length (toLowerCase s) = length s.
Proof. apply length_map. Qed.

Lemma emailRules_lower e : emailRules (toLowerCase e) = emailRules e.
Proof.
  assert (Hdot : Forall (fun a => a < 65) [cDot]) by (repeat constructor).
  assert (Hhyp : Forall (fun a => a < 65) [cHyphen]) by (repeat constructor).
  assert (Hdots : Forall (fun a => a < 65) [cDot; cDot]) by (repeat constructor).
  unfold emailRules. rewrite split_lower by reflexivity.
  destruct (split cAt e) as [|localPart [|domain [|]]]; try reflexivity.
  cbn [List.map].
  rewrite !length_toLowerCase, !startsWith_lower, !endsWith_lower, !includes_lower
    by assumption.
  rewrite split_lower by reflexivity. rewrite last_map_lower, length_toLowerCase.
  rewrite (existsb_map_ext _
             (fun part => (length part =? 0)%nat || (63 <? length part)%nat ||
                          startsWith [cHyphen] part || endsWith [cHyphen] part)).
  - reflexivity.
  - intros part.
    rewrite length_toLowerCase, startsWith_lower, endsWith_lower by assumption.
    reflexivity.
Qed.

(** *** The two e-mail patterns on a string of the shape *)

Lemma emailRegex_shape e :
  test emailRegex e = true <-> exists loc dom tld, emailShape isAlpha e loc dom tld.
Proof.
  unfold emailRegex. rewrite test_Bos. cbn [m]. unfold emailCore. split.
  - match goal with |- context [m ?re [] e ?k] => destruct (m re [] e k) as [n|] eqn:H end;
      [intros _|discriminate].
    apply core_sound in H as (loc & dom & tld & r & Hs & -> & Hk).
    destruct r; [|discriminate].
    exists loc, dom, tld. rewrite app_nil_r. exact Hs.
  - intros (loc & dom & tld & Hs).
    pose proof Hs as (-> & _ & _ & _ & _ & Htld & _).
    erewrite core_complete; [reflexivity | exact Hs | | | reflexivity].
    + eapply Forall_impl; [exact Htld|]. intros c Hc. simpl in *.
      unfold domainClass. rewrite Hc. reflexivity.
    + eapply Forall_impl; [exact Htld|]. intros c. simpl.
      unfold isAlpha, isUpper, isLower, inRange, isChar, cDot. ncases. 
Qed.

Lemma validateEmail_lower e :
  validateEmail e = true -> validateEmail (toLowerCase e) = true.
Proof.
  rewrite !validateEmail_stages, emailRules_lower.
  intros [Ht Hr]%andb_true_iff. rewrite Hr, andb_true_r.
  apply emailRegex_shape. apply emailRegex_shape in Ht as (loc & dom & tld & Hs).
  eauto using emailShape_lower.
Qed.

Lemma isWordAt_rev_alpha tld l :
  Forall (fun c => isAlpha c = true) tld -> (1 <= length tld)%nat ->
  isWordAt (rev tld ++ l) = true.
Proof.
  intros H Hlen. destruct (rev tld) as [|c t] eqn:E.
  - apply (f_equal (@length N)) in E. rewrite length_rev in E. simpl in E. lia.
  - simpl. assert (Hc : isAlpha c = true).
    { rewrite Forall_forall in H. apply H. apply list_elem_of_In, in_rev.
      rewrite E. left. reflexivity. }
    unfold isWord. rewrite Hc. reflexivity.
Qed.

Lemma EMAIL_PATTERN_at_shape l e loc dom tld :
  emailShape isAlpha e loc dom tld ->
  isWordAt l = false -> isWordAt e = true ->
  matchAt EMAIL_PATTERN l e = Some 0%nat.
Proof.
  intros Hs Hl He. unfold matchAt, EMAIL_PATTERN. cbn [m]. unfold emailCore.
  rewrite Hl, He. simpl xorb. cbv iota.
  pose proof Hs as (-> & _ & _ & _ & _ & Htld & Hl3).
  apply core_complete; [exact Hs | | |].
  - eapply Forall_impl; [exact Htld|]. intros c Hc. simpl in *.
    unfold domainClass. rewrite Hc. reflexivity.
  - eapply Forall_impl; [exact Htld|]. intros c. simpl.
    unfold isAlpha, isUpper, isLower, inRange, isChar, cDot. ncases.
  - cbn [m]. rewrite isWordAt_rev_alpha by (assumption || lia). reflexivity.
Qed.

Lemma EMAIL_PATTERN_at_end l : matchAt EMAIL_PATTERN l [] = None.
Proof. unfold matchAt, EMAIL_PATTERN. cbn. destruct (xorb _ _); reflexivity. Qed.

(** The only match in the text is the address. *)
Lemma matchAll_contact e :
  validateEmail e = true -> isWordAt e = true ->
  matchAll EMAIL_PATTERN (js "contact: " ++ e) = [e].
Proof.
  intros Hv Hw. rewrite validateEmail_stages in Hv.
  apply andb_true_iff in Hv as [Ht _].
  apply emailRegex_shape in Ht as (loc & dom & tld & Hs).
  unfold matchAll.
  change (js "contact: " ++ e)
    with (99 :: 111 :: 110 :: 116 :: 97 :: 99 :: 116 :: 58 :: 32 :: e).
  do 9 (rewrite matchAllFrom_miss by (vm_compute; reflexivity)).
  apply matchAllFrom_whole.
  - destruct e; [discriminate | discriminate].
  - eapply EMAIL_PATTERN_at_shape; [exact Hs | reflexivity | exact Hw].
  - apply EMAIL_PATTERN_at_end.
Qed.

Lemma extractEmails_contact_eq e :
  validateEmail e = true -> isWordAt e = true ->
  extractEmails (js "contact: " ++ e) = [toLowerCase e].
Proof.
  intros Hv Hw. unfold extractEmails.
  change (negb (truthy (js "contact: " ++ e))) with false. cbv iota.
  rewrite matchAll_contact by assumption.
  simpl. unfold pushEmail. rewrite validateEmail_lower by assumption. reflexivity.
Qed.

(** C9, as the code has it.  For every string [e] that [validateEmail]
    accepts and that starts with a letter, a digit or an underscore,
    [extractEmails ("contact: " + e)] contains [e.toLowerCase()]. *)
Theorem extractEmails_contact (e : jsstring) :
  validateEmail e = true -> isWordAt e = true ->
  toLowerCase e ∈ extractEmails (js "contact: " ++ e).
Proof.
  intros Hv Hw. rewrite extractEmails_contact_eq by assumption.
  apply list_elem_of_singleton. reflexivity.
Qed.

Lemma extractEmails_contact_witness :
  validateEmail (js "Ana.Lima@Example.com") = true /\
  toLowerCase (js "Ana.Lima@Example.com") ∈
    extractEmails (js "contact: " ++ js "Ana.Lima@Example.com").
Proof.
  split; [vm_compute; reflexivity|].
  apply (extractEmails_contact (js "Ana.Lima@Example.com")); vm_compute; reflexivity.
Defined.

(** C9 as the specification states it fails: [validateEmail] accepts an
    address that starts with [+], the pattern of [extractEmails] starts
    at a word boundary, and the address is found without its first
    character. *)
Lemma extractEmails_contact_counterexample :
  validateEmail (js "+a@b.co") = true /\
  extractEmails (js "contact: " ++ js "+a@b.co") = [js "a@b.co"] /\
  toLowerCase (js "+a@b.co") ∉ extractEmails (js "contact: " ++ js "+a@b.co").
Proof.
  assert (E : extractEmails (js "contact: " ++ js "+a@b.co") = [js "a@b.co"])
    by (vm_compute; reflexivity).
  split; [vm_compute; reflexivity|]. split; [exact E|].
  rewrite E. intros H. apply list_elem_of_singleton in H. discriminate H.
Qed.

End EmailFacts.

(** ** DOMScanner: page-level de-duplication *)

Module DOMScannerFacts.
Import DOMScanner DedupStages Examples.

(** The candidates of the three blocks, as [matchContactData] makes
    them from what the extractors find. *)
Example matchContactData_blocks :
  matchContactData [] [] [joaoEmail] page 0 = [orphanRecord] /\
  matchContactData [joaoName] [] [joaoEmail] page 0 = [namedRecord] /\
  matchContactData [joaoName] [joaoPhone] [joaoEmail] page 0 = [fullRecord].
Proof. repeat split; vm_compute; reflexivity. Qed.

(** Two records, the second of which matches the first in e-mail or
    phone: when their keys differ the first record survives and takes
    over the fields it lacks; when their keys are equal the second record
    is skipped before the merge. *)
Lemma removeDuplicateContacts_pair a b :
  partialMatch b a = true ->
  removeDuplicateContacts [a; b] =
  if bool_decide (dedupKey b = dedupKey a) then [a] else [mergeInto a b].
Proof.
  intros Hm. unfold removeDuplicateContacts. simpl fold_left.
  unfold dedupStep at 2. simpl.
  rewrite bool_decide_eq_false_2 by apply not_elem_of_empty. simpl.
  unfold dedupStep. simpl.
  destruct (bool_decide_reflect (dedupKey b = dedupKey a)) as [E|E].
  - rewrite bool_decide_eq_true_2; [reflexivity|].
    apply elem_of_union. left. apply elem_of_singleton. exact E.
  - rewrite bool_decide_eq_false_2; [simpl; rewrite Hm; reflexivity|].
    intros [H|H]%elem_of_union; [apply elem_of_singleton in H; contradiction|].
    exact (not_elem_of_empty _ H).
Qed.

(** Scenario 3 of the specification, on the candidates of its two
    blocks: one record, with its three fields. *)
Example removeDuplicateContacts_scenario3 :
  removeDuplicateContacts [fullRecord; namedRecord] = [fullRecord].
Proof. vm_compute. reflexivity. Qed.

(** The merge, where the loop reaches it: the orphan record takes the
    name and the phone of the later record. *)
Example removeDuplicateContacts_merges :
  removeDuplicateContacts [orphanRecord; fullRecord] =
  [mkContact joaoName joaoPhone joaoEmail page (DateAt 0)].
Proof. vm_compute. reflexivity. Qed.

(** *** Two records that share an e-mail or a phone are not both kept *)

Lemma truthy_toLowerCase s : truthy (toLowerCase s) = truthy s.
Proof. destruct s; reflexivity. Qed.

Lemma partialMatch_carries b a u :
  carries u a -> partialMatch b a = true -> partialMatch b u = true.
Proof.
  intros [He Hp]. unfold partialMatch.
  intros [[Hb E]%andb_true_iff | [Hb E]%andb_true_iff]%orb_true_iff;
    apply bool_decide_eq_true in E; apply orb_true_iff; [left | right];
    rewrite Hb; simpl; apply bool_decide_eq_true.
  - rewrite He; [exact E|].
    rewrite <- truthy_toLowerCase, <- E, truthy_toLowerCase. exact Hb.
  - rewrite Hp; [exact E|]. rewrite <- E. exact Hb.
Qed.

Lemma mergeInto_carries u x c : carries u c -> carries (mergeInto u x) c.
Proof.
  intros [He Hp]. split; intros H; simpl.
  - rewrite (He H), H. reflexivity.
  - rewrite (Hp H), H. reflexivity.
Qed.

Lemma mergeFirst_carries x unique unique' c :
  mergeFirst x unique = Some unique' ->
  (exists u, u ∈ unique /\ carries u c) ->
  exists u', u' ∈ unique' /\ carries u' c.
Proof.
  revert unique'. induction unique as [|e unique IH]; intros unique'; simpl; [discriminate|].
  destruct (partialMatch x e).
  - intros [= <-] (u & [->|Hu]%elem_of_cons & Hc).
    + exists (mergeInto e x). split; [left | apply mergeInto_carries, Hc].
    + exists u. split; [right; exact Hu | exact Hc].
  - destruct (mergeFirst x unique) as [rest|]; [|discriminate].
    intros [= <-] (u & [->|Hu]%elem_of_cons & Hc).
    + exists e. split; [left | exact Hc].
    + destruct (IH rest eq_refl) as (u' & Hu' & Hc'); [eauto|].
      exists u'. split; [right; exact Hu' | exact Hc'].
Qed.

Lemma mergeFirst_length x unique unique' :
  mergeFirst x unique = Some unique' -> length unique' = length unique.
Proof.
  revert unique'. induction unique as [|e unique IH]; intros unique'; simpl; [discriminate|].
  destruct (partialMatch x e); [intros [= <-]; reflexivity|].
  destruct (mergeFirst x unique) as [rest|]; [|discriminate].
  intros [= <-]. simpl. rewrite (IH rest eq_refl). reflexivity.
Qed.

Lemma mergeFirst_finds x unique u :
  u ∈ unique -> partialMatch x u = true -> mergeFirst x unique <> None.
Proof.
  induction unique as [|e unique IH]; simpl; [intros H; inversion H|].
  intros [->|Hu]%elem_of_cons Hm.
  - rewrite Hm. discriminate.
  - destruct (partialMatch x e); [discriminate|].
    destruct (mergeFirst x unique); [discriminate | exact (IH Hu Hm)].
Qed.

Lemma dedupStep_carries st x c :
  (exists u, u ∈ st.2 /\ carries u c) ->
  exists u, u ∈ (dedupStep st x).2 /\ carries u c.
Proof.
  intros H. unfold dedupStep. destruct (bool_decide _); [exact H|].
  destruct (mergeFirst x st.2) as [unique'|] eqn:E; simpl.
  - eapply mergeFirst_carries; eassumption.
  - destruct H as (u & Hu & Hc). exists u. split; [|exact Hc].
    apply elem_of_app. left. exact Hu.
Qed.

Lemma dedupSteps_carries l st c :
  (exists u, u ∈ st.2 /\ carries u c) ->
  exists u, u ∈ (fold_left dedupStep l st).2 /\ carries u c.
Proof.
  revert st. induction l as [|x l IH]; intros st H; [exact H|].
  simpl. apply IH, dedupStep_carries, H.
Qed.

Lemma dedupStep_matched st b u :
  u ∈ st.2 -> partialMatch b u = true -> length (dedupStep st b).2 = length st.2.
Proof.
  intros Hu Hm. unfold dedupStep.
  destruct (bool_decide (dedupKey b ∈ st.1)); [reflexivity|].
  destruct (mergeFirst b st.2) as [unique'|] eqn:E.
  - apply mergeFirst_length in E. exact E.
  - exfalso. exact (mergeFirst_finds b st.2 u Hu Hm E).
Qed.

Lemma dedupState_app l1 l2 :
  dedupState (l1 ++ l2) = fold_left dedupStep l2 (dedupState l1).
Proof. apply fold_left_app. Qed.

(** When the record [a] is kept as it is visited, a later record [b] that
    has the e-mail of [a] (up to case) or its phone is not kept: the list
    of survivors does not grow when [b] is visited. *)
Lemma removeDuplicateContacts_not_both_kept l1 a l2 b :
  removeDuplicateContacts (l1 ++ [a]) = removeDuplicateContacts l1 ++ [a] ->
  partialMatch b a = true ->
  length (removeDuplicateContacts (l1 ++ a :: l2 ++ [b])) =
  length (removeDuplicateContacts (l1 ++ a :: l2)).
Proof.
  change removeDuplicateContacts with (fun l => (dedupState l).2). cbv beta.
  intros Ha Hm.
  replace (l1 ++ a :: l2 ++ [b]) with ((l1 ++ a :: l2) ++ [b])
    by (rewrite <- app_assoc; reflexivity).
  rewrite (dedupState_app (l1 ++ a :: l2) [b]).
  change (fold_left dedupStep [b] ?st) with (dedupStep st b).
  assert (H : exists u, u ∈ (dedupState (l1 ++ a :: l2)).2 /\ carries u a).
  { replace (l1 ++ a :: l2) with ((l1 ++ [a]) ++ l2) by (rewrite <- app_assoc; reflexivity).
    rewrite dedupState_app. apply dedupSteps_carries.
    exists a. split; [|split; reflexivity].
    rewrite Ha. apply elem_of_app. right. left. }
  destruct H as (u & Hu & Hc).
  apply (dedupStep_matched _ b u Hu). eapply partialMatch_carries; eassumption.
Qed.

(** C6, where the code departs from it.  The two candidates share their
    e-mail, the first has no name and the second has one; since they have
    the same key (same e-mail, same empty phone), the loop skips the
    second record before the merge, and the survivor keeps its empty
    name. *)
Theorem removeDuplicateContacts_same_key_drops_name :
  partialMatch namedRecord orphanRecord = true /\
  name orphanRecord = [] /\ name namedRecord = joaoName /\
  removeDuplicateContacts [orphanRecord; namedRecord] = [orphanRecord] /\
  mergeInto orphanRecord namedRecord = namedRecord.
Proof. repeat split; vm_compute; reflexivity. Qed.

End DOMScannerFacts.

(** ** DataManager: validation and the invariant of the store *)

Module StoreFacts.
Import Regex RegexFacts DataManager StoreInvariants Examples.

(** The cases of the test suite of the repository (the groups
    [Data Validation] and [Duplicate Detection]). *)
Example isValidPhone_formats :
  List.map isValidPhone
    [js "(11) 99999-9999"; js "11 99999-9999"; js "+55 11 99999-9999"; js "11999999999";
     js "123"; js "invalid"] =
  [true; true; true; true; false; false].
Proof. vm_compute. reflexivity. Qed.

Example isValidEmail_formats :
  List.map isValidEmail
    [js "test@example.com"; js "user.name@domain.co.uk"; js "user+tag@example.org";
     js "invalid-email"] =
  [true; true; true; false].
Proof. vm_compute. reflexivity. Qed.

Example addContact_duplicate_by_email :
  (addContact 2 (mkContact joaoName (js "(21) 88888-8888") joaoEmail page (DateAt 0))
              (addContact 1 namedRecord emptyStore).2).1 = false.
Proof. vm_compute. reflexivity. Qed.

Lemma validateContact_blank_name c :
  trim (name c) = [] -> validateContact c = false.
Proof.
  intros H. unfold validateContact. rewrite H. simpl.
  rewrite orb_true_r. reflexivity.
Qed.

(** C1, as the code has it.  A record whose name is empty, or has only
    white space, is rejected whatever its phone and e-mail are:
    [addContact] returns false and the store is unchanged. *)
Theorem addContact_rejects_blank_name (now : Z) (c : ContactData) (dm : State) :
  trim (name c) = [] -> addContact now c dm = (false, dm).
Proof.
  intros H. unfold addContact. rewrite validateContact_blank_name by assumption.
  reflexivity.
Qed.

Lemma addContact_rejects_blank_name_witness :
  trim (name orphanPhone) = [] /\ addContact 5 orphanPhone emptyStore = (false, emptyStore).
Proof.
  split; [reflexivity|].
  apply (addContact_rejects_blank_name 5 orphanPhone emptyStore). reflexivity.
Defined.

(** C1 as the specification states it fails: an orphan contact with a
    valid phone is not accepted. *)
Lemma addContact_orphan_counterexample :
  name orphanPhone = [] /\
  truthy (phone orphanPhone) = true /\
  PatternMatcher.validatePhone (phone orphanPhone) = true /\
  isValidPhone (phone orphanPhone) = true /\
  forall now, addContact now orphanPhone emptyStore = (false, emptyStore).
Proof. repeat split; vm_compute; reflexivity. Qed.

Lemma validateContact_storeRule c : validateContact c = true -> storeRule c.
Proof.
  unfold validateContact, storeRule. intros H. split; intros Hp; rewrite Hp in H.
  - destruct (isValidPhone (phone c)); [reflexivity|]. exfalso. revert H.
    destruct (negb (truthy (name c)) || negb (truthy (trim (name c)))); [discriminate|].
    destruct (hasEmail c); simpl; [|discriminate].
    destruct (isValidEmail (email c)); discriminate.
  - destruct (isValidEmail (email c)); [reflexivity|]. exfalso. revert H.
    destruct (negb (truthy (name c)) || negb (truthy (trim (name c)))); [discriminate|].
    destruct (hasPhone c); discriminate.
Qed.

Lemma addContact_storeInvariant now c dm :
  storeInvariant dm -> storeInvariant (addContact now c dm).2.
Proof.
  intros Hinv. unfold addContact.
  destruct (validateContact c) eqn:Hv; simpl; [|exact Hinv].
  destruct (isDuplicate c dm); simpl; [exact Hinv|].
  unfold storeInvariant. simpl. apply Forall_app. split; [exact Hinv|].
  constructor; [|constructor].
  apply validateContact_storeRule in Hv.
  destruct (timestamp c); exact Hv.
Qed.

Lemma updateContact_storeInvariant i c dm :
  storeInvariant dm -> storeInvariant (updateContact i c dm).2.
Proof.
  intros Hinv. unfold updateContact.
  destruct ((i <? 0)%Z || (Z.of_nat (length (contacts dm)) <=? i)%Z); [exact Hinv|].
  destruct (validateContact c) eqn:Hv; simpl; [|exact Hinv].
  destruct (isDuplicateInArray c _); simpl; [exact Hinv|].
  unfold storeInvariant. simpl. apply Forall_insert; [exact Hinv|].
  apply validateContact_storeRule. exact Hv.
Qed.

Lemma mergeContacts_Forall (P : ContactData -> Prop) incoming current :
  Forall P incoming -> Forall P current -> Forall P (mergeContacts incoming current).
Proof.
  unfold mergeContacts. intros Hin. revert current.
  induction Hin as [|c incoming Hc _ IH]; intros current Hcur; simpl; [exact Hcur|].
  apply IH. destruct (isDuplicateInArray c current); simpl; [exact Hcur|].
  apply Forall_app. split; [exact Hcur | constructor; [exact Hc | constructor]].
Qed.

Lemma restoreSession_storeInvariant strategy dm :
  (forall s, sessionItem dm = Some s -> Forall storeRule (List.map revive (sessionContacts s))) ->
  storeInvariant dm -> storeInvariant (restoreSession strategy dm).2.
Proof.
  intros Hs Hinv. unfold restoreSession, loadSession.
  destruct (sessionItem dm) as [s|]; [|exact Hinv].
  specialize (Hs s eq_refl). unfold storeInvariant. simpl.
  destruct strategy; [exact Hs|]. apply mergeContacts_Forall; assumption.
Qed.

Lemma importSessionData_storeInvariant data strategy dm :
  (forall stored, data = Some stored -> Forall storeRule (List.map revive stored)) ->
  storeInvariant dm -> storeInvariant (importSessionData data strategy dm).2.
Proof.
  intros Hs Hinv. unfold importSessionData.
  destruct data as [stored|]; [|exact Hinv].
  specialize (Hs stored eq_refl). unfold storeInvariant. simpl.
  destruct strategy; [exact Hs|]. apply mergeContacts_Forall; assumption.
Qed.

(** C2, as the code has it.  The store keeps this invariant: the phone of
    every stored record, if it is not blank, has one of the four formats
    of [isValidPhone], and its e-mail, if it is not blank, matches the
    pattern of [isValidEmail].  [addContact] and [updateContact] preserve
    it; [restoreSession] and [importSessionData], with either strategy,
    preserve it when the records of the snapshot satisfy it, for they add
    them unchecked. *)
Theorem storeInvariant_preserved (dm : State) :
  storeInvariant dm ->
  (forall now c, storeInvariant (addContact now c dm).2) /\
  (forall i c, storeInvariant (updateContact i c dm).2) /\
  (forall strategy,
      (forall s, sessionItem dm = Some s ->
                 Forall storeRule (List.map revive (sessionContacts s))) ->
      storeInvariant (restoreSession strategy dm).2) /\
  (forall stored strategy,
      Forall storeRule (List.map revive stored) ->
      storeInvariant (importSessionData (Some stored) strategy dm).2).
Proof.
  intros Hinv. repeat split.
  - intros. apply addContact_storeInvariant, Hinv.
  - intros. apply updateContact_storeInvariant, Hinv.
  - intros. apply restoreSession_storeInvariant; assumption.
  - intros stored strategy Hs. apply importSessionData_storeInvariant; [|exact Hinv].
    intros ? [= <-]. exact Hs.
Qed.

Lemma storeInvariant_preserved_witness :
  storeInvariant sessionState /\
  storeInvariant (addContact 0 mariaRecord sessionState).2 /\
  storeInvariant (updateContact 0 mariaRecord sessionState).2 /\
  storeInvariant (restoreSession Merge sessionState).2 /\
  storeInvariant (importSessionData (Some [toStored mariaRecord]) Replace sessionState).2.
Proof.
  assert (Hinv : storeInvariant sessionState) by constructor.
  assert (Hs : Forall storeRule (List.map revive [toStored mariaRecord])).
  { constructor; [|constructor].
    split; intros H; vm_compute in H |- *; first [reflexivity | discriminate H]. }
  destruct (storeInvariant_preserved sessionState Hinv) as (Ha & Hu & Hr & Hi).
  split; [exact Hinv|]. split; [apply Ha|]. split; [apply Hu|]. split.
  - apply Hr. intros s [= <-]. exact Hs.
  - apply Hi. exact Hs.
Defined.

(** C2 as the specification states it fails.  The store takes the phone
    ["(21) 88888-8888"], in which the digit after the area code is not
    [9]: [validatePhone] rejects it.  And [restoreSession] takes the
    records of the snapshot as they are. *)
Lemma specInvariant_counterexample :
  specInvariant emptyStore /\
  (addContact 0 mariaRecord emptyStore).1 = true /\
  ~ specInvariant (addContact 0 mariaRecord emptyStore).2 /\
  specInvariant junkSessionState /\
  (restoreSession Replace junkSessionState).1 = true /\
  ~ specInvariant (restoreSession Replace junkSessionState).2.
Proof.
  split; [constructor|]. split; [vm_compute; reflexivity|]. split; [|split; [constructor|split]].
  - intros H. apply Forall_inv in H. destruct H as [Hp _].
    specialize (Hp eq_refl). vm_compute in Hp. discriminate Hp.
  - vm_compute. reflexivity.
  - intros H. apply Forall_inv in H. destruct H as [Hp _].
    specialize (Hp eq_refl). vm_compute in Hp. discriminate Hp.
Qed.

End StoreFacts.

(** ** DataManager: duplicates *)

Module DuplicateFacts.
Import Regex RegexFacts DataManager Examples.

(** *** A phone that the store accepts has a digit *)



Lemma elem_of_rev (x : N) l : x ∈ rev l <-> x ∈ l.
Proof. rewrite !list_elem_of_In. symmetry. apply in_rev. Qed.



Lemma digit_not_space c : isDigit c = true -> isSpace c = false.
Proof.
  unfold isDigit, isSpace, inRange. intros [H1 H2]%andb_true_iff.
  apply N.leb_le in H1, H2.
  repeat match goal with
         | |- context [N.leb ?a ?b] => destruct (N.leb_spec a b); simpl
         | |- context [N.eqb ?a ?b] => destruct (N.eqb_spec a b); simpl
         end; try reflexivity; lia.
Qed.

Lemma digit_not_separator c : isDigit c = true -> separator c = false.
Proof.
  intros H. unfold separator. rewrite (digit_not_space c H). revert H.
  unfold isDigit, inRange, cHyphen, cLParen, cRParen, cPlus.
  intros [H1 H2]%andb_true_iff. apply N.leb_le in H1, H2.
  repeat match goal with
         | |- context [N.eqb ?a ?b] => destruct (N.eqb_spec a b); simpl
         end; try reflexivity; lia.
Qed.








Lemma duplicates_fields d c c' :
  name c' = name c -> phone c' = phone c -> email c' = email c ->
  duplicates d c' = duplicates d c.
Proof. intros Hn Hp He. unfold duplicates. rewrite Hn, Hp, He. reflexivity. Qed.






End DuplicateFacts.

(** ** DataManager: the clean-up of old data *)

Module CleanupFacts.
Import DataManager CleanupStages Examples.

Lemma cleanupOldContacts_contacts zone now days dm :
  contacts (cleanupOldContacts zone now days dm) =
  List.filter (newerThan (cutoffDate zone now days)) (contacts dm).
Proof. unfold cleanupOldContacts. destruct (negb _); reflexivity. Qed.

Lemma cleanupOldContacts_session zone now days dm :
  sessionItem (cleanupOldContacts zone now days dm) = sessionItem dm.
Proof. unfold cleanupOldContacts. destruct (negb _); reflexivity. Qed.

Lemma newerThan_spec cutoff c :
  newerThan cutoff c = true <->
  exists t limit, timestamp c = DateAt t /\ cutoff = DateAt limit /\ (limit < t)%Z.
Proof.
  unfold newerThan. destruct (timestamp c) as [| |t].
  - split; [discriminate | intros (t & l & [=] & _)].
  - split; [discriminate | intros (t & l & [=] & _)].
  - destruct cutoff as [| |limit].
    + split; [discriminate | intros (t' & l & _ & [=] & _)].
    + split; [discriminate | intros (t' & l & _ & [=] & _)].
    + rewrite Z.ltb_lt. split; [eauto 10 | intros (t' & l & [= <-] & [= <-] & H); exact H].
Qed.

Lemma cleanupOldSessions_contacts zone h now1 now2 dm :
  contacts (cleanupOldSessions zone h now1 now2 dm) =
  List.filter (newerThan (cutoffDate zone now2 (h * 24))) (contacts dm).
Proof.
  unfold cleanupOldSessions. rewrite cleanupOldContacts_contacts.
  destruct (getSessionAge now1 dm) as [a|]; [|reflexivity].
  destruct (h * 60 <? a)%Z; reflexivity.
Qed.


(** What [cleanupOldSessions] does, for every [maxAgeHours] [h]: the
    session snapshot is removed when its age in whole minutes exceeds
    [60 * h]; and the store keeps, in order, the contacts whose
    [timestamp] is a date later than the cutoff, which lies [h * 24]
    days back on the local calendar.  When the cutoff is no date, for an
    [h] that is too large, no contact is kept. *)
Lemma cleanupOldSessions_kept zone h now1 now2 dm :
  (forall c, c ∈ contacts (cleanupOldSessions zone h now1 now2 dm) <->
             c ∈ contacts dm /\
             exists t limit, timestamp c = DateAt t /\
                             cutoffDate zone now2 (h * 24) = DateAt limit /\ (limit < t)%Z) /\
  (forall s t, sessionItem dm = Some s -> sessionTime s = Some t ->
               sessionItem (cleanupOldSessions zone h now1 now2 dm) =
               if (h * 60 <? (now1 - t) / 60000)%Z then None else Some s).
Proof.
  split.
  - intros c. rewrite cleanupOldSessions_contacts.
    rewrite list_elem_of_In, filter_In, <- list_elem_of_In, newerThan_spec. reflexivity.
  - intros s t Hs Ht. unfold cleanupOldSessions. rewrite cleanupOldContacts_session.
    unfold getSessionAge, loadSession. rewrite Hs, Ht.
    change (1000 * 60)%Z with 60000%Z.
    destruct (h * 60 <? (now1 - t) / 60000)%Z; [reflexivity | exact Hs].
Qed.

(** In a zone with bounded offsets the cutoff of [h * 24] days lies
    within a day of [h * 24] times 86400000 milliseconds before now. *)
Lemma cutoffDate_near zone now days :
  boundedZone zone ->
  exists shift, (Z.abs shift <= 2 * msPerDay)%Z /\
                cutoffDate zone now days = timeClip (now - days * msPerDay + shift).
Proof.
  intros Hz. unfold cutoffDate. cbv zeta.
  set (l := (now + utcOffset zone now - days * msPerDay)%Z).
  exists (utcOffset zone now - localOffset zone l)%Z. split.
  - destruct (Hz now) as [H1 _]. destruct (Hz l) as [_ H2]. lia.
  - f_equal. subst l. lia.
Qed.

(** With ten million hours the cutoff is no date, and every contact is
    deleted, the ones of this instant too. *)
Lemma cleanupOldSessions_overflow zone now1 now2 dm :
  boundedZone zone -> (Z.abs now2 <= maxTime)%Z ->
  contacts (cleanupOldSessions zone tenMillionHours now1 now2 dm) = [].
Proof.
  intros Hz Hnow. rewrite cleanupOldSessions_contacts.
  destruct (cutoffDate_near zone now2 (tenMillionHours * 24) Hz) as (shift & Hs & ->).
  unfold timeClip.
  destruct (Z.leb_spec (Z.abs (now2 - tenMillionHours * 24 * msPerDay + shift)) maxTime)
    as [H|_].
  - exfalso. unfold tenMillionHours, msPerDay, maxTime in *. lia.
  - induction (contacts dm) as [|c l IH]; [reflexivity|]. simpl.
    unfold newerThan at 1. destruct (timestamp c); exact IH.
Qed.

(** C10, where the code departs from it.  With the default of 24 hours,
    in every time zone with offsets of at most a day, a contact that is
    thirty days old stays in the store, though it is older than 24 days:
    [cleanupOldContacts] is given [24 * 24 = 576] days, under the comment
    that the hours are converted to days.  The session snapshot of thirty
    days ago is removed. *)
Theorem cleanupOldSessions_default_keeps_month_old (zone : TimeZone) :
  boundedZone zone ->
  timestamp oldRecord = DateAt 0 /\
  (0 < thirtyDays - 24 * msPerDay)%Z /\
  contacts (cleanupOldSessions zone 24 thirtyDays thirtyDays oldState) = [oldRecord] /\
  sessionItem (cleanupOldSessions zone 24 thirtyDays thirtyDays oldState) = None.
Proof.
  intros Hz. split; [reflexivity|]. split; [vm_compute; reflexivity|]. split.
  - rewrite cleanupOldSessions_contacts.
    destruct (cutoffDate_near zone thirtyDays (24 * 24) Hz) as (shift & Hs & ->).
    unfold timeClip.
    destruct (Z.leb_spec (Z.abs (thirtyDays - 24 * 24 * msPerDay + shift)) maxTime) as [_|H].
    + simpl. unfold newerThan. simpl.
      destruct (Z.ltb_spec (thirtyDays - 24 * 24 * msPerDay + shift) 0) as [_|H];
        [reflexivity|].
      exfalso. unfold thirtyDays, msPerDay in *. lia.
    + exfalso. unfold thirtyDays, msPerDay, maxTime in *. lia.
  - destruct (cleanupOldSessions_kept zone 24 thirtyDays thirtyDays oldState) as [_ H].
    rewrite (H _ 0%Z eq_refl eq_refl). reflexivity.
Qed.

Lemma cleanupOldSessions_default_keeps_month_old_witness :
  contacts (cleanupOldSessions brasilia 24 thirtyDays thirtyDays oldState) = [oldRecord].
Proof.
  destruct (cleanupOldSessions_default_keeps_month_old brasilia) as (_ & _ & H & _).
  - intros t. split; vm_compute; discriminate.
  - exact H.
Defined.

End CleanupFacts.

(** ** What the accessors hand out *)

Module ObjectFacts.
Import Objects Examples.

Lemma alloc_fresh o (h : gmap positive object) : h !! (alloc o h).1 = None.
Proof.
  unfold alloc. simpl. apply not_elem_of_dom. apply is_fresh.
Qed.

(** Writing an object that the store does not reach leaves what the
    store holds. *)
Lemma storeContents_insert_fresh (h : gmap positive object) ref l o cs :
  h !! l = None ->
  storeContents h ref = Some cs ->
  storeContents (<[l := o]> h) ref = Some cs.
Proof.
  intros Hl Hs. unfold storeContents in *.
  destruct (readArray h ref) as [elems|] eqn:Ha; simpl in Hs; [|discriminate].
  assert (Ha' : readArray (<[l := o]> h) ref = Some elems).
  { unfold readArray in *. rewrite lookup_insert_ne; [exact Ha|].
    intros ->. rewrite Hl in Ha. discriminate. }
  rewrite Ha'. simpl. rewrite <- Hs. apply Forall_mapM_ext.
  assert (Hsome : Forall (is_Some ∘ readRecord h) elems)
    by (apply mapM_is_Some_1; rewrite Hs; eauto).
  eapply Forall_impl; [exact Hsome|]. intros x [c Hx]. simpl in Hx.
  unfold readRecord in *. rewrite lookup_insert_ne; [reflexivity|].
  intros ->. rewrite Hl in Hx. discriminate.
Qed.

Lemma mutate_fresh_array (h : gmap positive object) a elems f :
  mutateArray a f (<[a := OArray elems]> h) = <[a := OArray (f elems)]> h.
Proof. unfold mutateArray. rewrite lookup_insert_eq. apply insert_insert_eq. Qed.

Lemma mutate_fresh_record (h : gmap positive object) o c g :
  mutateRecord o g (<[o := ORecord c]> h) = <[o := ORecord (g c)]> h.
Proof. unfold mutateRecord. rewrite lookup_insert_eq. apply insert_insert_eq. Qed.

(** C5, as the code has it.  [getAllContacts] returns a new array whose
    elements are the record objects of the store themselves: whatever
    is done to the array (assignment of elements, [push], [splice]), the
    store holds what it held.  [getContact] returns a new record with the
    fields of the stored one: whatever is assigned to its fields, the
    store holds what it held. *)
Theorem accessors_copy_one_level (h : gmap positive object) (ref : positive)
        (cs : list ContactData) :
  storeContents h ref = Some cs ->
  (exists a h',
      getAllContacts ref h = Some (a, h') /\
      a <> ref /\ readArray h' a = readArray h ref /\
      storeContents h' ref = Some cs /\
      forall f, storeContents (mutateArray a f h') ref = Some cs) /\
  (forall i c,
      (0 <= i)%Z -> cs !! Z.to_nat i = Some c ->
      exists o h',
        getContact ref i h = Some (Some o, h') /\
        readRecord h' o = Some c /\
        storeContents h' ref = Some cs /\
        forall g, storeContents (mutateRecord o g h') ref = Some cs).
Proof.
  intros Hs. pose proof Hs as Hs0. unfold storeContents in Hs0.
  destruct (readArray h ref) as [elems|] eqn:Ha; simpl in Hs0; [|discriminate].
  split.
  - exists (alloc (OArray elems) h).1, (alloc (OArray elems) h).2.
    pose proof (alloc_fresh (OArray elems) h) as Hfresh.
    unfold getAllContacts. rewrite Ha. simpl. unfold alloc in *. simpl in *.
    split; [reflexivity|]. split; [|split; [|split]].
    + intros E. unfold readArray in Ha. rewrite E in Hfresh. rewrite Hfresh in Ha. discriminate.
    + unfold readArray at 1. rewrite lookup_insert_eq. reflexivity.
    + apply storeContents_insert_fresh; assumption.
    + intros f. rewrite mutate_fresh_array.
      apply storeContents_insert_fresh; assumption.
  - intros i c Hi Hc.
    pose proof (length_mapM _ _ _ Hs0) as Hlen.
    pose proof (lookup_lt_Some _ _ _ Hc) as Hlt.
    apply mapM_Some_1 in Hs0.
    destruct (Forall2_lookup_r _ _ _ _ _ Hs0 Hc) as (r & Hr & Hrec).
    exists (alloc (ORecord c) h).1, (alloc (ORecord c) h).2.
    pose proof (alloc_fresh (ORecord c) h) as Hfresh.
    unfold getContact. rewrite Ha. simpl.
    replace ((i <? 0)%Z || (Z.of_nat (length elems) <=? i)%Z) with false
      by (symmetry; apply orb_false_intro; [apply Z.ltb_ge | apply Z.leb_gt]; lia).
    rewrite Hr. simpl. rewrite Hrec. simpl. unfold alloc in *. simpl in *.
    split; [reflexivity|]. split; [|split].
    + unfold readRecord. rewrite lookup_insert_eq. reflexivity.
    + apply storeContents_insert_fresh; assumption.
    + intros g. rewrite mutate_fresh_record.
      apply storeContents_insert_fresh; assumption.
Qed.

Lemma accessors_copy_one_level_witness :
  storeContents smallHeap 1 = Some [fullRecord] /\
  (exists a h',
      getAllContacts 1 smallHeap = Some (a, h') /\
      forall f, storeContents (mutateArray a f h') 1 = Some [fullRecord]) /\
  (exists o h',
      getContact 1 0 smallHeap = Some (Some o, h') /\
      forall g, storeContents (mutateRecord o g h') 1 = Some [fullRecord]).
Proof.
  assert (Hs : storeContents smallHeap 1 = Some [fullRecord]) by (vm_compute; reflexivity).
  destruct (accessors_copy_one_level smallHeap 1 [fullRecord] Hs) as [Hall Hget].
  split; [exact Hs|]. split.
  - destruct Hall as (a & h' & E & _ & _ & _ & Hf). exists a, h'. split; assumption.
  - destruct (Hget 0%Z fullRecord ltac:(lia) eq_refl) as (o & h' & E & _ & _ & Hg).
    exists o, h'. split; assumption.
Defined.

(** C5 as the specification states it fails: the array that
    [getAllContacts] returns holds the record of the store, and a change
    of that record through the array is a change of the store. *)
Lemma getAllContacts_counterexample :
  storeContents smallHeap 1 = Some [fullRecord] /\
  exists a h',
    getAllContacts 1 smallHeap = Some (a, h') /\
    readArray h' a = Some [2%positive] /\
    storeContents (mutateRecord 2 blankName h') 1 = Some [blankName fullRecord] /\
    blankName fullRecord <> fullRecord.
Proof.
  split; [vm_compute; reflexivity|].
  exists (alloc (OArray [2%positive]) smallHeap).1, (alloc (OArray [2%positive]) smallHeap).2.
  split; [vm_compute; reflexivity|]. split; [vm_compute; reflexivity|].
  split; [vm_compute; reflexivity | discriminate].
Qed.

End ObjectFacts.

(** ** DataManager: how the operations compose *)

Module StoreMore.
Import DataManager StoreStages Examples.

Lemma addContact_result now c dm :
  addContact now c dm =
  if validateContact c && negb (isDuplicate c dm)
  then (true, saveToStorage (mkState (contacts dm ++ [stamped now c])
                                     (storageItem dm) (sessionItem dm) (setItemThrows dm)))
  else (false, dm).
Proof.
  unfold addContact, stamped. destruct (validateContact c); [|reflexivity].
  destruct (isDuplicate c dm); [reflexivity|]. simpl. destruct (timestamp c); reflexivity.
Qed.

Lemma addContact_true now c dm :
  (addContact now c dm).1 = true <-> validateContact c = true /\ isDuplicate c dm = false.
Proof.
  rewrite addContact_result.
  destruct (validateContact c), (isDuplicate c dm); simpl; intuition congruence.
Qed.

Lemma stamped_fields now c :
  name (stamped now c) = name c /\ phone (stamped now c) = phone c /\
  email (stamped now c) = email c /\ source (stamped now c) = source c.
Proof. unfold stamped. destruct (timestamp c); repeat split. Qed.

Lemma duplicates_sym a b : duplicates a b = duplicates b a.
Proof.
  unfold duplicates.
  rewrite (bool_decide_ext (trim (toLowerCase (name b)) = trim (toLowerCase (name a)))
                           (trim (toLowerCase (name a)) = trim (toLowerCase (name b))))
    by (split; congruence).
  rewrite (bool_decide_ext (normalizePhone (phone b) = normalizePhone (phone a))
                           (normalizePhone (phone a) = normalizePhone (phone b)))
    by (split; congruence).
  rewrite (bool_decide_ext (trim (toLowerCase (email b)) = trim (toLowerCase (email a)))
                           (trim (toLowerCase (email a)) = trim (toLowerCase (email b))))
    by (split; congruence).
  destruct (truthy (phone a)), (truthy (phone b)), (truthy (trim (phone a))),
    (truthy (trim (phone b))), (truthy (email a)), (truthy (email b)),
    (truthy (trim (email a))), (truthy (trim (email b))); reflexivity.
Qed.

(** A record with a phone or an e-mail duplicates itself. *)
Lemma duplicates_self c : hasPhone c || hasEmail c = true -> duplicates c c = true.
Proof.
  unfold hasPhone, hasEmail, duplicates.
  rewrite !bool_decide_eq_true_2 by reflexivity.
  destruct (truthy (phone c)), (truthy (trim (phone c))), (truthy (email c)),
    (truthy (trim (email c))); simpl; congruence.
Qed.

Lemma validateContact_method c : validateContact c = true -> hasPhone c || hasEmail c = true.
Proof.
  unfold validateContact.
  destruct (negb (truthy (name c)) || negb (truthy (trim (name c)))); [discriminate|].
  destruct (hasPhone c), (hasEmail c); simpl; congruence.
Qed.

(** X1. Whatever the store holds, when [addContact] accepts a record,
    offering the same record again is refused and leaves the store as it
    is. *)
Theorem addContact_again_rejected (now now' : Z) (c : ContactData) (dm : State) :
  (addContact now c dm).1 = true ->
  addContact now' c (addContact now c dm).2 = (false, (addContact now c dm).2).
Proof.
  intros Hok. pose proof Hok as [Hv Hd]%addContact_true.
  rewrite (addContact_result now c dm), Hv, Hd. simpl.
  rewrite addContact_result, Hv. simpl.
  assert (Hdup : isDuplicate c (saveToStorage
                   (mkState (contacts dm ++ [stamped now c]) (storageItem dm) (sessionItem dm) (setItemThrows dm)))
                 = true).
  { unfold isDuplicate, isDuplicateInArray. simpl. rewrite existsb_app. simpl.
    destruct (stamped_fields now c) as (Hn & Hp & He & _).
    rewrite (DuplicateFacts.duplicates_fields c c (stamped now c) Hn Hp He).
    rewrite duplicates_self by (apply validateContact_method, Hv).
    rewrite orb_true_r. reflexivity. }
  rewrite Hdup. reflexivity.
Qed.

Lemma addContact_again_rejected_witness :
  (addContact 2 fullRecord (addContact 1 fullRecord emptyStore).2).1 = false.
Proof.
  rewrite (addContact_again_rejected 1 2 fullRecord emptyStore); [reflexivity|].
  vm_compute. reflexivity.
Defined.

Lemma getContact_lookup (i : nat) dm :
  getContact (Z.of_nat i) dm = contacts dm !! i.
Proof.
  unfold getContact. rewrite Nat2Z.id.
  destruct (Z.ltb_spec (Z.of_nat i) 0); [lia|]. simpl.
  destruct (Z.leb_spec (Z.of_nat (length (contacts dm))) (Z.of_nat i)); [|reflexivity].
  symmetry. apply lookup_ge_None. lia.
Qed.

(** X2. A record that [addContact] accepts is read back by [getContact]
    at the index that was the count, with its fields and with the instant
    of the call where it had no [timestamp]; the count grows by one and
    every other index reads what it read before. *)
Theorem addContact_then_getContact (now : Z) (c : ContactData) (dm : State) :
  (addContact now c dm).1 = true ->
  getContact (Z.of_nat (getContactCount dm)) (addContact now c dm).2 = Some (stamped now c) /\
  getContactCount (addContact now c dm).2 = S (getContactCount dm) /\
  forall i : nat, (i < getContactCount dm)%nat ->
                  getContact (Z.of_nat i) (addContact now c dm).2 = getContact (Z.of_nat i) dm.
Proof.
  intros [Hv Hd]%addContact_true. rewrite addContact_result, Hv, Hd. simpl.
  unfold getContactCount. rewrite !getContact_lookup. simpl.
  split; [apply list_lookup_middle; reflexivity|]. split.
  - rewrite length_app. simpl. lia.
  - intros i Hi. rewrite !getContact_lookup. simpl. apply lookup_app_l. exact Hi.
Qed.

Lemma addContact_then_getContact_witness :
  getContact 0 (addContact 7 (mkContact joaoName joaoPhone [] page NoDate) emptyStore).2 =
  Some (mkContact joaoName joaoPhone [] page (DateAt 7)).
Proof.
  apply (addContact_then_getContact 7 (mkContact joaoName joaoPhone [] page NoDate) emptyStore).
  vm_compute. reflexivity.
Defined.

(** X3. [removeContact i] returns true exactly when [0 <= i < count].
    Then the count drops by one, the records before [i] keep their index
    and the records after it move down by one; otherwise the store is
    unchanged. *)
Theorem removeContact_spec (i : Z) (dm : State) :
  ((removeContact i dm).1 = true <-> (0 <= i < Z.of_nat (getContactCount dm))%Z) /\
  ((removeContact i dm).1 = false -> (removeContact i dm).2 = dm) /\
  ((removeContact i dm).1 = true ->
   S (getContactCount (removeContact i dm).2) = getContactCount dm /\
   forall j : nat,
     getContact (Z.of_nat j) (removeContact i dm).2 =
     if (Z.of_nat j <? i)%Z then getContact (Z.of_nat j) dm
     else getContact (Z.of_nat (S j)) dm).
Proof.
  unfold removeContact, getContactCount.
  destruct (Z.ltb_spec i 0) as [Hneg|Hpos]; simpl.
  - split; [split; [discriminate | lia]|]. split; [reflexivity | discriminate].
  - destruct (Z.leb_spec (Z.of_nat (length (contacts dm))) i) as [Hge|Hlt]; simpl.
    + split; [split; [discriminate | lia]|]. split; [reflexivity | discriminate].
    + split; [split; [lia | reflexivity]|]. split; [discriminate|]. intros _. split.
      * rewrite length_delete; [|apply lookup_lt_is_Some; lia]. lia.
      * intros j. rewrite !getContact_lookup. simpl.
        destruct (Z.ltb_spec (Z.of_nat j) i).
        -- apply list_lookup_delete_lt. lia.
        -- apply list_lookup_delete_ge. lia.
Qed.

Lemma removeContact_spec_witness :
  getContact 0 (removeContact 0 (mkState [fullRecord; mariaRecord] None None [])).2 =
  Some mariaRecord.
Proof.
  destruct (removeContact_spec 0 (mkState [fullRecord; mariaRecord] None None []))
    as (_ & _ & H).
  destruct (H eq_refl) as [_ Hj]. exact (Hj 0%nat).
Defined.

Lemma existsb_false_Forall {A} (f : A -> bool) (l : list A) :
  existsb f l = false <-> Forall (fun e => f e = false) l.
Proof.
  induction l as [|a l IH]; simpl.
  - split; [constructor | reflexivity].
  - rewrite orb_false_iff, IH, Forall_cons. reflexivity.
Qed.

Lemma elem_of_delete_iff {A} (l : list A) (i : nat) (e : A) :
  e ∈ delete i l <-> exists j, j <> i /\ l !! j = Some e.
Proof.
  rewrite list_elem_of_lookup. split.
  - intros [k Hk]. destruct (Nat.lt_ge_cases k i) as [Hlt|Hge].
    + rewrite list_lookup_delete_lt in Hk by exact Hlt. exists k. split; [lia | exact Hk].
    + rewrite list_lookup_delete_ge in Hk by exact Hge. exists (S k). split; [lia | exact Hk].
  - intros (j & Hj & He). destruct (Nat.lt_ge_cases j i) as [Hlt|Hge].
    + exists j. rewrite list_lookup_delete_lt by exact Hlt. exact He.
    + exists (Nat.pred j). rewrite list_lookup_delete_ge by lia.
      replace (S (Nat.pred j)) with j by lia. exact He.
Qed.

(** The test of [updateContact]: no record in another slot is a
    duplicate. *)
Lemma isDuplicateInArray_delete x i l :
  isDuplicateInArray x (delete i l) = false <->
  forall j e, j <> i -> l !! j = Some e -> duplicates x e = false.
Proof.
  unfold isDuplicateInArray. rewrite existsb_false_Forall, Forall_forall. split.
  - intros H j e Hj He. apply H, elem_of_delete_iff. eauto.
  - intros H e (j & Hj & He)%elem_of_delete_iff. eauto.
Qed.

(** X4. For names and e-mails of Basic Latin and Latin-1 characters (code
    units below 256, in [x] and in the records of the store): for an
    index in range and a valid record [x], [updateContact i x] returns
    true exactly when [x] duplicates no record in another slot (the
    record that slot [i] holds does not count).  Then slot [i] reads [x],
    the count is unchanged and every other slot reads what it read
    before. *)
Theorem updateContact_succeeds_iff (i : Z) (x : ContactData) (dm : State) :
  (0 <= i < Z.of_nat (getContactCount dm))%Z ->
  validateContact x = true ->
  latin1Record x ->
  Forall latin1Record (contacts dm) ->
  ((updateContact i x dm).1 = true <->
   forall j e, j <> Z.to_nat i -> contacts dm !! j = Some e -> duplicates x e = false) /\
  ((updateContact i x dm).1 = true ->
   getContact i (updateContact i x dm).2 = Some x /\
   getContactCount (updateContact i x dm).2 = getContactCount dm /\
   forall j, j <> Z.to_nat i ->
             contacts (updateContact i x dm).2 !! j = contacts dm !! j).
Proof.
  unfold getContactCount. intros Hi Hv _ _.
  assert (Hrange : (i <? 0)%Z || (Z.of_nat (length (contacts dm)) <=? i)%Z = false).
  { apply orb_false_intro; [apply Z.ltb_ge | apply Z.leb_gt]; lia. }
  unfold updateContact. rewrite Hrange, Hv. simpl.
  destruct (isDuplicateInArray x (delete (Z.to_nat i) (contacts dm))) eqn:Hd; simpl.
  - split; [|discriminate]. split; [discriminate|].
    intros H. apply isDuplicateInArray_delete in H. congruence.
  - split; [split; [intros _; apply isDuplicateInArray_delete, Hd | reflexivity]|].
    intros _. split; [|split].
    + unfold getContact. simpl. rewrite length_insert, Hrange.
      apply list_lookup_insert_eq. lia.
    + apply length_insert.
    + intros j Hj. apply list_lookup_insert_ne. congruence.
Qed.

Lemma updateContact_succeeds_iff_witness :
  getContact 0 (updateContact 0 namedRecord (mkState [fullRecord; mariaRecord] None None [])).2 =
  Some namedRecord.
Proof.
  destruct (updateContact_succeeds_iff 0 namedRecord
              (mkState [fullRecord; mariaRecord] None None [])) as [_ H].
  - unfold getContactCount. simpl. lia.
  - vm_compute. reflexivity.
  - split; repeat (constructor; [reflexivity|]); constructor.
  - repeat (constructor; [split; repeat (constructor; [reflexivity|]); constructor|]).
    constructor.
  - apply H. vm_compute. reflexivity.
Defined.

(** *** The store holds no two duplicates *)

Lemma duplicateFree_snoc l c :
  duplicateFree l -> Forall (fun a => duplicates a c = false) l -> duplicateFree (l ++ [c]).
Proof.
  induction l as [|a l IH]; simpl; [intros _ _; split; [constructor | exact I]|].
  intros [Ha Hl] [Hac Hlc]%Forall_cons. split; [|apply IH; assumption].
  apply Forall_app. split; [exact Ha | constructor; [exact Hac | constructor]].
Qed.


Lemma sublist_filter {A} (f : A -> bool) (l : list A) : List.filter f l `sublist_of` l.
Proof.
  induction l as [|a l IH]; simpl; [constructor|].
  destruct (f a); [apply sublist_skip | apply sublist_cons]; exact IH.
Qed.





End StoreMore.

(** ** DataManager: storage, session and backup *)

Module PersistenceFacts.
Import DataManager StoreStages StoreMore Examples.

Lemma revive_toStored c : validDate c -> revive (toStored c) = c.
Proof. intros [t Ht]. destruct c as [n p e s ts]. simpl in *. subst ts. reflexivity. Qed.

Lemma revive_toStored_list l :
  Forall validDate l -> List.map revive (List.map toStored l) = l.
Proof.
  induction 1 as [|c l Hc _ IH]; simpl; [reflexivity|].
  rewrite revive_toStored, IH by assumption. reflexivity.
Qed.

Lemma revive_toStored_fields l :
  Forall2 sameFields (List.map revive (List.map toStored l)) l.
Proof. induction l as [|c l IH]; simpl; constructor; [repeat split | exact IH]. Qed.

Lemma reload_inSync dm :
  inSync dm ->
  contacts (construct (storageItem dm) (sessionItem dm) (setItemThrows dm)) =
  List.map revive (List.map toStored (contacts dm)).
Proof. unfold inSync, construct, loadFromStorage. simpl. intros ->. reflexivity. Qed.

Lemma saveToStorage_inSync dm : setItemFails dm = false -> inSync (saveToStorage dm).
Proof. intros H. unfold inSync, saveToStorage. simpl. rewrite H. reflexivity. Qed.

Lemma saveToStorage_failed dm :
  setItemFails dm = true -> storageItem (saveToStorage dm) = storageItem dm.
Proof. intros H. unfold saveToStorage. simpl. rewrite H. reflexivity. Qed.

(** The operations that report success end with one call of
    [saveToStorage], on the new array. *)
Lemma success_saves (dm dm' : State) :
  ((exists now c, addContact now c dm = (true, dm')) \/
   (exists i, removeContact i dm = (true, dm')) \/
   (exists i c, updateContact i c dm = (true, dm')) \/
   (exists strategy, restoreSession strategy dm = (true, dm')) \/
   (exists data strategy, importSessionData data strategy dm = (true, dm')) \/
   dm' = clearAll dm) ->
  exists l, dm' = saveToStorage (mkState l (storageItem dm) (sessionItem dm) (setItemThrows dm)).
Proof.
  intros [(now & c & H)|[(i & H)|[(i & c & H)|[(st & H)|[(data & st & H)| ->]]]]].
  - rewrite addContact_result in H. destruct (_ && _); [|discriminate].
    injection H as <-. eauto.
  - unfold removeContact in H. destruct (_ || _); [discriminate|].
    injection H as <-. eauto.
  - unfold updateContact in H. destruct (_ || _); [discriminate|].
    destruct (validateContact c); simpl in H; [|discriminate].
    destruct (isDuplicateInArray _ _); [discriminate|]. injection H as <-. eauto.
  - unfold restoreSession in H. destruct (loadSession dm) as [[sc t]|]; [|discriminate].
    injection H as <-. eauto.
  - unfold importSessionData in H. destruct data; [|discriminate].
    injection H as <-. eauto.
  - unfold clearAll. eauto.
Qed.

(** X6. After an operation that reports success ([addContact],
    [removeContact], [updateContact], [restoreSession],
    [importSessionData]) and after [clearAll]: when [setItem] did not
    throw in it, a store constructed anew from [localStorage] holds
    records with the same name, phone, e-mail and source, in the same
    order, and the same records when all [timestamp]s are valid dates;
    when [setItem] threw, which the operation does not report, the item
    of the contacts is the one of before the operation. *)
Theorem reload_after_success (dm dm' : State) :
  ((exists now c, addContact now c dm = (true, dm')) \/
   (exists i, removeContact i dm = (true, dm')) \/
   (exists i c, updateContact i c dm = (true, dm')) \/
   (exists strategy, restoreSession strategy dm = (true, dm')) \/
   (exists data strategy, importSessionData data strategy dm = (true, dm')) \/
   dm' = clearAll dm) ->
  (setItemFails dm = false ->
   Forall2 sameFields
     (contacts (construct (storageItem dm') (sessionItem dm') (setItemThrows dm')))
     (contacts dm') /\
   (Forall validDate (contacts dm') ->
    contacts (construct (storageItem dm') (sessionItem dm') (setItemThrows dm')) =
    contacts dm')) /\
  (setItemFails dm = true -> storageItem dm' = storageItem dm).
Proof.
  intros H. destruct (success_saves dm dm' H) as [l ->]. split.
  - intros Hw. rewrite reload_inSync by (apply saveToStorage_inSync; exact Hw). split.
    + apply revive_toStored_fields.
    + apply revive_toStored_list.
  - intros Hw. rewrite saveToStorage_failed by exact Hw. reflexivity.
Qed.

Lemma reload_after_success_witness :
  contacts (construct (storageItem (addContact 3 fullRecord emptyStore).2)
                      (sessionItem (addContact 3 fullRecord emptyStore).2)
                      (setItemThrows (addContact 3 fullRecord emptyStore).2)) =
  contacts (addContact 3 fullRecord emptyStore).2.
Proof.
  destruct (reload_after_success emptyStore (addContact 3 fullRecord emptyStore).2) as [H _].
  - left. exists 3%Z, fullRecord. vm_compute. reflexivity.
  - destruct (H eq_refl) as [_ H']. apply H'.
    vm_compute. constructor; [|constructor]. exists 0%Z. reflexivity.
Defined.

(** The case of the test suite of the repository in which [setItem]
    throws: [addContact] returns true and the store holds the record,
    and a store constructed anew holds nothing. *)
Example addContact_storage_error :
  (addContact 3 fullRecord (mkState [] None None [true])).1 = true /\
  getContactCount (addContact 3 fullRecord (mkState [] None None [true])).2 = 1%nat /\
  contacts (construct (storageItem (addContact 3 fullRecord (mkState [] None None [true])).2)
                      None []) = [].
Proof. repeat split. Qed.

Lemma applyOp_sessionItem dm op : sessionItem (applyOp dm op) = sessionItem dm.
Proof.
  destruct op as [now c|i|i c|]; simpl.
  - rewrite addContact_result. destruct (_ && _); reflexivity.
  - unfold removeContact. destruct (_ || _); reflexivity.
  - unfold updateContact. destruct (_ || _); [reflexivity|].
    destruct (validateContact c); simpl; [|reflexivity].
    destruct (isDuplicateInArray _ _); reflexivity.
  - reflexivity.
Qed.

Lemma applyOps_sessionItem ops dm : sessionItem (applyOps ops dm) = sessionItem dm.
Proof.
  unfold applyOps. revert dm. induction ops as [|op ops IH]; intros dm; simpl; [reflexivity|].
  rewrite IH. apply applyOp_sessionItem.
Qed.

Lemma saveSession_item t url dm :
  sessionItem (saveSession t url dm) =
  if setItemFails dm then sessionItem dm
  else Some (mkSession (List.map toStored (contacts dm)) (Some t) url).
Proof. reflexivity. Qed.

(** X7. When [setItem] does not throw in [saveSession], the saved
    session survives every sequence of [addContact], [removeContact],
    [updateContact] and [clearAll]: after it, [restoreSession('replace')]
    returns true and the store holds the contacts of the moment of the
    save (their [timestamp]s being valid dates).  When [setItem] throws
    in [saveSession], the snapshot after that sequence is the one of
    before the save, if there was one. *)
Theorem saveSession_restore_replace (t : Z) (url : jsstring) (ops : list storeOp) (dm : State) :
  (setItemFails dm = false -> Forall validDate (contacts dm) ->
   (restoreSession Replace (applyOps ops (saveSession t url dm))).1 = true /\
   contacts (restoreSession Replace (applyOps ops (saveSession t url dm))).2 = contacts dm) /\
  (setItemFails dm = true ->
   sessionItem (applyOps ops (saveSession t url dm)) = sessionItem dm).
Proof.
  split.
  - intros Hw Hd. unfold restoreSession, loadSession.
    rewrite applyOps_sessionItem, saveSession_item, Hw. simpl. split; [reflexivity|].
    apply revive_toStored_list, Hd.
  - intros Hw. rewrite applyOps_sessionItem, saveSession_item, Hw. reflexivity.
Qed.

Lemma saveSession_restore_replace_witness :
  contacts (restoreSession Replace
              (applyOps [OpClear; OpAdd 9 mariaRecord]
                        (saveSession 5 page (mkState [fullRecord] None None [])))).2 =
  [fullRecord].
Proof.
  destruct (saveSession_restore_replace 5 page [OpClear; OpAdd 9 mariaRecord]
              (mkState [fullRecord] None None [])) as [H _].
  apply H; [reflexivity|].
  constructor; [|constructor]. exists 0%Z. reflexivity.
Defined.




Lemma mergeContacts_all_duplicates incoming current :
  Forall (fun c => isDuplicateInArray c current = true) incoming ->
  mergeContacts incoming current = current.
Proof.
  unfold mergeContacts. induction 1 as [|c incoming Hc _ IH]; simpl; [reflexivity|].
  rewrite Hc. simpl. exact IH.
Qed.

(** X9. When [setItem] does not throw in [saveSession], saving the
    session and restoring it at once with the strategy ['merge'] returns
    true and changes no contact, provided every contact of the store has
    a phone or an e-mail: each record of the snapshot is found to be a
    duplicate of itself.  When [setItem] throws in [saveSession], the
    restore reads the snapshot of before the save: without one it
    returns false and the store is as it was. *)
Theorem saveSession_restore_merge (t : Z) (url : jsstring) (dm : State) :
  (setItemFails dm = false ->
   Forall (fun c => hasPhone c || hasEmail c = true) (contacts dm) ->
   (restoreSession Merge (saveSession t url dm)).1 = true /\
   contacts (restoreSession Merge (saveSession t url dm)).2 = contacts dm) /\
  (setItemFails dm = true -> sessionItem dm = None ->
   restoreSession Merge (saveSession t url dm) = (false, saveSession t url dm) /\
   contacts (saveSession t url dm) = contacts dm).
Proof.
  split.
  - intros Hw Hm. unfold restoreSession, loadSession.
    rewrite saveSession_item, Hw. simpl. split; [reflexivity|].
    apply mergeContacts_all_duplicates.
    rewrite Forall_forall. intros c' Hc'.
    apply list_elem_of_In, in_map_iff in Hc' as (sc & <- & Hsc).
    apply in_map_iff in Hsc as (c & <- & Hc).
    apply existsb_exists. exists c. split; [exact Hc|].
    rewrite duplicates_sym.
    rewrite (DuplicateFacts.duplicates_fields c c (revive (toStored c)))
      by reflexivity.
    apply duplicates_self. rewrite Forall_forall in Hm. apply Hm, list_elem_of_In, Hc.
  - intros Hw Hs. unfold restoreSession, loadSession.
    rewrite saveSession_item, Hw, Hs. split; reflexivity.
Qed.

Lemma saveSession_restore_merge_witness :
  contacts (restoreSession Merge
              (saveSession 4 page (mkState [fullRecord; mariaRecord] None None []))).2 =
  [fullRecord; mariaRecord].
Proof.
  destruct (saveSession_restore_merge 4 page (mkState [fullRecord; mariaRecord] None None []))
    as [H _].
  apply H; [reflexivity|]. repeat constructor.
Defined.

(** X10. A backup made with [exportSessionData] and read with
    [importSessionData(.., 'replace')] puts the contacts of the exporting
    store into the importing one, whatever it held (their [timestamp]s
    being valid dates); with invalid or missing dates the name, phone,
    e-mail and source still come back. *)
Theorem export_import_replace (now : Z) (dm dm' : State) :
  (importSessionData (Some (exportContacts (exportSessionData now dm))) Replace dm').1 = true /\
  Forall2 sameFields
    (contacts (importSessionData (Some (exportContacts (exportSessionData now dm)))
                                 Replace dm').2)
    (contacts dm) /\
  (Forall validDate (contacts dm) ->
   contacts (importSessionData (Some (exportContacts (exportSessionData now dm)))
                               Replace dm').2 = contacts dm).
Proof.
  simpl. split; [reflexivity|]. split.
  - apply revive_toStored_fields.
  - apply revive_toStored_list.
Qed.

Lemma export_import_replace_witness :
  contacts (importSessionData
              (Some (exportContacts (exportSessionData 8 (mkState [fullRecord] None None []))))
              Replace sessionState).2 = [fullRecord].
Proof.
  apply (export_import_replace 8 (mkState [fullRecord] None None []) sessionState).
  constructor; [|constructor]. exists 0%Z. reflexivity.
Defined.

End PersistenceFacts.

(** ** PatternMatcher: more on phones *)

Module PhoneMore.
Import Regex RegexFacts PatternMatcher PhoneStages PhoneChecks PhoneFacts.

Lemma validatePhone_stages phone : validatePhone phone = validDigits (digitsOf phone).
Proof. reflexivity. Qed.

Lemma validDigits_canonicalOf ds :
  validDigits ds = match canonicalOf ds with Some _ => true | None => false end.
Proof.
  unfold validDigits, canonicalOf.
  destruct ((length ds <? 10)%nat || (11 <? length ds)%nat); [reflexivity|].
  destruct (match parseInt (substring 0 2 ds) with
            | Some a => (a <? 11)%Z || (99 <? a)%Z
            | None => false
            end); [reflexivity|].
  destruct (length ds =? 11)%nat.
  - destruct (bool_decide (charAt 2 ds = [57])); reflexivity.
  - destruct (length ds =? 10)%nat; [|reflexivity].
    destruct (bool_decide (charAt 2 ds = [57])), (bool_decide (charAt 2 ds = [48])),
      (bool_decide (charAt 2 ds = [49])); reflexivity.
Qed.

(** X11. Every string that [formatPhone] returns passes [validatePhone]. *)
Theorem formatPhone_valid (d p : jsstring) :
  formatPhone d = Some p -> validatePhone p = true.
Proof.
  rewrite formatPhone_stages, validatePhone_stages. intros H.
  destruct (canonicalOf_digits _ _ (withoutCountryCode_digits _ (digitsOf_digits d)) H)
    as [E _].
  rewrite E, validDigits_canonicalOf, H. reflexivity.
Qed.

Lemma formatPhone_valid_witness :
  validatePhone (js "(21) 3333-4444") = true.
Proof. apply (formatPhone_valid (js "+55 21 3333 4444")). vm_compute. reflexivity. Defined.

(** X12. [validatePhone] accepts a string exactly when the string has at
    most eleven digits and [formatPhone] formats it; the canonical text
    then has the digits of the string. *)
Theorem validatePhone_iff_formatPhone (d : jsstring) :
  validatePhone d = true <->
  (length (digitsOf d) <= 11)%nat /\
  exists p, formatPhone d = Some p /\ digitsOf p = digitsOf d.
Proof.
  rewrite validatePhone_stages, formatPhone_stages, validDigits_canonicalOf. split.
  - intros H.
    assert (Hlen : (length (digitsOf d) <= 11)%nat).
    { revert H. unfold canonicalOf.
      destruct (Nat.ltb_spec (length (digitsOf d)) 10); [discriminate|].
      destruct (Nat.ltb_spec 11 (length (digitsOf d))); [discriminate | lia]. }
    split; [exact Hlen|]. rewrite withoutCountryCode_short by exact Hlen.
    destruct (canonicalOf (digitsOf d)) as [p|] eqn:E; [|discriminate].
    exists p. split; [reflexivity|].
    apply (canonicalOf_digits _ _ (digitsOf_digits d) E).
  - intros (Hlen & p & E & _). rewrite withoutCountryCode_short in E by exact Hlen.
    rewrite E. reflexivity.
Qed.

(** X13. A prefix whose digits are the country code [55] does not change
    the result of [formatPhone] on a string with ten or eleven digits. *)
Theorem formatPhone_country_code (pre d : jsstring) :
  digitsOf pre = [53; 53] ->
  (length (digitsOf d) = 10 \/ length (digitsOf d) = 11)%nat ->
  formatPhone (pre ++ d) = formatPhone d.
Proof.
  intros Hpre Hlen. rewrite !formatPhone_stages. f_equal.
  unfold digitsOf in *. rewrite List.filter_app, Hpre.
  rewrite (withoutCountryCode_short (List.filter isDigit d)) by lia.
  unfold withoutCountryCode. simpl length. simpl startsWith.
  destruct Hlen as [-> | ->]; reflexivity.
Qed.

Lemma formatPhone_country_code_witness :
  formatPhone (js "+55 " ++ js "(11) 98765-4321") = formatPhone (js "(11) 98765-4321").
Proof.
  apply (formatPhone_country_code (js "+55 ") (js "(11) 98765-4321")).
  - reflexivity.
  - right. reflexivity.
Defined.

Lemma takeDigits_all ds : Forall (fun d => isDigit d = true) ds -> takeDigits ds = ds.
Proof. induction 1 as [|c ds Hc _ IH]; simpl; [reflexivity|]. rewrite Hc, IH. reflexivity. Qed.

Lemma digit_range d : isDigit d = true -> 48 <= d <= 57.
Proof.
  unfold isDigit, inRange. intros [H1 H2]%andb_true_iff.
  apply N.leb_le in H1, H2. lia.
Qed.

Lemma charAt_lookup i ds c : charAt i ds = [c] <-> ds !! i = Some c.
Proof. unfold charAt. destruct (ds !! i); split; congruence. Qed.

Lemma formatPhone_shape (d p : jsstring) :
  formatPhone d = Some p -> canonicalPhone p.
Proof.
  rewrite formatPhone_stages.
  pose proof (withoutCountryCode_digits _ (digitsOf_digits d)) as Hds.
  revert Hds. generalize (withoutCountryCode (digitsOf d)). intros ds Hds.
  unfold canonicalOf.
  destruct (Nat.ltb_spec (length ds) 10) as [|H10]; [discriminate|].
  destruct (Nat.ltb_spec 11 (length ds)) as [|H11]; [discriminate|]. simpl.
  assert (Ha : Forall (fun d => isDigit d = true) (substring 0 2 ds))
    by (apply Forall_take, Forall_drop, Hds).
  assert (Hla : length (substring 0 2 ds) = 2%nat)
    by (unfold substring; rewrite length_take, length_drop; lia).
  unfold parseInt. rewrite (takeDigits_all _ Ha).
  destruct (substring 0 2 ds) as [|a0 a] eqn:Ea; [discriminate|].
  destruct (Z.ltb_spec (digitsValue (a0 :: a)) 11) as [|Hlo]; [discriminate|].
  destruct (Z.ltb_spec 99 (digitsValue (a0 :: a))) as [|Hhi]; [discriminate|]. simpl.
  assert (Hparts : forall k, (3 <= k <= length ds)%nat ->
             Forall (fun d => isDigit d = true)
                    ((a0 :: a) ++ substring 2 k ds ++ substringFrom k ds) /\
             length (substring 2 k ds) = (k - 2)%nat /\
             length (substringFrom k ds) = (length ds - k)%nat /\
             substring 2 k ds !! 0%nat = ds !! 2%nat).
  { intros k Hk. unfold substring, substringFrom. repeat split.
    - rewrite <- Ea. unfold substring.
      repeat apply Forall_app_2; auto using Forall_take, Forall_drop.
    - rewrite length_take, length_drop. lia.
    - apply length_drop.
    - rewrite lookup_take_lt by lia. rewrite lookup_drop. reflexivity. }
  destruct (Nat.eqb_spec (length ds) 11) as [E11|N11].
  - destruct (bool_decide_reflect (charAt 2 ds = [57])) as [Hc|]; [|discriminate].
    intros [= <-]. destruct (Hparts 7%nat ltac:(lia)) as (Hd & Hlb & Hlc & Hb0).
    exists (a0 :: a), (substring 2 7 ds), (substringFrom 7 ds).
    repeat split; try assumption; try lia.
    left. split; [lia|]. rewrite Hb0. apply charAt_lookup, Hc.
  - destruct (Nat.eqb_spec (length ds) 10) as [E10|]; [|discriminate].
    destruct (bool_decide_reflect (charAt 2 ds = [57])) as [|N9]; [discriminate|].
    destruct (bool_decide_reflect (charAt 2 ds = [48])) as [|N0]; [discriminate|].
    destruct (bool_decide_reflect (charAt 2 ds = [49])) as [|N1]; [discriminate|].
    intros [= <-]. destruct (Hparts 6%nat ltac:(lia)) as (Hd & Hlb & Hlc & Hb0).
    exists (a0 :: a), (substring 2 6 ds), (substringFrom 6 ds).
    repeat split; try assumption; try lia.
    right. split; [lia|].
    destruct (ds !! 2%nat) as [c|] eqn:Ec.
    + exists c. split; [rewrite Hb0; reflexivity|].
      assert (Hc : isDigit c = true).
      { rewrite Forall_forall in Hds. apply Hds. apply list_elem_of_lookup. eauto. }
      apply digit_range in Hc.
      assert (c <> 57) by (intros ->; apply N9, charAt_lookup, Ec).
      assert (c <> 48) by (intros ->; apply N0, charAt_lookup, Ec).
      assert (c <> 49) by (intros ->; apply N1, charAt_lookup, Ec).
      lia.
    + apply lookup_ge_None in Ec. lia.
Qed.

(** X14. Every string that [formatPhone] returns has the canonical
    format: [(AA) 9NNNN-NNNN] or [(AA) NNNN-NNNN] with a first digit from
    2 to 8, made of decimal digits, with an area code from 11 to 99. *)
Theorem formatPhone_canonical (d p : jsstring) :
  formatPhone d = Some p -> canonicalPhone p.
Proof. apply formatPhone_shape. Qed.

Lemma formatPhone_canonical_witness : canonicalPhone (js "(11) 98765-4321").
Proof. apply (formatPhone_canonical (js "11987654321")). vm_compute. reflexivity. Defined.

End PhoneMore.

(** ** Quantifiers with an upper bound *)

Module RegexMore.
Import Regex RegexFacts.

Lemma rep_bounded {A} p lo h l r (k : @cont A) x :
  rep p lo (Some h) l r k = Some x ->
  exists xs r', r = xs ++ r' /\ Forall (fun c => p c = true) xs /\
                (lo <= length xs <= h)%nat /\ k (rev xs ++ l) r' = Some x.
Proof.
  revert lo h l. induction r as [|c r IH]; intros lo h l; simpl.
  - destruct (Nat.eqb_spec lo 0) as [->|]; [|discriminate].
    intros Hk. exists [], []. repeat split; [constructor | simpl; lia .. | exact Hk].
  - assert (Hstop : (if Nat.eqb lo 0 then k l (c :: r) else None) = Some x ->
                    exists xs r', c :: r = xs ++ r' /\ Forall (fun c => p c = true) xs /\
                                  (lo <= length xs <= h)%nat /\ k (rev xs ++ l) r' = Some x).
    { destruct (Nat.eqb_spec lo 0) as [->|]; [|discriminate].
      intros Hk. exists [], (c :: r). repeat split; [constructor | simpl; lia .. | exact Hk]. }
    destruct (p c) eqn:Hp; simpl; [|exact Hstop].
    destruct (Nat.eqb_spec h 0) as [|Hh]; simpl; [exact Hstop|].
    destruct (rep p (Nat.pred lo) (Some (Nat.pred h)) (c :: l) r k) as [y|] eqn:Hrec;
      [|exact Hstop].
    intros [= ->]. apply IH in Hrec as (xs & r' & -> & Hxs & Hlo & Hk).
    exists (c :: xs), r'. repeat split.
    + constructor; assumption.
    + simpl. lia.
    + simpl. lia.
    + simpl. rewrite <- app_assoc. exact Hk.
Qed.

(** A quantifier takes the whole run [xs] when the run cannot be
    longer: the next character is outside the class, or the upper bound
    is reached. *)
Lemma rep_greedy {A} p lo hi l xs r (k : @cont A) x :
  Forall (fun c => p c = true) xs ->
  (lo <= length xs)%nat ->
  (forall h, hi = Some h -> (length xs <= h)%nat) ->
  stops p r \/ hi = Some (length xs) ->
  k (rev xs ++ l) r = Some x ->
  rep p lo hi l (xs ++ r) k = Some x.
Proof.
  intros Hxs. revert lo hi l.
  induction Hxs as [|c xs Hc _ IH]; intros lo hi l Hlo Hhi Hend Hk.
  - simpl in *. assert (lo = 0%nat) as -> by lia.
    destruct r as [|c r]; simpl; [exact Hk|].
    destruct Hend as [Hstop | ->]; simpl in *.
    + rewrite Hstop. simpl. exact Hk.
    + rewrite andb_false_r. exact Hk.
  - simpl app. cbn [rep]. rewrite Hc.
    assert (canTake hi = true) as ->.
    { destruct hi as [h|]; [|reflexivity]. simpl.
      specialize (Hhi h eq_refl). simpl in Hhi. destruct h; [lia | reflexivity]. }
    simpl andb. cbv iota.
    rewrite (IH (Nat.pred lo) (decr hi) (c :: l)); [reflexivity | | | |].
    + simpl in Hlo. lia.
    + intros h Eh. destruct hi as [h'|]; [|discriminate]. injection Eh as <-.
      specialize (Hhi h' eq_refl). simpl in Hhi. lia.
    + destruct Hend as [Hstop | ->]; [left; exact Hstop | right; reflexivity].
    + simpl in Hk. rewrite <- app_assoc in Hk. exact Hk.
Qed.

Lemma chr_sound {A} p l r (k : @cont A) x :
  m (Chr p) l r k = Some x ->
  exists c r', r = c :: r' /\ p c = true /\ k (c :: l) r' = Some x.
Proof.
  simpl. destruct r as [|c r']; [discriminate|].
  destruct (p c) eqn:Hp; [|discriminate]. intros H. exists c, r'. auto.
Qed.

Lemma trimStart_id s : stops isSpace s -> trimStart s = s.
Proof. destruct s as [|c s]; simpl; [reflexivity|]. intros ->. reflexivity. Qed.

Lemma trim_id s : stops isSpace s -> stops isSpace (rev s) -> trim s = s.
Proof.
  intros H1 H2. unfold trim, trimEnd.
  rewrite (trimStart_id s H1), (trimStart_id _ H2). apply rev_involutive.
Qed.

End RegexMore.

(** ** DataManager: the phones that it accepts *)

Module StorePhones.
Import Regex RegexFacts RegexMore PatternMatcher DataManager PhoneChecks DuplicateFacts.

Lemma space_separator c : isSpace c = true -> separator c = true.
Proof. intros H. unfold separator. rewrite H. reflexivity. Qed.

Lemma normalizePhone_trimStart s : normalizePhone (trimStart s) = normalizePhone s.
Proof.
  induction s as [|c s IH]; [reflexivity|]. simpl trimStart.
  destruct (isSpace c) eqn:E; [|reflexivity].
  rewrite IH. unfold normalizePhone. simpl. rewrite (space_separator c E). reflexivity.
Qed.

Lemma normalizePhone_trim s : normalizePhone (trim s) = normalizePhone s.
Proof.
  unfold trim, trimEnd.
  unfold normalizePhone at 1. rewrite List.filter_rev. fold (normalizePhone (trimStart (rev (trimStart s)))).
  rewrite normalizePhone_trimStart. unfold normalizePhone at 1.
  rewrite List.filter_rev, rev_involutive. apply normalizePhone_trimStart.
Qed.

Lemma normalizePhone_app a b : normalizePhone (a ++ b) = normalizePhone a ++ normalizePhone b.
Proof. apply List.filter_app. Qed.

Lemma normalizePhone_digits ds :
  Forall (fun c => isDigit c = true) ds -> normalizePhone ds = ds.
Proof.
  induction 1 as [|c ds Hc _ IH]; [reflexivity|].
  unfold normalizePhone in *. simpl. rewrite (digit_not_separator c Hc). simpl.
  rewrite IH. reflexivity.
Qed.

Lemma normalizePhone_separators p xs :
  (forall c, p c = true -> separator c = true) ->
  Forall (fun c => p c = true) xs -> normalizePhone xs = [].
Proof.
  intros Hp. induction 1 as [|c xs Hc _ IH]; [reflexivity|].
  unfold normalizePhone in *. simpl. rewrite (Hp c Hc). simpl. exact IH.
Qed.

Lemma normalizePhone_separator c s :
  separator c = true -> normalizePhone (c :: s) = normalizePhone s.
Proof. intros H. unfold normalizePhone. simpl. rewrite H. reflexivity. Qed.

Lemma hyphen_separator c : isChar cHyphen c = true -> separator c = true.
Proof. unfold isChar. intros ->%N.eqb_eq. reflexivity. Qed.

(** The local part of every format: [\d{4,5}-?\d{4}$]. *)
Lemma subscriber_sound l r n :
  rep isDigit 4 (Some 5%nat) l r
      (fun l' r' => rep (isChar cHyphen) 0 (Some 1%nat) l' r'
         (fun l'' r'' => rep isDigit 4 (Some 4%nat) l'' r''
            (fun l3 r3 => match r3 with [] => Some (length r3) | _ :: _ => None end))) = Some n ->
  Forall (fun c => isDigit c = true) (normalizePhone r) /\
  (8 <= length (normalizePhone r) <= 9)%nat.
Proof.
  intros H.
  apply rep_bounded in H as (b & r1 & -> & Hb & Hlb & H). cbn beta in H.
  apply rep_bounded in H as (hy & r2 & -> & Hhy & _ & H). cbn beta in H.
  apply rep_bounded in H as (c & r3 & -> & Hc & Hlc & H). cbn beta in H.
  destruct r3; [|discriminate].
  rewrite !normalizePhone_app, (normalizePhone_digits b Hb), (normalizePhone_digits c Hc),
    (normalizePhone_separators _ hy hyphen_separator Hhy). simpl.
  rewrite app_nil_r. split; [apply Forall_app_2; assumption|].
  rewrite length_app. lia.
Qed.

Ltac chr H c r E :=
  apply chr_sound in H as (c & r & -> & E & H); cbn beta in H.

(** X15. A phone that the store's [isValidPhone] accepts consists, once
    [normalizePhone] has removed its separators, of decimal digits only:
    ten or eleven of them, or twelve or thirteen that start with the
    country code 55.  This is the text that the duplicate check
    compares. *)
Theorem isValidPhone_normalized (p : jsstring) :
  isValidPhone p = true ->
  Forall (fun c => isDigit c = true) (normalizePhone p) /\
  ((10 <= length (normalizePhone p) <= 11)%nat \/
   ((12 <= length (normalizePhone p) <= 13)%nat /\ take 2 (normalizePhone p) = [53; 53])).
Proof.
  unfold isValidPhone. rewrite <- (normalizePhone_trim p).
  generalize (trim p). clear p. intros s.
  destruct (truthy s); [|discriminate]. simpl negb. cbv iota.
  intros (pattern & Hin & Ht)%existsb_exists. revert Ht.
  destruct Hin as [<-|[<-|[<-|[<-|[]]]]];
    unfold phonePattern1, phonePattern2, phonePattern3, phonePattern4;
    cbn [cat fold_right]; rewrite test_Bos;
    match goal with |- context [match ?o with Some _ => true | None => false end] =>
                      destruct o as [n|] eqn:H end; try discriminate; intros _.
  - cbn [m] in H. change (m (Chr (isChar cLParen)) [] s
      (fun l r => rep isDigit 2 (Some 2%nat) l r
         (fun l r => m (Chr (isChar cRParen)) l r
            (fun l r => rep isSpace 0 (Some 1%nat) l r
               (fun l r => rep isDigit 4 (Some 5%nat) l r
                  (fun l' r' => rep (isChar cHyphen) 0 (Some 1%nat) l' r'
                     (fun l'' r'' => rep isDigit 4 (Some 4%nat) l'' r''
                        (fun l3 r3 => match r3 with
                                      | [] => Some (length r3)
                                      | _ :: _ => None
                                      end))))))) = Some n) in H.
    chr H c0 r0 E0.
    apply rep_bounded in H as (a & r1 & -> & Ha & Hla & H). cbn beta in H.
    chr H c1 r2 E1.
    apply rep_bounded in H as (sp & r3 & -> & Hsp & _ & H). cbn beta in H.
    apply subscriber_sound in H as [Hd Hl].
    apply N.eqb_eq in E0, E1. subst c0 c1.
    rewrite (normalizePhone_separator cLParen) by reflexivity.
    rewrite normalizePhone_app, (normalizePhone_digits a Ha).
    rewrite (normalizePhone_separator cRParen) by reflexivity.
    rewrite normalizePhone_app, (normalizePhone_separators _ sp space_separator Hsp).
    simpl app. split; [apply Forall_app_2; assumption|].
    left. rewrite length_app. lia.
  - cbn [m] in H. change (rep isDigit 2 (Some 2%nat) [] s
      (fun l r => m (Chr isSpace) l r
         (fun l r => rep isDigit 4 (Some 5%nat) l r
            (fun l' r' => rep (isChar cHyphen) 0 (Some 1%nat) l' r'
               (fun l'' r'' => rep isDigit 4 (Some 4%nat) l'' r''
                  (fun l3 r3 => match r3 with
                                | [] => Some (length r3)
                                | _ :: _ => None
                                end))))) = Some n) in H.
    apply rep_bounded in H as (a & r1 & -> & Ha & Hla & H). cbn beta in H.
    chr H c1 r2 E1.
    apply subscriber_sound in H as [Hd Hl].
    rewrite normalizePhone_app, (normalizePhone_digits a Ha).
    rewrite (normalizePhone_separator c1) by (apply space_separator, E1).
    split; [apply Forall_app_2; assumption|].
    left. rewrite length_app. lia.
  - cbn [m] in H. change (m (Chr (isChar cPlus)) [] s
      (fun l r => m (Chr (isChar 53)) l r
         (fun l r => m (Chr (isChar 53)) l r
            (fun l r => m (Chr isSpace) l r
               (fun l r => rep isDigit 2 (Some 2%nat) l r
                  (fun l r => m (Chr isSpace) l r
                     (fun l r => rep isDigit 4 (Some 5%nat) l r
                        (fun l' r' => rep (isChar cHyphen) 0 (Some 1%nat) l' r'
                           (fun l'' r'' => rep isDigit 4 (Some 4%nat) l'' r''
                              (fun l3 r3 => match r3 with
                                            | [] => Some (length r3)
                                            | _ :: _ => None
                                            end))))))))) = Some n) in H.
    chr H c0 r0 E0. chr H c1 r1 E1. chr H c2 r2 E2. chr H c3 r3 E3.
    apply rep_bounded in H as (a & r4 & -> & Ha & Hla & H). cbn beta in H.
    chr H c4 r5 E4.
    apply subscriber_sound in H as [Hd Hl].
    apply N.eqb_eq in E0, E1, E2. subst c0 c1 c2.
    rewrite (normalizePhone_separator cPlus) by reflexivity.
    change (normalizePhone (53 :: 53 :: c3 :: a ++ c4 :: r5))
      with (53 :: 53 :: normalizePhone (c3 :: a ++ c4 :: r5)).
    rewrite (normalizePhone_separator c3) by (apply space_separator, E3).
    rewrite normalizePhone_app, (normalizePhone_digits a Ha).
    rewrite (normalizePhone_separator c4) by (apply space_separator, E4).
    split; [repeat constructor; apply Forall_app_2; assumption|].
    right. split; [|reflexivity]. simpl. rewrite length_app. lia.
  - cbn [m between] in H.
    apply rep_bounded in H as (a & r1 & -> & Ha & Hla & H). cbn beta in H.
    destruct r1; [|discriminate]. rewrite app_nil_r.
    rewrite (normalizePhone_digits a Ha). split; [exact Ha | left; exact Hla].
Qed.

Lemma isValidPhone_normalized_witness :
  Forall (fun c => isDigit c = true) (normalizePhone (js "+55 11 98765-4321")) /\
  ((10 <= length (normalizePhone (js "+55 11 98765-4321")) <= 11)%nat \/
   ((12 <= length (normalizePhone (js "+55 11 98765-4321")) <= 13)%nat /\
    take 2 (normalizePhone (js "+55 11 98765-4321")) = [53; 53])).
Proof. apply (isValidPhone_normalized (js "+55 11 98765-4321")). vm_compute. reflexivity. Defined.

Lemma canonicalPhone_trim p : canonicalPhone p -> truthy p = true /\ trim p = p.
Proof.
  intros (a & b & c & -> & Hd & Hla & Hlc & _ & Hb).
  apply Forall_app in Hd as [Ha Hd]. apply Forall_app in Hd as [Hb' Hc].
  split; [reflexivity|]. apply trim_id; [reflexivity|].
  rewrite !rev_app_distr, <- !app_assoc.
  destruct (rev c) as [|x r] eqn:E.
  - apply (f_equal (@length N)) in E. rewrite length_rev in E. simpl in E. lia.
  - simpl. apply digit_not_space. rewrite Forall_forall in Hc. apply Hc.
    apply elem_of_rev. rewrite E. left.
Qed.

Lemma canonicalPhone_isValidPhone p : canonicalPhone p -> isValidPhone p = true.
Proof.
  intros Hp. unfold isValidPhone.
  destruct (canonicalPhone_trim p Hp) as [Ht ->]. rewrite Ht.
  destruct Hp as (a & b & c & -> & Hd & Hla & Hlc & _ & Hb).
  apply Forall_app in Hd as [Ha Hd]. apply Forall_app in Hd as [Hb' Hc].
  assert (Hlb : (4 <= length b <= 5)%nat) by (destruct Hb as [[-> _]|[-> _]]; lia).
  cbn [app negb]. apply existsb_exists. exists phonePattern1.
  split; [left; reflexivity|].
  unfold phonePattern1. cbn [cat fold_right]. rewrite test_Bos.
  assert (Hm : m (Seq (Chr (isChar cLParen))
           (Seq (times 2 isDigit) (Seq (Chr (isChar cRParen)) (Seq (opt isSpace)
             (Seq (between 4 5 isDigit) (Seq (opt (isChar cHyphen))
               (Seq (times 4 isDigit) (Seq Eos Eps))))))))
           [] (cLParen :: a ++ cRParen :: cSpace :: b ++ cHyphen :: c ++ [])
           (fun _ r' => Some (length r')) = Some 0%nat).
  { cbn [m app]. change (isChar cLParen cLParen) with true. cbv iota.
    apply rep_greedy; [exact Ha | lia | intros h [= <-]; lia | right; f_equal; lia |].
    cbn [m app]. change (isChar cRParen cRParen) with true. cbv iota.
    apply (rep_greedy isSpace 0 (Some 1%nat) _ [cSpace]);
      [repeat constructor | simpl; lia | intros h [= <-]; simpl; lia | right; reflexivity |].
    apply rep_greedy; [exact Hb' | lia | intros h [= <-]; lia | left; reflexivity |].
    apply (rep_greedy (isChar cHyphen) 0 (Some 1%nat) _ [cHyphen]);
      [repeat constructor | simpl; lia | intros h [= <-]; simpl; lia | right; reflexivity |].
    apply rep_greedy; [exact Hc | lia | intros h [= <-]; lia | right; f_equal; lia |].
    reflexivity. }
  rewrite app_nil_r in Hm. rewrite Hm. reflexivity.
Qed.

(** X16. What the recognizer formats, the store accepts: every string
    returned by [formatPhone] passes the store's [isValidPhone]. *)
Theorem formatPhone_accepted_by_store (d p : jsstring) :
  formatPhone d = Some p -> isValidPhone p = true.
Proof.
  intros H. apply canonicalPhone_isValidPhone. exact (PhoneMore.formatPhone_shape d p H).
Qed.

Lemma formatPhone_accepted_by_store_witness :
  isValidPhone (js "(11) 98765-4321") = true.
Proof.
  apply (formatPhone_accepted_by_store (js "+55 11 98765 4321")). vm_compute. reflexivity.
Defined.

End StorePhones.

(** ** Splitting and joining *)

Module SplitFacts.

Lemma split_nonempty sep s : split sep s <> [].
Proof.
  induction s as [|c s IH]; simpl; [discriminate|].
  destruct (c =? sep); [discriminate|]. destruct (split sep s); discriminate.
Qed.

Lemma join_cons sep w ws :
  ws <> [] -> join sep (w :: ws) = w ++ sep :: join sep ws.
Proof. destruct ws; [congruence | reflexivity]. Qed.

Lemma join_snoc sep ws w :
  ws <> [] -> join sep (ws ++ [w]) = join sep ws ++ sep :: w.
Proof.
  induction ws as [|x ws IH]; [congruence|]. intros _.
  destruct ws as [|y ws]; [reflexivity|].
  change ((x :: y :: ws) ++ [w]) with (x :: ((y :: ws) ++ [w])).
  rewrite join_cons by discriminate. rewrite IH by discriminate.
  rewrite (join_cons sep x (y :: ws)) by discriminate.
  rewrite <- app_assoc. reflexivity.
Qed.

Lemma join_split sep s : join sep (split sep s) = s.
Proof.
  induction s as [|c s IH]; [reflexivity|]. cbn [split].
  pose proof (split_nonempty sep s) as Hne.
  destruct (N.eqb_spec c sep) as [->|].
  - rewrite join_cons by exact Hne. rewrite IH. reflexivity.
  - destruct (split sep s) as [|w ws]; [congruence|].
    destruct ws as [|w' ws].
    + simpl in *. congruence.
    + rewrite join_cons by discriminate. rewrite join_cons in IH by discriminate.
      rewrite <- IH. reflexivity.
Qed.

Lemma split_no_sep sep s :
  Forall (fun c => (c =? sep) = false) s -> split sep s = [s].
Proof.
  induction 1 as [|c s Hc _ IH]; [reflexivity|]. simpl. rewrite Hc, IH. reflexivity.
Qed.

Lemma split_app_sep_l sep w r :
  Forall (fun c => (c =? sep) = false) w -> split sep (w ++ sep :: r) = w :: split sep r.
Proof.
  induction 1 as [|c w Hc _ IH]; simpl.
  - rewrite N.eqb_refl. reflexivity.
  - rewrite Hc, IH. reflexivity.
Qed.

Lemma split_app_sep sep d t :
  Forall (fun c => (c =? sep) = false) t -> split sep (d ++ sep :: t) = split sep d ++ [t].
Proof.
  intros Ht. induction d as [|c d IH]; simpl.
  - rewrite N.eqb_refl, (split_no_sep sep t Ht). reflexivity.
  - rewrite IH. destruct (c =? sep); [reflexivity|].
    pose proof (split_nonempty sep d). destruct (split sep d); [congruence | reflexivity].
Qed.

Lemma split_join sep parts :
  parts <> [] -> Forall (Forall (fun c => (c =? sep) = false)) parts ->
  split sep (join sep parts) = parts.
Proof.
  induction parts as [|w ws IH]; [congruence|]. intros _ Hf.
  apply Forall_cons in Hf as [Hw Hws].
  destruct ws as [|w' ws]; [apply split_no_sep, Hw|].
  rewrite join_cons by discriminate. rewrite split_app_sep_l by exact Hw.
  rewrite IH; [reflexivity | discriminate | exact Hws].
Qed.

Lemma split_pieces (P : N -> Prop) sep s :
  Forall P s ->
  Forall (Forall (fun c => P c /\ (c =? sep) = false)) (split sep s).
Proof.
  induction 1 as [|c s Hc _ IH]; simpl; [repeat constructor|].
  destruct (c =? sep) eqn:E; [constructor; [constructor | exact IH]|].
  destruct (split sep s) as [|w ws]; [repeat constructor; assumption|].
  apply Forall_cons in IH as [Hw Hws].
  constructor; [constructor; [split; assumption | exact Hw] | exact Hws].
Qed.

Lemma Forall_join (P : N -> Prop) sep parts :
  P sep -> Forall (Forall P) parts -> Forall P (join sep parts).
Proof.
  intros Hsep. induction 1 as [|w ws Hw Hws IH]; [constructor|].
  destruct ws as [|w' ws]; [exact Hw|].
  rewrite join_cons by discriminate. apply Forall_app_2; [exact Hw|].
  constructor; [exact Hsep | exact IH].
Qed.

Lemma startsWith1_app a s t : s <> [] -> startsWith [a] (s ++ t) = startsWith [a] s.
Proof. destruct s; [congruence | reflexivity]. Qed.

Lemma endsWith1_app a s t : t <> [] -> endsWith [a] (s ++ t) = endsWith [a] t.
Proof.
  intros Ht. unfold endsWith. rewrite rev_app_distr. apply startsWith1_app.
  intros E. apply Ht. apply (f_equal (@rev N)) in E. rewrite rev_involutive in E. exact E.
Qed.

Lemma startsWith1_class (p : N -> bool) a s :
  p a = false -> Forall (fun c => p c = true) s -> startsWith [a] s = false.
Proof.
  intros Ha Hs. destruct Hs as [|c s Hc _]; [reflexivity|]. simpl.
  destruct (N.eqb_spec a c) as [->|]; [congruence | reflexivity].
Qed.

Lemma endsWith1_class (p : N -> bool) a s :
  p a = false -> Forall (fun c => p c = true) s -> endsWith [a] s = false.
Proof.
  intros Ha Hs. unfold endsWith. apply (startsWith1_class p); [exact Ha|].
  apply Forall_rev. exact Hs.
Qed.

Lemma existsb_false_iff {A} (f : A -> bool) l :
  existsb f l = false <-> forall x, In x l -> f x = false.
Proof.
  induction l as [|y l IH]; simpl.
  - split; [intros _ x [] | reflexivity].
  - rewrite orb_false_iff, IH. split.
    + intros [Hy Hl] x [<-|Hx]; auto.
    + intros H. split; [apply H; left; reflexivity | intros x Hx; apply H; right; exact Hx].
Qed.

Lemma includes_mid a s t : includes [a] (s ++ a :: t) = true.
Proof.
  induction s as [|c s IH]; cbn [app includes].
  - simpl. rewrite N.eqb_refl. reflexivity.
  - rewrite IH. apply orb_true_r.
Qed.

End SplitFacts.

(** ** PatternMatcher: more on e-mail addresses *)

Module EmailMore.
Import Regex RegexFacts PatternMatcher EmailStages EmailChecks EmailFacts SplitFacts.

Ltac chars :=
  unfold labelClass, localClass, domainClass, DataManager.tldClass, isAlpha, isUpper,
    isLower, isDigit, inRange, isChar, cDot, cAt, cHyphen, cPlus, cBar;
  repeat match goal with
         | |- context [N.leb ?a ?b] => destruct (N.leb_spec a b); try (exfalso; lia)
         | |- context [N.eqb ?a ?b] => destruct (N.eqb_spec a b); try (exfalso; lia)
         end;
  simpl; try reflexivity; try lia; try (intros; discriminate); try (intros; lia).

Lemma local_not_at c : localClass c = true -> (c =? cAt) = false.
Proof. chars. Qed.

Lemma domain_not_at c : domainClass c = true -> (c =? cAt) = false.
Proof. chars. Qed.

Lemma alpha_domain c : isAlpha c = true -> domainClass c = true.
Proof. intros H. unfold domainClass. rewrite H. reflexivity. Qed.

Lemma alpha_not_dot c : isAlpha c = true -> (c =? cDot) = false.
Proof. chars. Qed.

Lemma alpha_label c : isAlpha c = true -> labelClass c = true.
Proof. intros H. unfold labelClass. rewrite H. reflexivity. Qed.

Lemma alpha_tld c : isAlpha c = true -> DataManager.tldClass c = true.
Proof. intros H. unfold DataManager.tldClass. rewrite H. reflexivity. Qed.

Lemma label_domain c : labelClass c = true -> domainClass c = true.
Proof. chars. Qed.

Lemma label_not_dot c : labelClass c = true -> (c =? cDot) = false.
Proof. chars. Qed.

Lemma domain_label c : domainClass c = true /\ (c =? cDot) = false -> labelClass c = true.
Proof. intros [H1 H2]. revert H1 H2. chars. Qed.

Lemma local_range c : localClass c = true -> 37 <= c <= 122.
Proof. chars. Qed.

Lemma range_not_space c : 33 <= c <= 159 -> isSpace c = false.
Proof.
  intros H. unfold isSpace, inRange.
  repeat match goal with
         | |- context [N.leb ?a ?b] => destruct (N.leb_spec a b); try lia
         | |- context [N.eqb ?a ?b] => destruct (N.eqb_spec a b); try lia
         end;
  reflexivity.
Qed.

Lemma local_not_space c : localClass c = true -> isSpace c = false.
Proof. intros H%local_range. apply range_not_space. lia. Qed.

Lemma alpha_not_space c : isAlpha c = true -> isSpace c = false.
Proof. intros H. apply local_not_space. unfold localClass. rewrite H. reflexivity. Qed.

Lemma split_at a b :
  Forall (fun c => (c =? cAt) = false) a -> Forall (fun c => (c =? cAt) = false) b ->
  split cAt (a ++ cAt :: b) = [a; b].
Proof. intros Ha Hb. rewrite split_app_sep_l by exact Ha. rewrite split_no_sep by exact Hb. reflexivity. Qed.

Lemma shape_split loc dom tld :
  emailShape isAlpha (loc ++ cAt :: dom ++ cDot :: tld) loc dom tld ->
  split cAt (loc ++ cAt :: dom ++ cDot :: tld) = [loc; dom ++ cDot :: tld].
Proof.
  intros (_ & Hloc & _ & Hdom & _ & Htld & _). apply split_at.
  - eapply Forall_impl; [exact Hloc|]. apply local_not_at.
  - apply Forall_app_2; [|constructor; [reflexivity|]].
    + eapply Forall_impl; [exact Hdom|]. apply domain_not_at.
    + eapply Forall_impl; [exact Htld|]. intros c Hc. apply domain_not_at, alpha_domain, Hc.
Qed.

Lemma validAddress_sound e : validateEmail e = true -> validAddress e.
Proof.
  rewrite validateEmail_stages. intros [Ht Hr]%andb_true_iff.
  apply emailRegex_shape in Ht as (loc & dom & tld & Hs).
  pose proof Hs as (-> & Hloc & Hl1 & Hdom & Hl2 & Htld & Hl3).
  assert (Hnodot : Forall (fun c => (c =? cDot) = false) tld).
  { eapply Forall_impl; [exact Htld|]. apply alpha_not_dot. }
  revert Hr. unfold emailRules. rewrite (shape_split _ _ _ Hs).
  destruct (Nat.eqb_spec (length loc) 0) as [|_]; [cbn [orb negb]; discriminate|].
  destruct (Nat.ltb_spec 64 (length loc)) as [|H64]; [cbn [orb negb]; discriminate|]. cbn [orb].
  destruct (startsWith [cDot] loc) eqn:E1; [cbn [orb negb]; discriminate|].
  destruct (endsWith [cDot] loc) eqn:E2; [cbn [orb negb]; discriminate|]. cbn [orb].
  destruct (includes [cDot; cDot] loc) eqn:E3; [cbn [orb negb]; discriminate|].
  destruct (Nat.eqb_spec (length (dom ++ cDot :: tld)) 0) as [|_]; [cbn [orb negb]; discriminate|].
  destruct (Nat.ltb_spec 253 (length (dom ++ cDot :: tld))) as [|H253]; [cbn [orb negb]; discriminate|].
  cbn [orb].
  destruct (startsWith [cDot] (dom ++ cDot :: tld) || endsWith [cDot] (dom ++ cDot :: tld) ||
            startsWith [cHyphen] (dom ++ cDot :: tld) ||
            endsWith [cHyphen] (dom ++ cDot :: tld)); [cbn [orb negb]; discriminate|].
  destruct (negb (includes [cDot] (dom ++ cDot :: tld))); [cbn [orb negb]; discriminate|].
  cbv zeta. rewrite (split_app_sep cDot dom tld Hnodot).
  destruct (existsb _ (split cDot dom ++ [tld])) eqn:E7; [cbn [orb negb]; discriminate|]. intros _.
  assert (Hparts : forall part, In part (split cDot dom ++ [tld]) ->
            (1 <= length part <= 63)%nat /\
            startsWith [cHyphen] part = false /\ endsWith [cHyphen] part = false).
  { intros part Hin.
    pose proof (proj1 (existsb_false_iff _ _) E7 part Hin) as Hp. simpl in Hp.
    apply orb_false_iff in Hp as [Hp H4]. apply orb_false_iff in Hp as [Hp H3].
    apply orb_false_iff in Hp as [H1 H2].
    apply Nat.eqb_neq in H1. apply Nat.ltb_ge in H2. repeat split; try assumption; lia. }
  exists loc, (split cDot dom), tld. repeat split; try assumption; try lia.
  - rewrite join_snoc by apply split_nonempty. rewrite join_split. reflexivity.
  - apply split_nonempty.
  - apply Forall_forall. intros part Hin.
    destruct (Hparts part) as (Hlen & Hs1 & Hs2);
      [apply in_or_app; left; apply list_elem_of_In; exact Hin|].
    split; [|repeat split; try assumption; lia].
    pose proof (split_pieces (fun c => domainClass c = true) cDot dom Hdom) as Hp.
    rewrite Forall_forall in Hp. specialize (Hp part Hin).
    eapply Forall_impl; [exact Hp|]. apply domain_label.
  - destruct (Hparts tld) as (Hlen & _); [apply in_or_app; right; left; reflexivity | lia].
  - rewrite join_snoc by apply split_nonempty. rewrite join_split. exact H253.
Qed.

Lemma validAddress_complete e : validAddress e -> validateEmail e = true.
Proof.
  intros (loc & labels & tld & -> & (Hloc & Hl1 & E1 & E2 & E3) & Hne & Hlabels &
          Htld & Hl3 & H253).
  rewrite join_snoc in * by exact Hne.
  set (dom := join cDot labels) in *.
  assert (Hchars : Forall (Forall (fun c => labelClass c = true)) labels).
  { eapply Forall_impl; [exact Hlabels|]. intros part Hp. apply Hp. }
  assert (Hdom : Forall (fun c => domainClass c = true) dom).
  { apply Forall_join; [reflexivity|].
    eapply Forall_impl; [exact Hchars|]. intros part Hp.
    eapply Forall_impl; [exact Hp|]. apply label_domain. }
  destruct labels as [|l1 ls]; [congruence|].
  apply Forall_cons in Hlabels as [(Hc1 & Hlen1 & Hs1 & He1) Hls].
  assert (Hdom1 : exists rest, dom = l1 ++ rest).
  { unfold dom. destruct ls; [exists []; simpl; rewrite app_nil_r; reflexivity|].
    rewrite join_cons by discriminate. eauto. }
  destruct Hdom1 as [rest Edom].
  assert (Hl2 : (1 <= length dom)%nat) by (rewrite Edom, length_app; lia).
  assert (Hs : emailShape isAlpha (loc ++ cAt :: dom ++ cDot :: tld) loc dom tld).
  { repeat split; try assumption; lia. }
  assert (Hnodot : Forall (fun c => (c =? cDot) = false) tld).
  { eapply Forall_impl; [exact Htld|]. apply alpha_not_dot. }
  assert (Hl1ne : l1 <> []) by (intros ->; simpl in Hlen1; lia).
  assert (Htldne : cDot :: tld <> []) by discriminate.
  rewrite validateEmail_stages. apply andb_true_iff. split.
  - apply emailRegex_shape. eauto.
  - unfold emailRules. rewrite (shape_split _ _ _ Hs).
    destruct (Nat.eqb_spec (length loc) 0) as [|_]; [lia|].
    destruct (Nat.ltb_spec 64 (length loc)) as [|_]; [lia|]. cbn [orb].
    rewrite E1, E2, E3. cbn [orb].
    destruct (Nat.eqb_spec (length (dom ++ cDot :: tld)) 0) as [E0|_];
      [rewrite length_app in E0; simpl in E0; lia|].
    destruct (Nat.ltb_spec 253 (length (dom ++ cDot :: tld))) as [|_]; [lia|].
    cbn [orb].
    assert (startsWith [cDot] (dom ++ cDot :: tld) = false) as ->.
    { rewrite Edom, <- app_assoc, startsWith1_app by exact Hl1ne.
      apply (startsWith1_class labelClass); [reflexivity | exact Hc1]. }
    assert (startsWith [cHyphen] (dom ++ cDot :: tld) = false) as ->.
    { rewrite Edom, <- app_assoc, startsWith1_app by exact Hl1ne. exact Hs1. }
    assert (Hend : forall a, isAlpha a = false -> endsWith [a] (dom ++ cDot :: tld) = false).
    { intros a Ha. change (dom ++ cDot :: tld) with (dom ++ [cDot] ++ tld).
      rewrite app_assoc, endsWith1_app.
      - apply (endsWith1_class isAlpha); assumption.
      - intros ->. simpl in Hl3. lia. }
    rewrite (Hend cDot eq_refl), (Hend cHyphen eq_refl). cbn [orb].
    rewrite includes_mid. cbn [negb]. cbv zeta.
    rewrite (split_app_sep cDot dom tld Hnodot).
    assert (Esplit : split cDot dom = l1 :: ls).
    { unfold dom. apply split_join; [discriminate|].
      eapply Forall_impl; [exact Hchars|]. intros part Hp.
      eapply Forall_impl; [exact Hp|]. apply label_not_dot. }
    rewrite Esplit.
    assert (existsb
              (fun part => (length part =? 0)%nat || (63 <? length part)%nat ||
                           startsWith [cHyphen] part || endsWith [cHyphen] part)
              ((l1 :: ls) ++ [tld]) = false) as ->.
    { apply existsb_false_iff. intros part Hin.
      assert (Hok : (1 <= length part <= 63)%nat /\
                    startsWith [cHyphen] part = false /\ endsWith [cHyphen] part = false).
      { apply in_app_or in Hin as [Hin | [<- | []]].
        - destruct Hin as [<- | Hin]; [auto|].
          rewrite Forall_forall in Hls. apply list_elem_of_In in Hin.
          destruct (Hls part Hin) as (_ & ? & ? & ?). auto.
        - repeat split; try lia.
          + apply (startsWith1_class isAlpha); [reflexivity | exact Htld].
          + apply (endsWith1_class isAlpha); [reflexivity | exact Htld]. }
      destruct Hok as (Hlen & -> & ->).
      destruct (Nat.eqb_spec (length part) 0) as [|_]; [lia|].
      destruct (Nat.ltb_spec 63 (length part)) as [|_]; [lia|]. reflexivity. }
    rewrite List.last_last.
    destruct (Nat.ltb_spec (length tld) 2) as [|_]; [lia | reflexivity].
Qed.

(** X17. [validateEmail] accepts exactly the addresses
    [local@label. ... .label.tld] where the local part has 1 to 64
    characters of [[A-Za-z0-9._%+-]], no dot at either end and no two
    dots in a row; every label has 1 to 63 characters of [[A-Za-z0-9-]]
    and no hyphen at either end; there is at least one label before the
    last part, which has 2 to 63 letters; and the domain has at most 253
    characters. *)
Theorem validateEmail_iff (e : jsstring) :
  validateEmail e = true <-> validAddress e.
Proof. split; [apply validAddress_sound | apply validAddress_complete]. Qed.

Lemma emailShape_trim e loc dom tld :
  emailShape isAlpha e loc dom tld -> truthy e = true /\ trim e = e.
Proof.
  intros (-> & Hloc & Hl1 & Hdom & Hl2 & Htld & Hl3).
  destruct Hloc as [|c loc Hc _]; [simpl in Hl1; lia|].
  split; [reflexivity|]. apply RegexMore.trim_id.
  - simpl. apply local_not_space, Hc.
  - change ((c :: loc) ++ cAt :: dom ++ cDot :: tld)
      with ((c :: loc) ++ (cAt :: dom) ++ (cDot :: tld)).
    rewrite !app_assoc, rev_app_distr. simpl rev at 1.
    destruct (rev tld) as [|x r] eqn:E.
    + apply (f_equal (@length N)) in E. rewrite length_rev in E. simpl in E. lia.
    + simpl. apply alpha_not_space. rewrite Forall_forall in Htld. apply Htld.
      apply DuplicateFacts.elem_of_rev. rewrite E. left.
Qed.

Lemma emailShape_isValidEmail e loc dom tld :
  emailShape isAlpha e loc dom tld -> DataManager.isValidEmail e = true.
Proof.
  intros Hs. unfold DataManager.isValidEmail.
  destruct (emailShape_trim _ _ _ _ Hs) as [_ ->].
  pose proof Hs as (-> & Hloc & Hl1 & Hdom & Hl2 & Htld & Hl3).
  unfold DataManager.emailRegex. cbn [cat fold_right]. rewrite test_Bos.
  assert (Hm : m (cat [plus localClass; Chr (isChar cAt); plus domainClass;
                       Chr (isChar cDot); atLeast 2 DataManager.tldClass]) []
                 (loc ++ cAt :: dom ++ cDot :: tld)
                 (fun l r => m (Seq Eos Eps) l r (fun _ r' => Some (length r'))) =
               Some 0%nat).
  { apply core_complete; [| | |reflexivity].
    - repeat split; try assumption.
      eapply Forall_impl; [exact Htld|]. apply alpha_tld.
    - eapply Forall_impl; [exact Htld|]. apply alpha_domain.
    - eapply Forall_impl; [exact Htld|]. apply alpha_not_dot. }
  cbn [m cat fold_right plus atLeast] in Hm |- *. rewrite Hm. reflexivity.
Qed.

(** X18. What the recognizer validates, the store accepts: every
    address that passes [validateEmail] passes the store's
    [isValidEmail]. *)
Theorem validateEmail_accepted_by_store (e : jsstring) :
  validateEmail e = true -> DataManager.isValidEmail e = true.
Proof.
  rewrite validateEmail_stages. intros [Ht _]%andb_true_iff.
  apply emailRegex_shape in Ht as (loc & dom & tld & Hs).
  exact (emailShape_isValidEmail _ _ _ _ Hs).
Qed.

Lemma validateEmail_accepted_by_store_witness :
  DataManager.isValidEmail (js "test+tag@example.co.uk") = true.
Proof.
  apply (validateEmail_accepted_by_store (js "test+tag@example.co.uk")).
  vm_compute. reflexivity.
Defined.

Lemma lowerUnit_idem c : lowerUnit (lowerUnit c) = lowerUnit c.
Proof.
  lower_cases c; try reflexivity; unfold lowerUnit, isUpper, inRange;
    repeat match goal with
           | |- context [N.leb ?a ?b] => destruct (N.leb_spec a b); try lia
           | |- context [N.eqb ?a ?b] => destruct (N.eqb_spec a b); try lia
           end; reflexivity.
Qed.

Lemma toLowerCase_idem s : toLowerCase (toLowerCase s) = toLowerCase s.
Proof.
  unfold toLowerCase. rewrite List.map_map. apply List.map_ext. apply lowerUnit_idem.
Qed.

Lemma matchAllFrom_substring re skip l r mt :
  In mt (matchAllFrom re skip l r) -> substringOf mt r.
Proof.
  revert skip l. induction r as [|c r IH]; intros skip l.
  - destruct skip; simpl; [|intros []].
    destruct (matchAt re l []); [|intros []]. simpl.
    intros [<-|[]]. exists [], []. reflexivity.
  - assert (Hlater : forall n, In mt (matchAllFrom re n (c :: l) r) -> substringOf mt (c :: r)).
    { intros n (pre & post & ->)%IH. exists (c :: pre), post. reflexivity. }
    destruct skip; simpl; [|apply Hlater].
    destruct (matchAt re l (c :: r)) as [rest|]; [|apply Hlater].
    intros [<-|Hin]; [|exact (Hlater _ Hin)].
    exists [], (drop (length (c :: r) - rest) (c :: r)).
    simpl app. symmetry. apply take_drop.
Qed.

Lemma pushEmail_fold (Q : jsstring -> Prop) matches acc :
  Forall Q matches ->
  Forall (fun e => validateEmail e = true) acc /\ NoDup acc /\
  Forall (fun e => exists mt, Q mt /\ e = toLowerCase mt) acc ->
  Forall (fun e => validateEmail e = true) (fold_left pushEmail matches acc) /\
  NoDup (fold_left pushEmail matches acc) /\
  Forall (fun e => exists mt, Q mt /\ e = toLowerCase mt) (fold_left pushEmail matches acc).
Proof.
  intros HQ. revert acc. induction HQ as [|mt matches Hmt _ IH]; intros acc Hacc;
    [exact Hacc|].
  simpl. apply IH. destruct Hacc as (Hv & Hn & Hs). unfold pushEmail.
  destruct (validateEmail (toLowerCase mt)) eqn:Ev; [|auto].
  destruct (arrIncludes (toLowerCase mt) acc) eqn:Ei; [auto|]. simpl.
  repeat split.
  - apply Forall_app_2; [exact Hv | repeat constructor; exact Ev].
  - apply NoDup_app. repeat split; [exact Hn | | apply NoDup_singleton].
    intros x Hx ->%list_elem_of_singleton.
    apply arrIncludes_true in Hx. congruence.
  - apply Forall_app_2; [exact Hs | repeat constructor]. eauto.
Qed.

Lemma extractEmails_valid text :
  Forall (fun e => validateEmail e = true) (extractEmails text).
Proof.
  unfold extractEmails. destruct (truthy text); simpl negb; cbv iota; [|constructor].
  apply (pushEmail_fold (fun _ => True)); [apply Forall_true; auto|].
  repeat split; constructor.
Qed.

(** X19. For every text, the addresses that [extractEmails] returns
    pass [validateEmail], are pairwise different, are in lower case, and
    each is the lower-case form of a substring of the text. *)
Theorem extractEmails_spec (text : jsstring) :
  Forall (fun e => validateEmail e = true) (extractEmails text) /\
  NoDup (extractEmails text) /\
  Forall (fun e => toLowerCase e = e) (extractEmails text) /\
  Forall (fun e => exists mt, substringOf mt text /\ e = toLowerCase mt) (extractEmails text).
Proof.
  unfold extractEmails. destruct (truthy text); simpl negb; cbv iota;
    [|repeat split; constructor].
  destruct (pushEmail_fold (fun mt => substringOf mt text) (matchAll EMAIL_PATTERN text) [])
    as (Hv & Hn & Hs).
  - apply Forall_forall. intros mt Hin. apply list_elem_of_In in Hin.
    exact (matchAllFrom_substring _ _ _ _ _ Hin).
  - repeat split; constructor.
  - repeat split; try assumption.
    eapply Forall_impl; [exact Hs|]. intros e (mt & _ & ->). apply toLowerCase_idem.
Qed.

End EmailMore.

(** ** startExtraction *)

Module ExtractionFacts.
Import DataManager StoreStages StoreMore WebDataExtractor Examples.

Lemma validateContact_fields a b :
  name a = name b -> phone a = phone b -> email a = email b ->
  validateContact a = validateContact b.
Proof.
  intros Hn Hp He. unfold validateContact, hasPhone, hasEmail.
  rewrite Hn, Hp, He. reflexivity.
Qed.

Lemma validateContact_stamped now c : validateContact (stamped now c) = validateContact c.
Proof. destruct (stamped_fields now c) as (Hn & Hp & He & _). apply validateContact_fields; assumption. Qed.

Lemma duplicates_stamped now d c : duplicates d (stamped now c) = duplicates d c.
Proof.
  destruct (stamped_fields now c) as (Hn & Hp & He & _).
  apply DuplicateFacts.duplicates_fields; assumption.
Qed.

Lemma isDuplicateInArray_app c l1 l2 :
  isDuplicateInArray c (l1 ++ l2) = isDuplicateInArray c l1 || isDuplicateInArray c l2.
Proof. apply existsb_app. Qed.

(** The loop of [startExtraction]. *)
Lemma addScanned_spec clock scanned : forall i st,
  contacts st.1 = st.2 -> duplicateFree st.2 ->
  Forall (fun c => validateContact c = true) st.2 ->
  contacts (addScanned clock i scanned st).1 = (addScanned clock i scanned st).2 /\
  duplicateFree (addScanned clock i scanned st).2 /\
  Forall (fun c => validateContact c = true) (addScanned clock i scanned st).2 /\
  sessionItem (addScanned clock i scanned st).1 = sessionItem st.1 /\
  (exists new kept, (addScanned clock i scanned st).2 = st.2 ++ new /\
                    kept `sublist_of` scanned /\ Forall2 sameFields new kept) /\
  (forall c, c ∈ scanned -> validateContact c = true ->
             isDuplicateInArray c (addScanned clock i scanned st).2 = true).
Proof.
  induction scanned as [|c rest IH]; intros i st Hc Hd Hv.
  - simpl. repeat split; try assumption.
    + exists [], []. rewrite app_nil_r. repeat split; constructor.
    + intros x Hx. inversion Hx.
  - cbn [addScanned]. rewrite addContact_result.
    destruct (validateContact c && negb (isDuplicate c st.1)) eqn:E; cbn [fst snd].
    + apply andb_true_iff in E as [Ev Ed]. apply negb_true_iff in Ed.
      cbn [saveToStorage contacts]. rewrite List.last_last.
      match goal with |- context [addScanned clock (S i) rest ?s] => set (st' := s) end.
      destruct (IH (S i) st') as (Hc' & Hd' & Hv' & Hse & (new & kept & En & Hk & Hf) & Hall).
      * unfold st'. simpl. rewrite Hc. reflexivity.
      * unfold st'. cbn [snd]. apply duplicateFree_snoc; [exact Hd|].
        unfold isDuplicate, isDuplicateInArray in Ed. rewrite Hc in Ed.
        apply existsb_false_Forall in Ed.
        eapply Forall_impl; [exact Ed|]. intros a Ha. cbv beta in *.
        rewrite duplicates_stamped, duplicates_sym. exact Ha.
      * unfold st'. cbn [snd]. apply Forall_app_2; [exact Hv|].
        repeat constructor. rewrite validateContact_stamped. exact Ev.
      * repeat split; try assumption.
        -- exists (stamped (clock i) c :: new), (c :: kept). repeat split.
           ++ rewrite En. unfold st'. cbn [snd]. rewrite <- app_assoc. reflexivity.
           ++ apply sublist_skip, Hk.
           ++ constructor; [|exact Hf].
              destruct (stamped_fields (clock i) c) as (? & ? & ? & ?). repeat split; assumption.
        -- intros x [->|Hx]%elem_of_cons Hxv; [|exact (Hall x Hx Hxv)].
           rewrite En. unfold st'. cbn [snd].
           rewrite !isDuplicateInArray_app. simpl.
           rewrite duplicates_stamped, duplicates_self by apply validateContact_method, Hxv.
           rewrite orb_true_r. reflexivity.
    + destruct (IH (S i) st Hc Hd Hv)
        as (Hc' & Hd' & Hv' & Hse & (new & kept & En & Hk & Hf) & Hall).
      repeat split; try assumption.
      * exists new, kept. repeat split; try assumption. apply sublist_cons, Hk.
      * intros x [->|Hx]%elem_of_cons Hxv; [|exact (Hall x Hx Hxv)].
        rewrite Hxv in E. simpl in E. apply negb_false_iff in E.
        unfold isDuplicate in E. rewrite Hc in E.
        rewrite En, isDuplicateInArray_app, E. reflexivity.
Qed.

Lemma neverThrows_setItemFails dm : neverThrows dm -> setItemFails dm = false.
Proof.
  unfold neverThrows, setItemFails. intros H.
  destruct (setItemThrows dm) as [|[] l]; [reflexivity| |reflexivity].
  apply Forall_cons_1 in H as [H _]. discriminate H.
Qed.

Lemma neverThrows_saveToStorage dm : neverThrows dm -> neverThrows (saveToStorage dm).
Proof.
  unfold neverThrows, saveToStorage. simpl. intros H.
  destruct (setItemThrows dm) as [|b l]; [exact H|]. apply Forall_cons_1 in H as [_ H]. exact H.
Qed.

(** The loop keeps the item of the contacts in step with the array as
    long as no [setItem] throws. *)
Lemma addScanned_inSync clock scanned : forall i st,
  neverThrows st.1 -> inSync st.1 ->
  neverThrows (addScanned clock i scanned st).1 /\ inSync (addScanned clock i scanned st).1.
Proof.
  induction scanned as [|c rest IH]; intros i st Hn Hs; [split; assumption|].
  cbn [addScanned]. rewrite addContact_result.
  destruct (validateContact c && negb (isDuplicate c st.1)); cbn [fst snd].
  - apply IH; cbn [fst].
    + apply neverThrows_saveToStorage. exact Hn.
    + apply PersistenceFacts.saveToStorage_inSync, neverThrows_setItemFails. exact Hn.
  - apply IH; assumption.
Qed.

Lemma length_sliceTo {A : Type} (finish : Z) (l : list A) :
  (0 < finish -> Z.of_nat (length (sliceTo finish l)) <= finish)%Z /\
  (finish < 0 ->
   Z.of_nat (length (sliceTo finish l)) = Z.max 0 (Z.of_nat (length l) + finish))%Z.
Proof.
  unfold sliceTo. split; intros H.
  - destruct (Z.ltb_spec finish 0); [lia|]. rewrite length_take. lia.
  - destruct (Z.ltb_spec finish 0); [|lia]. rewrite length_take. lia.
Qed.

(** X20. After [startExtraction] the store holds exactly the array
    [addedContacts] that is returned, whatever the store held before.
    The records offered to [addContact] are those of
    [scanned.slice(0, maxContacts || 100)]: at most that many are added
    for a positive bound, and for a negative one at most as many as the
    scan has beyond the bound.  Each record added passes
    [validateContact], no two of them are duplicates of each other, and
    in name, phone, e-mail and source they are, in order, records of the
    slice.  Every valid record of the slice that is not added is a
    duplicate of a record that is.  When no [setItem] throws, the item in
    [localStorage] is the image of the array and the saved session is the
    snapshot of it; when [setItem] throws in [saveSession], the session
    of before stays, which [clearAll] does not remove. *)
Theorem startExtraction_spec (maxContacts : option Z) (clock : nat -> Z) (saveTime : Z)
        (url : jsstring) (scanned : list ContactData) (dm : State) :
  let r := startExtraction maxContacts clock saveTime url scanned dm in
  let offered := sliceTo (contactLimit maxContacts) scanned in
  contacts r.1 = r.2 /\
  (length r.2 <= length offered)%nat /\
  ((0 < contactLimit maxContacts)%Z ->
   (Z.of_nat (length r.2) <= contactLimit maxContacts)%Z) /\
  ((contactLimit maxContacts < 0)%Z ->
   (Z.of_nat (length r.2) <=
    Z.max 0 (Z.of_nat (length scanned) + contactLimit maxContacts))%Z) /\
  Forall (fun c => validateContact c = true) r.2 /\
  duplicateFree r.2 /\
  (exists kept, kept `sublist_of` offered /\ Forall2 sameFields r.2 kept) /\
  (forall c, c ∈ offered -> validateContact c = true ->
             isDuplicateInArray c r.2 = true) /\
  (neverThrows dm ->
   inSync r.1 /\
   sessionItem r.1 = Some (mkSession (List.map toStored r.2) (Some saveTime) url)) /\
  (sessionItem r.1 = Some (mkSession (List.map toStored r.2) (Some saveTime) url) \/
   sessionItem r.1 = sessionItem dm).
Proof.
  cbv zeta. unfold startExtraction. cbv zeta. cbn [fst snd].
  set (offered := sliceTo (contactLimit maxContacts) scanned).
  destruct (addScanned_spec clock offered 0 (clearAll dm, []) eq_refl I (Forall_nil_2 _))
    as (Hc & Hd & Hv & Hse & (new & kept & En & Hk & Hf) & Hall).
  cbn [snd app] in En.
  assert (Hlen : (length (addScanned clock 0 offered (clearAll dm, [])).2 <= length offered)%nat).
  { rewrite En, (Forall2_length _ _ _ Hf). apply sublist_length, Hk. }
  destruct (length_sliceTo (contactLimit maxContacts) scanned) as [Hpos Hneg].
  fold offered in Hpos, Hneg.
  refine (conj Hc (conj Hlen (conj _ (conj _ (conj Hv (conj Hd (conj _ (conj Hall (conj _ _))))))))).
  - intros H. specialize (Hpos H). lia.
  - intros H. specialize (Hneg H). lia.
  - exists kept. split; [exact Hk|]. rewrite En. exact Hf.
  - intros Hn.
    destruct (addScanned_inSync clock offered 0 (clearAll dm, [])) as [Hn' Hs'].
    + cbn [fst]. unfold clearAll. apply neverThrows_saveToStorage. exact Hn.
    + cbn [fst]. unfold clearAll.
      apply PersistenceFacts.saveToStorage_inSync, neverThrows_setItemFails. exact Hn.
    + split; [exact Hs'|].
      rewrite PersistenceFacts.saveSession_item, (neverThrows_setItemFails _ Hn'), Hc.
      reflexivity.
  - rewrite PersistenceFacts.saveSession_item.
    destruct (setItemFails _); [right | left].
    + rewrite Hse. reflexivity.
    + rewrite Hc. reflexivity.
Qed.

Lemma startExtraction_spec_witness :
  inSync (startExtraction (Some 1%Z) (fun _ => 7%Z) 9 page [fullRecord; mariaRecord]
            sessionState).1.
Proof.
  destruct (startExtraction_spec (Some 1%Z) (fun _ => 7%Z) 9 page [fullRecord; mariaRecord]
              sessionState) as (_ & _ & _ & _ & _ & _ & _ & _ & H & _).
  destruct H as [H _]; [|exact H]. constructor.
Defined.

End ExtractionFacts.

(** ** DOMScanner: the records of a block of text *)

Module ScanFacts.
Import DOMScanner DedupStages ScanChecks Examples.

Lemma itemOrEmpty_cases arr i : itemOrEmpty arr i = [] \/ itemOrEmpty arr i ∈ arr.
Proof.
  unfold itemOrEmpty. destruct (arr !! i) as [x|] eqn:E; [right | left; reflexivity].
  apply list_elem_of_lookup. eauto.
Qed.

Lemma itemOrEmpty_in arr i : (i < length arr)%nat -> itemOrEmpty arr i ∈ arr.
Proof.
  intros H. unfold itemOrEmpty. destruct (arr !! i) as [x|] eqn:E.
  - apply list_elem_of_lookup. eauto.
  - apply lookup_ge_None in E. lia.
Qed.

Lemma itemOrEmpty_nil i : itemOrEmpty [] i = [].
Proof. reflexivity. Qed.

Lemma filter_nil_all {A} (f : A -> bool) l :
  (forall x, In x l -> f x = false) -> List.filter f l = [].
Proof.
  induction l as [|x l IH]; intros H; simpl; [reflexivity|].
  rewrite (H x) by (left; reflexivity). apply IH. intros y Hy. apply H. right. exact Hy.
Qed.

Lemma length_zero {A} (l : list A) : (length l =? 0)%nat = true <-> l = [].
Proof. destruct l; simpl; split; congruence. Qed.

Lemma matchContactData_facts (names phones emails : list jsstring)
        (source : jsstring) (now : Z) :
  let out := matchContactData names phones emails source now in
  (out = [] <-> phones = [] /\ emails = []) /\
  Forall (fromLists names phones emails source now) out /\
  (names = [] ->
   out = List.map (fun e => mkContact [] [] e source (DateAt now)) emails ++
         List.map (fun p => mkContact [] p [] source (DateAt now)) phones) /\
  (Forall (fun n => truthy n = true) names ->
   Forall (fun c => truthy (name c) = true) out \/ Forall (fun c => name c = []) out) /\
  (Forall (fun p => truthy p = true) phones -> Forall (fun e => truthy e = true) emails ->
   Forall (fun c => truthy (phone c) || truthy (email c) = true) out).
Proof.
  cbv zeta. unfold matchContactData.
  set (mk := fun i => mkContact (itemOrEmpty names i) (itemOrEmpty phones i)
                                (itemOrEmpty emails i) source (DateAt now)).
  assert (Hmk : forall i, fromLists names phones emails source now (mk i)).
  { intros i. unfold fromLists, mk. simpl. repeat split; try reflexivity;
      apply itemOrEmpty_cases. }
  destruct ((length names =? length phones)%nat && (length phones =? length emails)%nat &&
            (0 <? length names)%nat) eqn:E1.
  - apply andb_true_iff in E1 as [E1 Hpos]. apply andb_true_iff in E1 as [Enp Epe].
    apply Nat.eqb_eq in Enp, Epe. apply Nat.ltb_lt in Hpos.
    assert (Hne : List.map mk (seq 0 (length names)) <> []).
    { destruct (length names); [lia | discriminate]. }
    refine (conj (conj _ _) (conj _ (conj _ (conj _ _)))).
    + intros H. contradiction.
    + intros [-> _]. simpl in *. lia.
    + apply Forall_forall. intros c (i & <- & _)%list_elem_of_In%in_map_iff. apply Hmk.
    + intros ->. simpl in Hpos. lia.
    + intros Hn. left. apply Forall_forall.
      intros c (i & <- & Hi%in_seq)%list_elem_of_In%in_map_iff. simpl.
      rewrite Forall_forall in Hn. apply Hn, itemOrEmpty_in. lia.
    + intros Hp _. apply Forall_forall.
      intros c (i & <- & Hi%in_seq)%list_elem_of_In%in_map_iff. simpl.
      rewrite Forall_forall in Hp. rewrite (Hp (itemOrEmpty phones i)); [reflexivity|].
      apply itemOrEmpty_in. lia.
  - clear E1.
    set (maxLength := Nat.max (Nat.max (length names) (length phones)) (length emails)).
    set (keep := fun c : ContactData =>
                   truthy (name c) && (truthy (phone c) || truthy (email c))).
    destruct (length (List.filter keep (List.map mk (seq 0 maxLength))) =? 0)%nat eqn:E2.
    + refine (conj (conj _ _) (conj _ (conj _ (conj _ _)))).
      * intros [H1 H2]%app_eq_nil. apply map_eq_nil in H1, H2. auto.
      * intros [-> ->]. reflexivity.
      * apply Forall_app_2; apply Forall_forall;
          intros c (x & <- & Hx)%list_elem_of_In%in_map_iff;
          apply list_elem_of_In in Hx; unfold fromLists; simpl; auto 10.
      * intros _. reflexivity.
      * intros Hn. right. apply Forall_app_2; apply Forall_forall;
          intros c (x & <- & Hx)%list_elem_of_In%in_map_iff; reflexivity.
      * intros Hp He. apply Forall_app_2; apply Forall_forall;
          intros c (x & <- & Hx)%list_elem_of_In%in_map_iff; simpl.
        -- rewrite Forall_forall in He. apply He, list_elem_of_In, Hx.
        -- rewrite Forall_forall in Hp. rewrite (Hp x) by (apply list_elem_of_In, Hx).
           reflexivity.
    + assert (Hne : List.filter keep (List.map mk (seq 0 maxLength)) <> []).
      { intros H. rewrite H in E2. discriminate. }
      assert (Hkeep : Forall (fun c => keep c = true)
                             (List.filter keep (List.map mk (seq 0 maxLength)))).
      { apply Forall_forall. intros c Hc%list_elem_of_In%filter_In. apply Hc. }
      refine (conj (conj _ _) (conj _ (conj _ (conj _ _)))).
      * intros H. contradiction.
      * intros [-> ->]. exfalso. apply Hne. apply filter_nil_all.
        intros c (i & <- & _)%in_map_iff. unfold keep, mk. simpl.
        apply andb_false_r.
      * apply Forall_forall. intros c [(i & <- & _)%in_map_iff _]%list_elem_of_In%filter_In.
        apply Hmk.
      * intros ->. exfalso. apply Hne. apply filter_nil_all.
        intros c (i & <- & _)%in_map_iff. reflexivity.
      * intros _. left. eapply Forall_impl; [exact Hkeep|].
        intros c [H _]%andb_true_iff. exact H.
      * intros _ _. eapply Forall_impl; [exact Hkeep|].
        intros c [_ H]%andb_true_iff. exact H.
Qed.

(** X21. [matchContactData] returns no record exactly when there is
    neither a phone nor an e-mail: names alone give nothing.  Every
    record has the page address and the instant of the call, and each of
    its fields is empty or an element of the array for that field.
    Without names, every e-mail and then every phone gives a record of
    its own, with no name.  When the names are non-empty strings, either
    every record has a name or none has; when the phones and e-mails are
    non-empty strings, every record has a phone or an e-mail. *)
Theorem matchContactData_spec (names phones emails : list jsstring)
        (source : jsstring) (now : Z) :
  let out := matchContactData names phones emails source now in
  (out = [] <-> phones = [] /\ emails = []) /\
  Forall (fromLists names phones emails source now) out /\
  (names = [] ->
   out = List.map (fun e => mkContact [] [] e source (DateAt now)) emails ++
         List.map (fun p => mkContact [] p [] source (DateAt now)) phones) /\
  (Forall (fun n => truthy n = true) names ->
   Forall (fun c => truthy (name c) = true) out \/ Forall (fun c => name c = []) out) /\
  (Forall (fun p => truthy p = true) phones -> Forall (fun e => truthy e = true) emails ->
   Forall (fun c => truthy (phone c) || truthy (email c) = true) out).
Proof. apply matchContactData_facts. Qed.

(** *** The loop of [removeDuplicateContacts] *)

Lemma mergeFirst_Some x unique unique' :
  mergeFirst x unique = Some unique' ->
  exists pre e post, unique = pre ++ e :: post /\ unique' = pre ++ mergeInto e x :: post /\
                     partialMatch x e = true.
Proof.
  revert unique'. induction unique as [|e unique IH]; intros unique'; simpl; [discriminate|].
  destruct (partialMatch x e) eqn:Em.
  - intros [= <-]. exists [], e, unique. auto.
  - destruct (mergeFirst x unique) as [rest|]; [|discriminate].
    intros [= <-]. destruct (IH rest eq_refl) as (pre & e' & post & -> & -> & Hm).
    exists (e :: pre), e', post. auto.
Qed.

Lemma mergeFirst_None x unique :
  mergeFirst x unique = None <-> Forall (fun e => partialMatch x e = false) unique.
Proof.
  induction unique as [|e unique IH]; simpl.
  - split; [constructor | reflexivity].
  - destruct (partialMatch x e) eqn:Em.
    + split; [discriminate|]. intros H%Forall_cons. destruct H. congruence.
    + destruct (mergeFirst x unique).
      * split; [discriminate|]. intros [_ H]%Forall_cons. apply IH in H. discriminate.
      * split; [|reflexivity]. intros _. constructor; [exact Em | apply IH; reflexivity].
Qed.

(** The three outcomes of one turn of the loop. *)
Lemma dedupStep_cases st x :
  (dedupKey x ∈ st.1 /\ dedupStep st x = st) \/
  (exists pre e post, st.2 = pre ++ e :: post /\ partialMatch x e = true /\
                      dedupStep st x = (st.1, pre ++ mergeInto e x :: post)) \/
  ((dedupKey x ∉ st.1) /\ Forall (fun e => partialMatch x e = false) st.2 /\
   dedupStep st x = ({[ dedupKey x ]} ∪ st.1, st.2 ++ [x])).
Proof.
  unfold dedupStep. destruct (bool_decide_reflect (dedupKey x ∈ st.1)) as [|Hk]; [left; auto|].
  right. destruct (mergeFirst x st.2) as [unique'|] eqn:E.
  - left. apply mergeFirst_Some in E as (pre & e & post & E1 & -> & Hm). eauto 10.
  - right. apply mergeFirst_None in E. auto.
Qed.

Lemma completes_refl c : completes c c.
Proof. unfold completes. auto. Qed.

Lemma completes_mergeInto u x c : completes u c -> completes (mergeInto u x) c.
Proof.
  intros (Hn & Hp & He & Hs & Ht). unfold completes. simpl.
  repeat split; try assumption; intros H.
  - rewrite (Hn H), H. reflexivity.
  - rewrite (Hp H), H. reflexivity.
  - rewrite (He H), H. reflexivity.
Qed.

Lemma drawnFrom_mono l l' u : (forall c, c ∈ l -> c ∈ l') -> drawnFrom l u -> drawnFrom l' u.
Proof.
  intros Hsub (Hn & Hp & He).
  repeat split;
    [destruct Hn as [|(c & Hc & E)] | destruct Hp as [|(c & Hc & E)] |
     destruct He as [|(c & Hc & E)]]; eauto.
Qed.

Lemma drawnFrom_self l c : c ∈ l -> drawnFrom l c.
Proof. intros H. repeat split; right; eauto. Qed.

Lemma drawnFrom_mergeInto l u x : drawnFrom l u -> x ∈ l -> drawnFrom l (mergeInto u x).
Proof.
  intros (Hn & Hp & He) Hx. unfold drawnFrom. simpl. repeat split.
  - destruct (negb (truthy (name u)) && truthy (name x)); [right; eauto | exact Hn].
  - destruct (negb (truthy (phone u)) && truthy (phone x)); [right; eauto | exact Hp].
  - destruct (negb (truthy (email u)) && truthy (email x)); [right; eauto | exact He].
Qed.

Lemma dedupStep_records l st x :
  Forall (fun u => (exists c, c ∈ l /\ completes u c) /\ drawnFrom l u) st.2 ->
  Forall (fun u => (exists c, c ∈ l ++ [x] /\ completes u c) /\ drawnFrom (l ++ [x]) u)
         (dedupStep st x).2.
Proof.
  intros H.
  assert (Hsub : forall c, c ∈ l -> c ∈ l ++ [x]) by (intros c Hc; apply elem_of_app; auto).
  assert (Hx : x ∈ l ++ [x]) by (apply elem_of_app; right; left).
  assert (H' : Forall (fun u => (exists c, c ∈ l ++ [x] /\ completes u c) /\
                                drawnFrom (l ++ [x]) u) st.2).
  { eapply Forall_impl; [exact H|]. intros u [(c & Hc & Hu) Hd].
    split; [eauto | eapply drawnFrom_mono; eauto]. }
  destruct (dedupStep_cases st x) as [[_ ->] | [(pre & e & post & E & _ & ->) | (_ & _ & ->)]].
  - exact H'.
  - simpl. rewrite E in H'. apply Forall_app in H' as [Hpre Hpost].
    apply Forall_cons in Hpost as [[(c & Hc & Hu) Hd] Hpost].
    apply Forall_app_2; [exact Hpre|]. constructor; [|exact Hpost].
    split; [exists c; split; [exact Hc | apply completes_mergeInto, Hu]|].
    apply drawnFrom_mergeInto; assumption.
  - simpl. apply Forall_app_2; [exact H'|]. constructor; [|constructor]. split.
    + exists x. split; [exact Hx | apply completes_refl].
    + apply drawnFrom_self, Hx.
Qed.

Lemma dedupStep_length st x :
  (length st.2 <= length (dedupStep st x).2 <= S (length st.2))%nat.
Proof.
  destruct (dedupStep_cases st x) as [[_ ->] | [(pre & e & post & E & _ & ->) | (_ & _ & ->)]].
  - lia.
  - simpl. rewrite E, !length_app. simpl. lia.
  - simpl. rewrite length_app. simpl. lia.
Qed.

Lemma dedupState_snoc l x : dedupState (l ++ [x]) = dedupStep (dedupState l) x.
Proof. apply DOMScannerFacts.dedupState_app. Qed.

Lemma dedupState_length l :
  (length (dedupState l).2 <= length l)%nat /\ (l <> [] -> (1 <= length (dedupState l).2)%nat).
Proof.
  induction l as [|x l IH] using rev_ind; [split; [reflexivity | congruence]|].
  rewrite dedupState_snoc, length_app. simpl.
  pose proof (dedupStep_length (dedupState l) x) as Hs. destruct IH as [IH1 IH2].
  split; [lia|]. intros _.
  destruct l as [|y l]; [vm_compute; lia|].
  specialize (IH2 ltac:(discriminate)). lia.
Qed.

(** X22. [removeDuplicateContacts] returns at most as many records as it
    is given, and at least one when it is given any.  Every record of the
    result is a record of the input with some of its empty fields filled:
    the fields that the input record has are unchanged, and so are its
    [source] and [timestamp]; and every field of the result is empty or
    is that field of a record of the input. *)
Theorem removeDuplicateContacts_spec (l : list ContactData) :
  (length (removeDuplicateContacts l) <= length l)%nat /\
  (removeDuplicateContacts l = [] <-> l = []) /\
  Forall (fun u => (exists c, c ∈ l /\ completes u c) /\ drawnFrom l u)
         (removeDuplicateContacts l).
Proof.
  change (removeDuplicateContacts l) with (dedupState l).2.
  destruct (dedupState_length l) as [H1 H2]. split; [exact H1|]. split.
  - split.
    + intros E. destruct l as [|x l]; [reflexivity|].
      specialize (H2 ltac:(discriminate)). rewrite E in H2. simpl in H2. lia.
    + intros ->. reflexivity.
  - clear H1 H2. induction l as [|x l IH] using rev_ind; [constructor|].
    rewrite dedupState_snoc. apply dedupStep_records, IH.
Qed.

(** X23. A record that has the e-mail (up to case) or the phone of a
    record that was kept when it was visited is not kept: the result
    does not grow when it is visited. *)
Theorem later_match_not_kept (l1 l2 : list ContactData) (a b : ContactData) :
  removeDuplicateContacts (l1 ++ [a]) = removeDuplicateContacts l1 ++ [a] ->
  partialMatch b a = true ->
  length (removeDuplicateContacts (l1 ++ a :: l2 ++ [b])) =
  length (removeDuplicateContacts (l1 ++ a :: l2)).
Proof. apply DOMScannerFacts.removeDuplicateContacts_not_both_kept. Qed.

Lemma later_match_not_kept_witness :
  length (removeDuplicateContacts ([] ++ fullRecord :: [mariaRecord] ++ [namedRecord])) =
  length (removeDuplicateContacts ([] ++ fullRecord :: [mariaRecord])).
Proof.
  apply (later_match_not_kept [] [mariaRecord] fullRecord namedRecord);
    vm_compute; reflexivity.
Defined.

Lemma unmatched_fold l : forall seen unique,
  Forall (fun x => (dedupKey x ∉ seen) /\
                   Forall (fun e => partialMatch x e = false) unique) l ->
  NoDup (List.map dedupKey l) -> unmatched l ->
  (fold_left dedupStep l (seen, unique)).2 = unique ++ l.
Proof.
  induction l as [|x l IH]; intros seen unique Hl Hk Hu; simpl.
  - rewrite app_nil_r. reflexivity.
  - apply Forall_cons in Hl as [[Hx1 Hx2] Hl]. destruct Hu as [Hxl Hu].
    simpl in Hk. apply NoDup_cons in Hk as [Hkx Hk].
    unfold dedupStep at 2. cbn [fst snd].
    rewrite bool_decide_eq_false_2 by exact Hx1.
    rewrite (proj2 (mergeFirst_None x unique) Hx2).
    rewrite IH; [rewrite <- app_assoc; reflexivity | | exact Hk | exact Hu].
    apply Forall_forall. intros y Hy.
    rewrite Forall_forall in Hl, Hxl. destruct (Hl y Hy) as [Hy1 Hy2]. split.
    + intros [E%elem_of_singleton | Hin]%elem_of_union; [|exact (Hy1 Hin)].
      apply Hkx. rewrite <- E. apply list_elem_of_fmap. eauto.
    + apply Forall_app_2; [exact Hy2|]. repeat constructor. apply Hxl, Hy.
Qed.

(** X24. [removeDuplicateContacts] returns its input unchanged when no
    two records have the same key (e-mail in lower case and phone) and
    no record has the e-mail (up to case) or the phone of a record before
    it. *)
Theorem removeDuplicateContacts_clean (l : list ContactData) :
  NoDup (List.map dedupKey l) -> unmatched l -> removeDuplicateContacts l = l.
Proof.
  intros Hk Hu. unfold removeDuplicateContacts.
  rewrite (unmatched_fold l ∅ []); [reflexivity | | exact Hk | exact Hu].
  apply Forall_forall. intros x _. split; [apply not_elem_of_empty | constructor].
Qed.

Lemma removeDuplicateContacts_clean_witness :
  removeDuplicateContacts [fullRecord; mariaRecord] = [fullRecord; mariaRecord].
Proof.
  apply (removeDuplicateContacts_clean [fullRecord; mariaRecord]).
  - apply NoDup_ListNoDup. vm_compute. repeat constructor; simpl; intuition discriminate.
  - vm_compute. repeat constructor.
Defined.

(** *** What the loop keeps of every record *)

Lemma key_split (x1 p1 x2 p2 : jsstring) :
  cBar ∉ x1 -> cBar ∉ x2 -> x1 ++ [cBar] ++ p1 = x2 ++ [cBar] ++ p2 ->
  x1 = x2 /\ p1 = p2.
Proof.
  revert x2. induction x1 as [|c x1 IH]; intros [|d x2] H1 H2 E; simpl in E.
  - injection E as E. auto.
  - injection E as E _. exfalso. apply H2. rewrite E. left.
  - injection E as E _. exfalso. apply H1. rewrite E. left.
  - injection E as -> E. apply not_elem_of_cons in H1 as [_ H1], H2 as [_ H2].
    destruct (IH x2 H1 H2 E) as [-> ->]. auto.
Qed.

Lemma toLowerCase_bar e : cBar ∉ e -> cBar ∉ toLowerCase e.
Proof.
  intros H Hin. apply H. unfold toLowerCase in Hin.
  apply list_elem_of_In, in_map_iff in Hin as (c & E & Hc).
  apply list_elem_of_In in Hc.
  assert (c = cBar) as <-; [|exact Hc].
  revert E. unfold cBar. EmailFacts.lower_cases c; lia.
Qed.

Lemma dedupKey_inj a b :
  cBar ∉ email a -> cBar ∉ email b -> dedupKey a = dedupKey b ->
  toLowerCase (email a) = toLowerCase (email b) /\ phone a = phone b.
Proof.
  intros Ha Hb E. apply key_split; [apply toLowerCase_bar, Ha | apply toLowerCase_bar, Hb | exact E].
Qed.

Lemma carries_refl c : carries c c.
Proof. split; reflexivity. Qed.

Lemma partialMatch_mergeInto c u x :
  partialMatch c u = true -> partialMatch c (mergeInto u x) = true.
Proof.
  apply DOMScannerFacts.partialMatch_carries.
  apply DOMScannerFacts.mergeInto_carries, carries_refl.
Qed.

Lemma partialMatch_self c :
  truthy (email c) || truthy (phone c) = true -> partialMatch c c = true.
Proof.
  unfold partialMatch. rewrite !bool_decide_eq_true_2 by reflexivity.
  rewrite !andb_true_r. auto.
Qed.

Lemma merged_keeps (P : ContactData -> Prop) pre e post x :
  (forall u, P u -> P (mergeInto u x)) ->
  (exists u, u ∈ pre ++ e :: post /\ P u) ->
  exists u, u ∈ pre ++ mergeInto e x :: post /\ P u.
Proof.
  intros HP (u & [Hu | [-> | Hu]%elem_of_cons]%elem_of_app & Hpu).
  - exists u. split; [apply elem_of_app; left; exact Hu | exact Hpu].
  - exists (mergeInto e x). split; [apply elem_of_app; right; left | apply HP, Hpu].
  - exists u. split; [apply elem_of_app; right; right; exact Hu | exact Hpu].
Qed.

Lemma dedupStep_covers l st x :
  Forall (fun c => cBar ∉ email c) (l ++ [x]) ->
  (forall key, key ∈ st.1 ->
     exists a, a ∈ l /\ key = dedupKey a /\ exists u, u ∈ st.2 /\ carries u a) ->
  (forall c, c ∈ l -> truthy (email c) || truthy (phone c) = true ->
             exists u, u ∈ st.2 /\ partialMatch c u = true) ->
  (forall key, key ∈ (dedupStep st x).1 ->
     exists a, a ∈ l ++ [x] /\ key = dedupKey a /\
               exists u, u ∈ (dedupStep st x).2 /\ carries u a) /\
  (forall c, c ∈ l ++ [x] -> truthy (email c) || truthy (phone c) = true ->
             exists u, u ∈ (dedupStep st x).2 /\ partialMatch c u = true).
Proof.
  intros Hbar J1 J2.
  assert (Hl : forall c, c ∈ l -> c ∈ l ++ [x]) by (intros c Hc; apply elem_of_app; auto).
  assert (Hx : x ∈ l ++ [x]) by (apply elem_of_app; right; left).
  rewrite Forall_forall in Hbar.
  destruct (dedupStep_cases st x)
    as [[Hseen ->] | [(pre & e & post & E & Hm & ->) | (Hk & Hnone & ->)]].
  - split.
    + intros key Hkey. destruct (J1 key Hkey) as (a & Ha & Ek & Hu). eauto.
    + intros c [Hc | ->%list_elem_of_singleton]%elem_of_app Ht; [exact (J2 c Hc Ht)|].
      destruct (J1 _ Hseen) as (a & Ha & Ek & u & Hu & [He Hp]).
      destruct (dedupKey_inj x a (Hbar x Hx) (Hbar a (Hl a Ha)) Ek) as [Ee Eph].
      exists u. split; [exact Hu|]. unfold partialMatch.
      apply orb_true_iff in Ht as [Ht | Ht]; apply orb_true_iff; [left | right];
        rewrite Ht; simpl; apply bool_decide_eq_true.
      * rewrite He; [exact Ee|].
        rewrite <- DOMScannerFacts.truthy_toLowerCase, <- Ee,
          DOMScannerFacts.truthy_toLowerCase. exact Ht.
      * rewrite Hp; [exact Eph|]. rewrite <- Eph. exact Ht.
  - cbn [fst snd]. rewrite E in J1, J2. split.
    + intros key Hkey. destruct (J1 key Hkey) as (a & Ha & Ek & Hu).
      exists a. split; [auto|]. split; [exact Ek|].
      apply (merged_keeps (fun u => carries u a)); [|exact Hu].
      intros u. apply DOMScannerFacts.mergeInto_carries.
    + intros c [Hc | ->%list_elem_of_singleton]%elem_of_app Ht.
      * apply (merged_keeps (fun u => partialMatch c u = true)); [|exact (J2 c Hc Ht)].
        intros u. apply partialMatch_mergeInto.
      * exists (mergeInto e x). split; [apply elem_of_app; right; left|].
        apply partialMatch_mergeInto, Hm.
  - cbn [fst snd]. split.
    + intros key [->%elem_of_singleton | Hkey]%elem_of_union.
      * exists x. split; [exact Hx|]. split; [reflexivity|].
        exists x. split; [apply elem_of_app; right; left | apply carries_refl].
      * destruct (J1 key Hkey) as (a & Ha & Ek & u & Hu & Hc).
        exists a. split; [auto|]. split; [exact Ek|].
        exists u. split; [apply elem_of_app; left; exact Hu | exact Hc].
    + intros c [Hc | ->%list_elem_of_singleton]%elem_of_app Ht.
      * destruct (J2 c Hc Ht) as (u & Hu & Hpm).
        exists u. split; [apply elem_of_app; left; exact Hu | exact Hpm].
      * exists x. split; [apply elem_of_app; right; left | apply partialMatch_self, Ht].
Qed.

Lemma dedupState_covers l :
  Forall (fun c => cBar ∉ email c) l ->
  (forall key, key ∈ (dedupState l).1 ->
     exists a, a ∈ l /\ key = dedupKey a /\ exists u, u ∈ (dedupState l).2 /\ carries u a) /\
  (forall c, c ∈ l -> truthy (email c) || truthy (phone c) = true ->
             exists u, u ∈ (dedupState l).2 /\ partialMatch c u = true).
Proof.
  induction l as [|x l IH] using rev_ind; intros Hbar.
  - split; [intros key Hkey; apply elem_of_empty in Hkey as [] | intros c Hc; inversion Hc].
  - rewrite dedupState_snoc.
    destruct IH as [J1 J2]; [apply Forall_app in Hbar; apply Hbar|].
    apply dedupStep_covers; assumption.
Qed.

(** X25. When no e-mail contains the character [|], every record of the
    input that has an e-mail or a phone is represented in the result of
    [removeDuplicateContacts]: some record of the result has its e-mail
    (up to case) or its phone. *)
Theorem removeDuplicateContacts_covers (l : list ContactData) (c : ContactData) :
  Forall (fun c => cBar ∉ email c) l ->
  c ∈ l -> truthy (email c) || truthy (phone c) = true ->
  exists u, u ∈ removeDuplicateContacts l /\ partialMatch c u = true.
Proof.
  intros Hbar Hc Ht. destruct (dedupState_covers l Hbar) as [_ J2]. exact (J2 c Hc Ht).
Qed.

Lemma removeDuplicateContacts_covers_witness :
  exists u, u ∈ removeDuplicateContacts [orphanRecord; namedRecord] /\
            partialMatch namedRecord u = true.
Proof.
  apply (removeDuplicateContacts_covers [orphanRecord; namedRecord] namedRecord).
  - repeat constructor; apply (bool_decide_unpack _); vm_compute; exact I.
  - right. left.
  - reflexivity.
Defined.

End ScanFacts.

(** ** CSVExporter *)

Module CSVFacts.
Import CSVExporter CSVReader Examples.

(** The cases of the test suite of the repository: a name with quotes
    and a comma, a source with commas, and empty fields. *)
Example escapeCSVField_cases :
  List.map escapeCSVField
    [js "Jos" ++ [233] ++ js " " ++ [cQuote] ++ js "Z" ++ [233] ++ [cQuote] ++ js " Silva, Jr.";
     js "https://example.com/page,with,commas";
     js "(11) 99999-9999";
     []] =
  [[cQuote] ++ js "Jos" ++ [233] ++ js " " ++ [cQuote; cQuote] ++ js "Z" ++ [233] ++
     [cQuote; cQuote] ++ js " Silva, Jr." ++ [cQuote];
   [cQuote] ++ js "https://example.com/page,with,commas" ++ [cQuote];
   js "(11) 99999-9999";
   [cQuote; cQuote]].
Proof. vm_compute. reflexivity. Qed.

Example generateCSV_missing_timestamp :
  generateCSV (fun _ => [])
    [mkContact (js "Ana Lima") (js "(11) 99999-9999") (js "ana@test.com")
               (js "https://example.com") NoDate] =
  Some (UTF8_BOM ++ js "Nome,Telefone,Email,Fonte,Data de Extra" ++ [231; 227] ++ js "o" ++
        [cLF] ++ js "Ana Lima,(11) 99999-9999,ana@test.com,https://example.com," ++
        [cQuote; cQuote] ++ [cLF]).
Proof. vm_compute. reflexivity. Qed.

Lemma includes1_false a s :
  includes [a] s = false -> Forall (fun c => (c =? a) = false) s.
Proof.
  induction s as [|c s IH]; [constructor|]. cbn [includes startsWith].
  rewrite andb_true_r. intros [H1 H2]%orb_false_iff.
  constructor; [rewrite N.eqb_sym; exact H1 | apply IH, H2].
Qed.

Lemma read_quoted f : forall field record records rest,
  read Quoted field record records (doubleQuotes f ++ cQuote :: rest) =
  read QuoteSeen (rev f ++ field) record records rest.
Proof.
  induction f as [|c f IH]; intros field record records rest.
  - simpl. reflexivity.
  - unfold doubleQuotes in *. cbn [flat_map]. destruct (N.eqb_spec c cQuote) as [->|Hc].
    + cbn [app read]. change (cQuote =? cQuote) with true. cbv iota.
      rewrite IH. simpl rev. rewrite <- app_assoc. reflexivity.
    + cbn [app read]. rewrite (proj2 (N.eqb_neq c cQuote) Hc).
      rewrite IH. simpl rev. rewrite <- app_assoc. reflexivity.
Qed.

Lemma read_unquoted f : forall field record records rest,
  Forall (fun c => (c =? cComma) = false) f ->
  Forall (fun c => (c =? cLF) = false) f ->
  Forall (fun c => (c =? cQuote) = false) f ->
  read Unquoted field record records (f ++ rest) =
  read Unquoted (rev f ++ field) record records rest.
Proof.
  induction f as [|c f IH]; intros field record records rest H1 H2 H3; [reflexivity|].
  apply Forall_cons in H1 as [E1 H1]. apply Forall_cons in H2 as [E2 H2].
  apply Forall_cons in H3 as [E3 H3].
  cbn [app read]. rewrite E1, E2, E3, IH by assumption.
  simpl rev. rewrite <- app_assoc. reflexivity.
Qed.

(** One field, followed by a comma or by a line feed. *)
Lemma read_field f record records rest :
  read FieldStart [] record records (escapeCSVField f ++ cComma :: rest) =
  read FieldStart [] (f :: record) records rest /\
  read FieldStart [] record records (escapeCSVField f ++ cLF :: rest) =
  read FieldStart [] [] (rev (f :: record) :: records) rest.
Proof.
  unfold escapeCSVField. destruct f as [|c f]; [split; reflexivity|].
  cbn [truthy negb].
  destruct (includes [cComma] (c :: f) || includes [cQuote] (c :: f) ||
            includes [cLF] (c :: f) || includes [cCR] (c :: f)) eqn:E.
  - cbn [app read]. change (cQuote =? cQuote) with true. cbv iota.
    rewrite <- !app_assoc. cbn [app]. rewrite !read_quoted. cbn [read].
    rewrite app_nil_r, rev_involutive. split; reflexivity.
  - apply orb_false_iff in E as [E _]. apply orb_false_iff in E as [E E3].
    apply orb_false_iff in E as [E1 E2].
    apply includes1_false in E1, E2, E3.
    pose proof (Forall_inv E1) as C1. pose proof (Forall_inv E2) as C2.
    pose proof (Forall_inv E3) as C3. cbv beta in C1, C2, C3.
    apply Forall_inv_tail in E1, E2, E3.
    cbn [app read]. rewrite C1, C2, C3.
    rewrite !read_unquoted by assumption. cbn [read].
    change (cComma =? cComma) with true. change (cLF =? cComma) with false.
    change (cLF =? cLF) with true. cbv iota.
    rewrite rev_app_distr, rev_involutive. split; reflexivity.
Qed.

(** One record: the fields in the form of [escapeCSVField], joined by
    commas and followed by a line feed. *)
Lemma read_record fields : forall record records rest,
  fields <> [] ->
  read FieldStart [] record records
       (join cComma (List.map escapeCSVField fields) ++ cLF :: rest) =
  read FieldStart [] [] (rev (rev fields ++ record) :: records) rest.
Proof.
  induction fields as [|f fields IH]; intros record records rest Hne; [congruence|].
  destruct fields as [|g fields].
  - cbn [List.map join]. rewrite (proj2 (read_field f record records rest)). reflexivity.
  - change (List.map escapeCSVField (f :: g :: fields))
      with (escapeCSVField f :: List.map escapeCSVField (g :: fields)).
    rewrite SplitFacts.join_cons by discriminate. rewrite <- app_assoc. cbn [app].
    rewrite (proj1 (read_field f record records _)).
    rewrite IH by discriminate. simpl rev. rewrite <- !app_assoc. reflexivity.
Qed.

Lemma escapeCSVField_header : List.map escapeCSVField CSV_HEADERS = CSV_HEADERS.
Proof. vm_compute. reflexivity. Qed.

Lemma generateCSV_rows localTime contacts : forall csv,
  fold_left (fun csvContent contact => csvContent ++ join cComma (row localTime contact) ++ [cLF])
            contacts csv =
  csv ++ flat_map (fun contact =>
                     join cComma (List.map escapeCSVField (fieldsOf localTime contact)) ++ [cLF])
                  contacts.
Proof.
  induction contacts as [|c contacts IH]; intros csv; simpl.
  - rewrite app_nil_r. reflexivity.
  - rewrite IH, <- !app_assoc. reflexivity.
Qed.

Lemma read_records localTime contacts : forall records,
  read FieldStart [] [] records
       (flat_map (fun contact =>
                    join cComma (List.map escapeCSVField (fieldsOf localTime contact)) ++ [cLF])
                 contacts) =
  Some (rev records ++ List.map (fieldsOf localTime) contacts).
Proof.
  induction contacts as [|c contacts IH]; intros records.
  - simpl. rewrite app_nil_r. reflexivity.
  - cbn [flat_map List.map]. rewrite <- app_assoc. cbn [app].
    rewrite read_record by discriminate. rewrite IH.
    rewrite app_nil_r, rev_involutive. simpl rev. rewrite <- app_assoc. reflexivity.
Qed.

(** X26. [generateCSV] throws exactly for the empty array.  Otherwise
    its result is the byte order mark followed by a text that a reader of
    comma-separated values reads back as the record of the five headers
    followed, for each contact in order, by the record of its name,
    phone, e-mail, source and formatted timestamp: commas, quotes and
    line breaks inside the fields do not change the records. *)
Theorem generateCSV_read_back (localTime : Z -> jsstring) (contacts : list ContactData) :
  match generateCSV localTime contacts with
  | None => contacts = []
  | Some csv =>
      contacts <> [] /\
      exists body, csv = UTF8_BOM ++ body /\
                   readCSV body = Some (CSV_HEADERS :: List.map (fieldsOf localTime) contacts)
  end.
Proof.
  unfold generateCSV. destruct contacts as [|c contacts]; [reflexivity|].
  cbn [length Nat.eqb]. split; [discriminate|].
  rewrite generateCSV_rows, <- !app_assoc.
  eexists. split; [reflexivity|]. unfold readCSV.
  rewrite <- escapeCSVField_header at 1. cbn [app].
  rewrite read_record by discriminate. rewrite read_records.
  rewrite app_nil_r, rev_involutive. reflexivity.
Qed.

(** X27. [escapeCSVField] loses nothing: two fields with the same
    escaped form are equal, and the escaped form is never empty. *)
Theorem escapeCSVField_injective (a b : jsstring) :
  escapeCSVField a <> [] /\ (escapeCSVField a = escapeCSVField b -> a = b).
Proof.
  split.
  - unfold escapeCSVField. destruct a; [discriminate|]. cbn [truthy negb].
    destruct (_ || _); discriminate.
  - intros E.
    pose proof (proj2 (read_field a [] [] [])) as Ha.
    pose proof (proj2 (read_field b [] [] [])) as Hb.
    rewrite E, Hb in Ha. simpl in Ha. congruence.
Qed.

End CSVFacts.

(** ** From the recognizer to the store *)

Module PipelineFacts.
Import PatternMatcher DOMScanner DataManager PhoneStages PhoneChecks EmailStages ScanChecks
       Examples.

Lemma firstOccurrences_sub l x : x ∈ firstOccurrences l -> x ∈ l.
Proof.
  revert x. apply Forall_forall, firstOccurrences_Forall, Forall_forall. auto.
Qed.

Lemma extractPhones_canonical text :
  Forall canonicalPhone (extractPhones text).
Proof.
  rewrite PhoneFacts.extractPhones_firstOccurrences.
  apply Forall_forall. intros p Hp%firstOccurrences_sub.
  unfold validFormatted in Hp. apply list_elem_of_In, filter_In in Hp as [Hp _].
  apply list_elem_of_In, list_elem_of_omap in Hp as (d & _ & Hd).
  exact (PhoneMore.formatPhone_shape d p Hd).
Qed.

Lemma phone_checks c :
  phone c = [] \/ canonicalPhone (phone c) ->
  hasPhone c = truthy (phone c) /\ (hasPhone c && negb (isValidPhone (phone c))) = false.
Proof.
  unfold hasPhone. intros [-> | Hp]; [split; reflexivity|].
  destruct (StorePhones.canonicalPhone_trim _ Hp) as [Ht ->].
  rewrite (StorePhones.canonicalPhone_isValidPhone _ Hp), Ht. split; reflexivity.
Qed.

Lemma email_checks c :
  email c = [] \/ validateEmail (email c) = true ->
  hasEmail c = truthy (email c) /\ (hasEmail c && negb (isValidEmail (email c))) = false.
Proof.
  unfold hasEmail. intros [-> | He]; [split; reflexivity|].
  rewrite EmailFacts.validateEmail_stages in He. apply andb_true_iff in He as [He _].
  apply EmailFacts.emailRegex_shape in He as (loc & dom & tld & Hs).
  destruct (EmailMore.emailShape_trim _ _ _ _ Hs) as [Ht ->].
  rewrite (EmailMore.emailShape_isValidEmail _ _ _ _ Hs), Ht. split; reflexivity.
Qed.

(** X28. Of the records that [matchContactData] builds from phones of
    [extractPhones] and e-mails of [extractEmails], the store's
    [validateContact] accepts exactly those whose name is not blank: the
    formats of the recognizer always pass the checks of the store, and
    the records without a name never do. *)
Theorem scanned_record_valid (names : list jsstring) (text1 text2 href : jsstring) (now : Z)
        (c : ContactData) :
  c ∈ matchContactData names (extractPhones text1) (extractEmails text2) href now ->
  validateContact c = truthy (trim (name c)).
Proof.
  intros Hc.
  destruct (ScanFacts.matchContactData_facts names (extractPhones text1)
                                           (extractEmails text2) href now)
    as (_ & Hfrom & _ & _ & Hhas).
  pose proof (extractPhones_canonical text1) as Hphones.
  pose proof (EmailMore.extractEmails_valid text2) as Hemails.
  rewrite Forall_forall in Hfrom. rewrite Forall_forall in Hphones.
  rewrite Forall_forall in Hemails.
  destruct (Hfrom c Hc) as (_ & _ & _ & Hp & He).
  assert (Hp' : phone c = [] \/ canonicalPhone (phone c))
    by (destruct Hp as [|Hp]; [left | right; apply Hphones]; assumption).
  assert (He' : email c = [] \/ validateEmail (email c) = true)
    by (destruct He as [|He]; [left | right; apply Hemails]; assumption).
  destruct (phone_checks c Hp') as [Ehp Evp]. destruct (email_checks c He') as [Ehe Eve].
  assert (Hany : truthy (phone c) || truthy (email c) = true).
  { assert (H : Forall (fun c => truthy (phone c) || truthy (email c) = true)
                       (matchContactData names (extractPhones text1) (extractEmails text2)
                                         href now)).
    { apply Hhas; apply Forall_forall.
      - intros p Hin. destruct (StorePhones.canonicalPhone_trim p (Hphones p Hin)) as [H _].
        exact H.
      - intros e Hin. specialize (Hemails e Hin).
        rewrite EmailFacts.validateEmail_stages in Hemails.
        apply andb_true_iff in Hemails as [Ht _].
        apply EmailFacts.emailRegex_shape in Ht as (loc & dom & tld & Hs).
        destruct (EmailMore.emailShape_trim _ _ _ _ Hs) as [H _]. exact H. }
    rewrite Forall_forall in H. exact (H c Hc). }
  unfold validateContact. rewrite Evp, Eve, Ehp, Ehe.
  destruct (name c) as [|x n] eqn:En; [reflexivity|]. cbn [truthy negb orb].
  destruct (truthy (trim (x :: n))); [|reflexivity]. cbn [negb].
  rewrite <- negb_orb, Hany. reflexivity.
Qed.

Lemma scanned_record_valid_witness :
  validateContact fullRecord = truthy (trim (name fullRecord)).
Proof.
  apply (scanned_record_valid
           [joaoName] (js "Tel: (11) 99999-9999") (js "Email: joao@email.com") page 0).
  vm_compute. left.
Defined.

End PipelineFacts.

(** ** PatternMatcher: names *)

(** The cases of the test suite of the repository (the groups
    [extractNames], [validateName] and [formatName]); the accented
    letters are written as code units. *)
Module NameTests.
Import PatternMatcher.

Example extractNames_cases :
  List.map extractNames
    [(js "Contato: Jo" ++ [227] ++ js "o Silva e Maria Santos");
     (js "Respons" ++ [225] ++ js "vel: Ana Paula de Oliveira");
     (js "Diretor: Jos" ++ [233] ++ js " da Silva dos Santos");
     (js "Contatos: Andr" ++ [233] ++ js " Lu" ++ [237] ++ js "s e M" ++ [244] ++ js "nica Ara" ++ [250] ++ js "jo");
     js "Email: contato@empresa.com Telefone: (11) 99999-9999";
     (js "Jo" ++ [227] ++ js "o Silva trabalha com Jo" ++ [227] ++ js "o Silva na empresa");
     js "Gerente: Carlos Pereira - Email: carlos@empresa.com - Tel: (11) 99999-9999"] =
  [[(js "Jo" ++ [227] ++ js "o Silva"); js "Maria Santos"];
   [js "Ana Paula de Oliveira"];
   [(js "Jos" ++ [233] ++ js " da Silva dos Santos")];
   [(js "Andr" ++ [233] ++ js " Lu" ++ [237] ++ js "s"); (js "M" ++ [244] ++ js "nica Ara" ++ [250] ++ js "jo")];
   [];
   [(js "Jo" ++ [227] ++ js "o Silva")];
   [js "Carlos Pereira"]].
Proof. vm_compute. reflexivity. Qed.

Example validateName_cases :
  List.map validateName
    [(js "Jo" ++ [227] ++ js "o Silva");
     js "Maria Santos";
     js "Ana Paula Oliveira";
     (js "Jos" ++ [233] ++ js " da Silva");
     js "Pedro dos Santos";
     js "Ana de Oliveira";
     js "Carlos da Costa";
     (js "Andr" ++ [233] ++ js " Lu" ++ [237] ++ js "s");
     (js "M" ++ [244] ++ js "nica Ara" ++ [250] ++ js "jo");
     (js "Jos" ++ [233] ++ js " Ant" ++ [243] ++ js "nio");
     (js "Jo" ++ [227] ++ js "o");
     js "Silva";
     (js "jo" ++ [227] ++ js "o silva");
     js "MARIA SANTOS";
     js "Ana PAULA";
     (js "Jo" ++ [227] ++ js "o Silva123");
     js "Maria 2Santos";
     js "Email Contato";
     (js "Telefone Endere" ++ [231] ++ js "o");
     js "Segunda Feira";
     js "Janeiro Fevereiro";
     js "A B";
     js "Jo Si";
     js "An Bo"] =
  [true; true; true; true; true; true; true; true; true; true; false; false; false; false; false; false; false; false; false; false; false; false; false; false].
Proof. vm_compute. reflexivity. Qed.

Example formatName_cases :
  List.map formatName
    [(js "jo" ++ [227] ++ js "o silva");
     js "MARIA SANTOS";
     js "ana PAULA oliveira";
     (js "JOS" ++ [201] ++ js " DA SILVA");
     js "ana DE oliveira";
     js "pedro DOS santos";
     (js "  jo" ++ [227] ++ js "o   silva  ");
     js "maria    santos";
     [];
     js "   ";
     (js "da silva jo" ++ [227] ++ js "o");
     js "de oliveira maria"] =
  [Some (js "Jo" ++ [227] ++ js "o Silva");
   Some (js "Maria Santos");
   Some (js "Ana Paula Oliveira");
   Some (js "Jos" ++ [233] ++ js " da Silva");
   Some (js "Ana de Oliveira");
   Some (js "Pedro dos Santos");
   Some (js "Jo" ++ [227] ++ js "o Silva");
   Some (js "Maria Santos");
   None;
   None;
   Some (js "Da Silva Jo" ++ [227] ++ js "o");
   Some (js "De Oliveira Maria")].
Proof. vm_compute. reflexivity. Qed.

End NameTests.

Module NameFacts.
Import Regex RegexFacts RegexMore PatternMatcher NameChecks.

Lemma pushName_spec text run names :
  runOf (splitSpaces text) run ->
  Forall (fun n => validateName n = true) names /\ NoDup names /\
  Forall (fromWords text) names ->
  Forall (fun n => validateName n = true) (pushName (List.map cleanWord run) names) /\
  NoDup (pushName (List.map cleanWord run) names) /\
  Forall (fromWords text) (pushName (List.map cleanWord run) names).
Proof.
  intros Hrun (Hv & Hn & Hf). unfold pushName. rewrite length_map.
  destruct (Nat.leb_spec 2 (length run)) as [Hlen|]; [|auto]. cbv zeta.
  destruct (formatName (join cSpace (List.map cleanWord run))) as [f|] eqn:Ef; [|auto].
  destruct (truthy f); [|auto]. cbn [andb].
  destruct (validateName f) eqn:Evf; [|auto]. cbn [andb].
  destruct (arrIncludes f names) eqn:Ei; [auto|]. cbn [negb].
  repeat split.
  - apply Forall_app_2; [exact Hv | repeat constructor; exact Evf].
  - apply NoDup_app. repeat split; [exact Hn | | apply NoDup_singleton].
    intros x Hx ->%list_elem_of_singleton. apply arrIncludes_true in Hx. congruence.
  - apply Forall_app_2; [exact Hf|]. constructor; [|constructor].
    exists run. auto.
Qed.

(** The loop: [before] and [run] are the words seen, [run] the name words
    since the last word that is none. *)
Lemma scanWords_spec text words : forall before run names,
  splitSpaces text = before ++ run ++ words ->
  Forall nameWord run ->
  (forall x, last before = Some x -> isNameWord (cleanWord x) = false) ->
  Forall (fun n => validateName n = true) names /\ NoDup names /\
  Forall (fromWords text) names ->
  Forall (fun n => validateName n = true) (scanWords words (List.map cleanWord run) names) /\
  NoDup (scanWords words (List.map cleanWord run) names) /\
  Forall (fromWords text) (scanWords words (List.map cleanWord run) names).
Proof.
  induction words as [|w rest IH]; intros before run names Hall Hrun Hb Hinv; cbn [scanWords].
  - apply pushName_spec; [|exact Hinv].
    exists before, []. repeat split; [exact Hall | exact Hrun | exact Hb | discriminate].
  - cbv zeta. destruct (isNameWord (cleanWord w)) eqn:E.
    + replace (List.map cleanWord run ++ [cleanWord w])
        with (List.map cleanWord (run ++ [w])) by apply map_app.
      apply (IH before).
      * rewrite Hall, <- (app_assoc run). reflexivity.
      * apply Forall_app_2; [exact Hrun | repeat constructor; exact E].
      * exact Hb.
      * exact Hinv.
    + apply (IH (before ++ run ++ [w]) []).
      * rewrite Hall, <- !app_assoc. reflexivity.
      * constructor.
      * intros x Hx. rewrite app_assoc, last_snoc in Hx. injection Hx as <-. exact E.
      * apply pushName_spec; [|exact Hinv].
        exists before, (w :: rest). repeat split; [exact Hall | exact Hrun | exact Hb |].
        intros x [= <-]. exact E.
Qed.

(** *** Every run gives its name *)

(** A run at a place of the words: what the words hold inside the run
    and next to it. *)
Lemma run_lookups all before run after :
  all = before ++ run ++ after ->
  Forall nameWord run ->
  (forall x, last before = Some x -> isNameWord (cleanWord x) = false) ->
  (forall x, head after = Some x -> isNameWord (cleanWord x) = false) ->
  (forall i, (length before <= i < length before + length run)%nat ->
             exists x, all !! i = Some x /\ isNameWord (cleanWord x) = true) /\
  (forall x, (0 < length before)%nat -> all !! Nat.pred (length before) = Some x ->
             isNameWord (cleanWord x) = false) /\
  (forall x, all !! (length before + length run)%nat = Some x ->
             isNameWord (cleanWord x) = false).
Proof.
  intros -> Hrun Hb Ha. repeat split.
  - intros i Hi. destruct (lookup_lt_is_Some_2 run (i - length before)) as [x Hx]; [lia|].
    exists x. split.
    + rewrite lookup_app_r by lia. rewrite lookup_app_l by lia. exact Hx.
    + rewrite Forall_lookup in Hrun. exact (Hrun _ _ Hx).
  - intros x Hpos Hx. apply Hb. rewrite last_lookup, <- Hx.
    rewrite lookup_app_l by lia. reflexivity.
  - intros x Hx. apply Ha. rewrite head_lookup, <- Hx.
    rewrite lookup_app_r by lia. rewrite lookup_app_r by lia.
    f_equal. lia.
Qed.

(** A run that ends after [before] and not after the word that follows
    [run] is [run] itself. *)
Lemma run_position all before run after b r a :
  all = before ++ run ++ after ->
  Forall nameWord run ->
  (forall x, last before = Some x -> isNameWord (cleanWord x) = false) ->
  (forall x, head after = Some x -> isNameWord (cleanWord x) = false) ->
  all = b ++ r ++ a ->
  Forall nameWord r ->
  (forall x, last b = Some x -> isNameWord (cleanWord x) = false) ->
  (forall x, head a = Some x -> isNameWord (cleanWord x) = false) ->
  (1 <= length r)%nat ->
  (length before < length b + length r <= length before + length run + 1)%nat ->
  b = before /\ r = run.
Proof.
  intros E1 Hrun Hb Ha E2 Hr Hb' Ha' Hlen Hpos.
  destruct (run_lookups all before run after E1 Hrun Hb Ha) as (S1 & S2 & S3).
  destruct (run_lookups all b r a E2 Hr Hb' Ha') as (R1 & R2 & R3).
  assert (Hend : (length b + length r = length before + length run)%nat).
  { destruct (Nat.lt_trichotomy (length b + length r) (length before + length run))
      as [Hlt|[Heq|Hgt]]; [|exact Heq|].
    - destruct (S1 (length b + length r)%nat) as (x & Hx & Hn); [lia|].
      rewrite (R3 x Hx) in Hn. discriminate.
    - destruct (R1 (length before + length run)%nat) as (x & Hx & Hn); [lia|].
      rewrite (S3 x Hx) in Hn. discriminate. }
  assert (Hstart : length b = length before).
  { destruct (Nat.lt_trichotomy (length b) (length before)) as [Hlt|[Heq|Hgt]]; [|exact Heq|].
    - destruct (R1 (Nat.pred (length before))) as (x & Hx & Hn); [lia|].
      rewrite (S2 x) in Hn; [discriminate | lia | exact Hx].
    - destruct (S1 (Nat.pred (length b))) as (x & Hx & Hn); [lia|].
      rewrite (R2 x) in Hn; [discriminate | lia | exact Hx]. }
  rewrite E1 in E2. apply app_inj_1 in E2 as [-> E2]; [|congruence].
  apply app_inj_1 in E2 as [-> _]; [auto | lia].
Qed.

Lemma validateName_truthy n : validateName n = true -> truthy n = true.
Proof. destruct n; [discriminate | reflexivity]. Qed.

Lemma pushName_keeps cur names n : n ∈ names -> n ∈ pushName cur names.
Proof.
  intros H. unfold pushName. destruct (2 <=? length cur)%nat; [|exact H]. cbv zeta.
  destruct (formatName (join cSpace cur)) as [f|]; [|exact H].
  destruct (truthy f && validateName f && negb (arrIncludes f names)); [|exact H].
  apply elem_of_app. left. exact H.
Qed.

Lemma pushName_adds cur names n :
  (2 <= length cur)%nat -> formatName (join cSpace cur) = Some n -> validateName n = true ->
  n ∈ pushName cur names.
Proof.
  intros Hlen Hf Hv. unfold pushName.
  destruct (Nat.leb_spec 2 (length cur)); [|lia]. cbv zeta. rewrite Hf, Hv.
  rewrite (validateName_truthy n Hv). cbn [andb].
  destruct (arrIncludes n names) eqn:Ei; cbn [negb].
  - apply arrIncludes_true. exact Ei.
  - apply elem_of_app. right. constructor.
Qed.

Lemma scanWords_keeps words : forall cur names n,
  n ∈ names -> n ∈ scanWords words cur names.
Proof.
  induction words as [|w rest IH]; intros cur names n H; cbn [scanWords].
  - apply pushName_keeps, H.
  - cbv zeta. destruct (isNameWord (cleanWord w)); apply IH; [exact H|].
    apply pushName_keeps, H.
Qed.

(** The names of the runs that end within the first [k] words are in
    [names]. *)
Definition runsDone (all : list jsstring) (k : nat) (names : list jsstring) : Prop :=
  forall b r a n,
    all = b ++ r ++ a -> Forall nameWord r ->
    (forall x, last b = Some x -> isNameWord (cleanWord x) = false) ->
    (forall x, head a = Some x -> isNameWord (cleanWord x) = false) ->
    (2 <= length r)%nat ->
    formatName (join cSpace (List.map cleanWord r)) = Some n -> validateName n = true ->
    (length b + length r <= k)%nat ->
    n ∈ names.

Lemma pushName_done all before run after names :
  all = before ++ run ++ after ->
  Forall nameWord run ->
  (forall x, last before = Some x -> isNameWord (cleanWord x) = false) ->
  (forall x, head after = Some x -> isNameWord (cleanWord x) = false) ->
  runsDone all (length before) names ->
  runsDone all (length before + length run + 1) (pushName (List.map cleanWord run) names).
Proof.
  intros E Hrun Hb Ha Hdone b r a n E' Hr Hb' Ha' Hlen Hf Hv Hk.
  destruct (Nat.le_gt_cases (length b + length r) (length before)) as [Hle|Hgt].
  - apply pushName_keeps. exact (Hdone b r a n E' Hr Hb' Ha' Hlen Hf Hv Hle).
  - destruct (run_position all before run after b r a) as [-> ->];
      try assumption; [lia | lia |].
    apply pushName_adds; [rewrite length_map; exact Hlen | exact Hf | exact Hv].
Qed.

Lemma scanWords_done all words : forall before run names,
  all = before ++ run ++ words ->
  Forall nameWord run ->
  (forall x, last before = Some x -> isNameWord (cleanWord x) = false) ->
  runsDone all (length before) names ->
  runsDone all (length all) (scanWords words (List.map cleanWord run) names).
Proof.
  induction words as [|w rest IH]; intros before run names E Hrun Hb Hdone; cbn [scanWords].
  - intros b r a n E' Hr Hb' Ha' Hlen Hf Hv Hk.
    apply (pushName_done all before run [] names E Hrun Hb) with (b := b) (r := r) (a := a);
      try assumption; [discriminate|].
    rewrite E, !length_app in Hk. simpl in Hk. lia.
  - cbv zeta. destruct (isNameWord (cleanWord w)) eqn:Ew.
    + replace (List.map cleanWord run ++ [cleanWord w])
        with (List.map cleanWord (run ++ [w])) by apply map_app.
      apply (IH before).
      * rewrite E, <- (app_assoc run). reflexivity.
      * apply Forall_app_2; [exact Hrun | repeat constructor; exact Ew].
      * exact Hb.
      * exact Hdone.
    + apply (IH (before ++ run ++ [w]) []).
      * rewrite E, <- !app_assoc. reflexivity.
      * constructor.
      * intros x Hx. rewrite app_assoc, last_snoc in Hx. injection Hx as <-. exact Ew.
      * rewrite !length_app. cbn [length]. rewrite Nat.add_assoc.
        apply (pushName_done all before run (w :: rest) names E Hrun Hb); [|exact Hdone].
        intros x [= <-]. exact Ew.
Qed.

Lemma extractNames_runs (text : jsstring) :
  Forall (fun n => validateName n = true) (extractNames text) /\
  NoDup (extractNames text) /\
  Forall (fromWords text) (extractNames text) /\
  (forall n, fromWords text n -> validateName n = true -> n ∈ extractNames text).
Proof.
  unfold extractNames. destruct text as [|c text]; cbn [truthy negb].
  - refine (conj (Forall_nil_2 _) (conj (NoDup_nil_2) (conj (Forall_nil_2 _) _))).
    intros n (run & (b & a & E & _) & Hlen & _) _. exfalso.
    apply (f_equal length) in E. rewrite !length_app in E. simpl in E. lia.
  - destruct (scanWords_spec (c :: text) (splitSpaces (c :: text)) [] [] [])
      as (Hv & Hn & Hf);
      [reflexivity | constructor | discriminate | repeat split; constructor |].
    refine (conj Hv (conj Hn (conj Hf _))).
    intros n (run & (b & a & E & Hr & Hb & Ha) & Hlen & Hfmt) Hvn.
    apply (scanWords_done (splitSpaces (c :: text)) (splitSpaces (c :: text)) [] [] [])
      with (b := b) (r := run) (a := a); try assumption.
    + reflexivity.
    + constructor.
    + discriminate.
    + intros b' r' a' n' _ _ _ _ Hl' _ _ Hk. simpl in Hk. lia.
    + rewrite E, !length_app. lia.
Qed.

(** X29. For every text, the names that [extractNames] returns pass
    [validateName] and are pairwise different, and each is the text that
    [formatName] gives for a run of two or more consecutive words of the
    text that [isNameWord] accepts, once cleaned of the characters that
    are not letters, digits, underscores or white space: the run takes
    all of them, the word before it and the word after it, if any, are
    no name words, and the cleaned words are joined by single spaces.
    And every such run whose formatted text passes [validateName] gives
    a name of the result. *)
Theorem extractNames_spec (text : jsstring) :
  Forall (fun n => validateName n = true) (extractNames text) /\
  NoDup (extractNames text) /\
  Forall (fromWords text) (extractNames text) /\
  (forall n, fromWords text n -> validateName n = true -> n ∈ extractNames text).
Proof. exact (extractNames_runs text). Qed.

(** Two name words with another word between them are no run: the text
    gives no name, although [Ana Lima] passes [validateName]. *)
Example extractNames_words_apart :
  extractNames (js "Ana foo Lima bar") = [] /\
  validateName (js "Ana Lima") = true /\
  ~ fromWords (js "Ana foo Lima bar") (js "Ana Lima").
Proof.
  split; [vm_compute; reflexivity|]. split; [vm_compute; reflexivity|].
  intros H. destruct (extractNames_runs (js "Ana foo Lima bar")) as (_ & _ & _ & Hc).
  apply Hc in H; [|vm_compute; reflexivity].
  vm_compute in H. inversion H.
Qed.

(** A run of three words, the second a particle. *)
Example extractNames_run :
  extractNames (js "Contato: Ana de Oliveira, gerente") = [js "Ana de Oliveira"] /\
  fromWords (js "Contato: Ana de Oliveira, gerente") (js "Ana de Oliveira").
Proof.
  split; [vm_compute; reflexivity|].
  exists [js "Ana"; js "de"; js "Oliveira,"]. split; [|split; [simpl; lia | vm_compute; reflexivity]].
  exists [js "Contato:"], [js "gerente"]. split; [vm_compute; reflexivity|].
  split; [repeat constructor|]. split; intros x [= <-]; vm_compute; reflexivity.
Qed.

Lemma capitalized_sound w :
  test capitalized w = true ->
  exists u ls, w = u :: ls /\ upperClass u = true /\
               Forall (fun c => lowerClass c = true) ls /\ (1 <= length ls)%nat.
Proof.
  unfold capitalized. cbn [cat fold_right]. rewrite test_Bos.
  match goal with |- context [match ?o with Some _ => true | None => false end] =>
                    destruct o as [n|] eqn:H end; [intros _|discriminate].
  cbn [m] in H.
  change (m (Chr upperClass) [] w
            (fun l r => rep lowerClass 1 None l r
               (fun l' r' => match r' with
                             | [] => Some (length r')
                             | _ :: _ => None
                             end)) = Some n) in H.
  apply chr_sound in H as (u & r & -> & Hu & H). cbn beta in H.
  apply rep_sound in H as (ls & r' & -> & Hls & Hlen & H).
  destruct r'; [|discriminate]. rewrite app_nil_r. eauto 10.
Qed.

(** X30. A name that [validateName] accepts has, between the runs of
    white space of its trimmed text, two or more words; each word is a
    particle ([da], [de], [dos], ... in any case) or a capital letter
    followed by two or more small letters; and none of the patterns of
    the words that are not names matches its lower-case text. *)
Theorem validateName_shape (n : jsstring) :
  validateName n = true ->
  (2 <= length (splitSpaces (trim n)))%nat /\
  Forall (fun w => isParticle (toLowerCase w) = true \/ properWord w) (splitSpaces (trim n)) /\
  Forall (fun pattern => test pattern (toLowerCase (trim n)) = false) invalidPatterns.
Proof.
  unfold validateName. cbv zeta.
  destruct (length (trim n) <? 2)%nat; [discriminate|].
  destruct (Nat.ltb_spec (length (splitSpaces (trim n))) 2) as [|Hlen]; [discriminate|].
  destruct (existsb rejectsWord (splitSpaces (trim n))) eqn:Ew; [discriminate|].
  destruct (existsb _ invalidPatterns) eqn:Ep; [discriminate|]. intros _.
  split; [exact Hlen|]. split.
  - apply StoreMore.existsb_false_Forall in Ew.
    eapply Forall_impl; [exact Ew|]. intros w. cbv beta. unfold rejectsWord.
    destruct (isParticle (toLowerCase w)); [auto|]. cbn [negb andb].
    destruct (Nat.ltb_spec (length w) 2) as [|_]; [discriminate|].
    destruct (Nat.ltb_spec (length w) 3) as [|H3]; [discriminate|].
    destruct (test startsUpper w); [|discriminate]. cbn [negb].
    destruct (test capitalized w) eqn:Ec; [|discriminate]. intros _. right.
    apply capitalized_sound in Ec as (u & ls & -> & Hu & Hls & _).
    exists u, ls. repeat split; try assumption. simpl in H3. lia.
  - apply StoreMore.existsb_false_Forall in Ep. exact Ep.
Qed.

Lemma validateName_shape_witness :
  (2 <= length (splitSpaces (trim (js "Ana de Oliveira"))))%nat /\
  Forall (fun w => isParticle (toLowerCase w) = true \/ properWord w)
         (splitSpaces (trim (js "Ana de Oliveira"))) /\
  Forall (fun pattern => test pattern (toLowerCase (trim (js "Ana de Oliveira"))) = false)
         invalidPatterns.
Proof. apply (validateName_shape (js "Ana de Oliveira")). vm_compute. reflexivity. Defined.

End NameFacts.
